(** * PDFParser: question extraction from PDF text

    A shallow embedding of [pdfParser.js] (class [PDFParser]): the text
    normaliser [fixLigatures], the field cleaner [cleanText], the structured
    extractor [parseQuestions], the fallback segmenter
    [parseQuestionsFlexible], the batch loader [loadPDFs] and the sampler
    [getRandomQuestions] / [shuffleArray].

    JavaScript strings are sequences of UTF-16 code units; they are modelled
    as lists of [N].  The regular expressions of the source are values of an
    inductive type [regex], run by a backtracking matcher written in
    continuation-passing style after the ECMAScript specification
    (greedy and lazy quantifiers, capture groups, lookahead, [^] and [\b],
    the [i] flag).  The Numbers that [parseInt] returns are integers that
    are doubles, -0, the infinities and NaN; [parseInt] rounds to the
    nearest double and the conversion to a string gives the shortest digits
    that read back as the number. *)

From Stdlib Require Import List NArith ZArith QArith Qround Lia String Ascii Bool Permutation.
From stdpp Require Import base list.
Import ListNotations.

Unset Default Proof Using.

(** ** JavaScript strings *)

Module JS.

Definition char := N.
Definition jsstring := list char.

(** An ASCII literal of the source as a list of code units. *)
Definition js (s : string) : jsstring := map N_of_ascii (list_ascii_of_string s).
Arguments js _%_string.

Definition jsstring_eqb (a b : jsstring) : bool := bool_decide (a = b).

(** [WhiteSpace] and [LineTerminator] of ECMAScript: the set matched by [\s]
    and stripped by [String.prototype.trim]. *)
Definition isWhiteSpace (c : char) : bool :=
  (((9 <=? c) && (c <=? 13)) || (c =? 32) || (c =? 0xA0) || (c =? 0x1680)
   || ((0x2000 <=? c) && (c <=? 0x200A)) || (c =? 0x2028) || (c =? 0x2029)
   || (c =? 0x202F) || (c =? 0x205F) || (c =? 0x3000) || (c =? 0xFEFF))%N.

Definition isLineTerminator (c : char) : bool :=
  ((c =? 10) || (c =? 13) || (c =? 0x2028) || (c =? 0x2029))%N.

Definition isDigit (c : char) : bool := ((48 <=? c) && (c <=? 57))%N.

(** The word characters of [\b] (no [u] flag): [A-Za-z0-9_]. *)
Definition isWordChar (c : char) : bool :=
  (((97 <=? c) && (c <=? 122)) || ((65 <=? c) && (c <=? 90))
   || ((48 <=? c) && (c <=? 57)) || (c =? 95))%N.

(** [Canonicalize] of a regular expression with the [i] flag and without the
    [u] flag is [toUpperCase] on one code unit, except that a non-ASCII unit
    never maps to an ASCII one.  The patterns of this program contain only
    ASCII characters and U+00D5, so the map is written out for the ASCII
    letters and for U+00F5 / U+00D5 only; on these patterns it decides the
    same matches as the full table. *)
Definition canonicalize (c : char) : char :=
  if ((97 <=? c) && (c <=? 122))%N then (c - 32)%N
  else if (c =? 0xF5)%N then 0xD5%N else c.

Definition uncanonicalize (c : char) : char :=
  if ((65 <=? c) && (c <=? 90))%N then (c + 32)%N
  else if (c =? 0xD5)%N then 0xF5%N else c.

(** [String.prototype.toUpperCase], on the ASCII letters (it is applied to
    the captured answer letter only). *)
Definition toUpperCase (s : jsstring) : jsstring :=
  map (fun c => if ((97 <=? c) && (c <=? 122))%N then (c - 32)%N else c) s.

(** [String.prototype.trim]. *)
Fixpoint trimStart (s : jsstring) : jsstring :=
  match s with
  | c :: s' => if isWhiteSpace c then trimStart s' else s
  | [] => []
  end.

Definition trim (s : jsstring) : jsstring := rev (trimStart (rev (trimStart s))).

(** [String.prototype.substring] for indices inside the string. *)
Definition substring (s : jsstring) (a b : nat) : jsstring := firstn (b - a) (skipn a s).

(** *** Numbers

    The Number values that [parseInt] returns: an integer that is a double
    ([Integer 0] is +0), -0, an infinity or NaN. *)
Inductive jsnumber :=
| Integer (z : Z)
| NegativeZero
| Infinity (negative : bool)
| NaN.
Arguments Integer _%_Z.

(** The double nearest to a non-negative integer, ties to the even
    significand (53 bits); [None] when it is an infinity. *)
Definition nearest_double (m : N) : option N :=
  let bits := N.log2 m in
  if (bits <? 53)%N then Some m
  else
    let e := (bits - 52)%N in
    let q := N.shiftr m e in
    let r := N.land m (N.ones e) in
    let half := N.shiftl 1 (e - 1) in
    let q' := if ((half <? r) || ((half =? r) && N.odd q))%N then (q + 1)%N else q in
    let v := N.shiftl q' e in
    if (N.log2 v <? 1024)%N then Some v else None.

(** The value of a code unit as a digit of radix [R]. *)
Definition digit (R : N) (c : char) : option N :=
  let v := if isDigit c then Some (c - 48)%N
           else if ((97 <=? c) && (c <=? 122))%N then Some (c - 87)%N
           else if ((65 <=? c) && (c <=? 90))%N then Some (c - 55)%N
           else None in
  match v with
  | Some d => if (d <? R)%N then Some d else None
  | None => None
  end.

(** The value of the longest prefix of digits of radix [R]; [None] when
    the prefix is empty. *)
Fixpoint digits_value (R : N) (s : jsstring) (acc : option N) : option N :=
  match s with
  | c :: s' =>
      match digit R c with
      | Some d =>
          digits_value R s' (Some (match acc with Some a => a * R + d | None => d end)%N)
      | None => acc
      end
  | [] => acc
  end.

(** [parseInt(string)] without a radix: leading white space, a sign, the
    prefix [0x] or [0X] for radix 16, then the longest prefix of digits.
    The value is that of the double nearest to the number written (for more
    than 20 significant digits ECMAScript leaves the last digits to the
    implementation; the exact value is taken here). *)
Definition parseInt (string : jsstring) : jsnumber :=
  let trimmed := trimStart string in
  let negative := match trimmed with c :: _ => (c =? 45)%N | [] => false end in
  let unsigned :=
    match trimmed with
    | c :: rest => if ((c =? 43) || (c =? 45))%N then rest else trimmed
    | [] => trimmed
    end in
  let '(R, digits) :=
    match unsigned with
    | zero :: x :: rest =>
        if ((zero =? 48) && ((x =? 120) || (x =? 88)))%N then (16%N, rest) else (10%N, unsigned)
    | _ => (10%N, unsigned)
    end in
  match digits_value R digits None with
  | None => NaN
  | Some 0%N => if negative then NegativeZero else Integer 0
  | Some mathInt =>
      match nearest_double mathInt with
      | Some v => Integer (if negative then - Z.of_N v else Z.of_N v)
      | None => Infinity negative
      end
  end.

(** The decimal digits of a non-negative integer. *)
Fixpoint digits_fuel (fuel : nat) (n : N) (acc : jsstring) : jsstring :=
  match fuel with
  | O => acc
  | S f =>
      let acc' := (48 + n mod 10)%N :: acc in
      if (n <? 10)%N then acc' else digits_fuel f (n / 10)%N acc'
  end.

Definition decimal (n : N) : jsstring := digits_fuel (S (N.to_nat (N.log2 n))) n [].

(** The integers [s] with [s * 10^p] rounding to the double [x]: when there
    is one, the one nearest to [x] (the even one of two equally near). *)
Definition candidate (x : N) (p : nat) : option N :=
  let u := (10 ^ N.of_nat p)%N in
  let lo := (x / u)%N in
  let rounds := fun c : N =>
    (0 <? c)%N && match nearest_double (c * u) with
                  | Some y => (y =? x)%N
                  | None => false
                  end in
  match rounds lo, rounds (lo + 1)%N with
  | true, true =>
      let below := (x - lo * u)%N in
      let above := ((lo + 1) * u - x)%N in
      Some (if (below <? above)%N then lo
            else if (above <? below)%N then (lo + 1)%N
            else if N.even lo then lo else (lo + 1)%N)
  | true, false => Some lo
  | false, true => Some (lo + 1)%N
  | false, false => None
  end.

(** The shortest such [s], with its power of ten: the largest [p] for
    which there is one. *)
Fixpoint shortest (p : nat) (x : N) : N * nat :=
  match candidate x p with
  | Some s => (s, p)
  | None =>
      match p with
      | O => (x, O)
      | S p' => shortest p' x
      end
  end.

(** Number-to-string conversion (template literal [`${num}`]),
    [Number::toString] in radix 10: the shortest digits that read back as
    the number, followed by zeros, or in exponent notation from 10^21 on. *)
Definition numberToString (x : jsnumber) : jsstring :=
  match x with
  | NaN => js "NaN"
  | NegativeZero => js "0"
  | Infinity negative => (if negative then js "-" else []) ++ js "Infinity"
  | Integer Z0 => js "0"
  | Integer z =>
      let '(s, p) := shortest (List.length (decimal (Z.abs_N z))) (Z.abs_N z) in
      let ds := decimal s in
      let n := (List.length ds + p)%nat in
      (if (z <? 0)%Z then js "-" else []) ++
      (if (n <=? 21)%nat then ds ++ repeat 48%N p
       else match ds with
            | d :: more =>
                d :: match more with [] => [] | _ :: _ => 46%N :: more end
                  ++ js "e+" ++ decimal (N.of_nat (n - 1))
            | [] => []
            end)
  end.

(** Truthiness of a string: non-empty. *)
Definition truthy (s : jsstring) : bool := match s with [] => false | _ => true end.

End JS.
Import JS.

(** ** Regular expressions *)

Module Regex.

(** A set of code units: a literal, a range, [\s], [\d], [.] or a union
    (a bracketed class). *)
Inductive cclass :=
| CChar (c : char)
| CRange (lo hi : char)
| CSpace
| CDigit
| CDot
| CUnion (a b : cclass).
Arguments CChar _%_N.
Arguments CRange _%_N _%_N.

Fixpoint in_set (cl : cclass) (c : char) : bool :=
  match cl with
  | CChar c' => (c' =? c)%N
  | CRange lo hi => ((lo <=? c) && (c <=? hi))%N
  | CSpace => isWhiteSpace c
  | CDigit => isDigit c
  | CDot => negb (isLineTerminator c)
  | CUnion a b => in_set a c || in_set b c
  end.

(** CharacterSetMatcher: with the [i] flag, [c] matches when some member of
    the set has the same canonical form. *)
Definition class_matches (ic : bool) (cl : cclass) (c : char) : bool :=
  if ic then in_set cl c || in_set cl (canonicalize c) || in_set cl (uncanonicalize c)
  else in_set cl c.

(** Patterns.  Quantifiers other than [?] are applied to single-character
    atoms only in this program ([\s*], [\d+], [.+?], [[a-zA-Z]{2,}], ...),
    which is what [RRep] provides; [ROpt] is the greedy [?] on a group. *)
Inductive regex :=
| REps
| RChar (cl : cclass)
| RSeq (a b : regex)
| RAlt (a b : regex)
| RRep (greedy : bool) (lo : nat) (hi : option nat) (cl : cclass)
| ROpt (a : regex)
| RGroup (n : nat) (a : regex)
| RBol
| REol
| RWordB
| RLook (a : regex).

(** Matcher state: the index reached, the code unit before it, the rest of
    the input and the captures (index pairs, most recent first). *)
Record mstate := MState {
  pos : nat;
  prev : option char;
  rest : jsstring;
  caps : list (nat * (nat * nat))
}.

Fixpoint get_cap (n : nat) (cs : list (nat * (nat * nat))) : option (nat * nat) :=
  match cs with
  | [] => None
  | (n', se) :: cs' => if Nat.eqb n n' then Some se else get_cap n cs'
  end.

Definition cap (n : nat) (st : mstate) : option (nat * nat) := get_cap n (caps st).

Definition set_cap (n a b : nat) (st : mstate) : mstate :=
  MState (pos st) (prev st) (rest st) ((n, (a, b)) :: caps st).

Definition advance (x : char) (xs : jsstring) (st : mstate) : mstate :=
  MState (S (pos st)) (Some x) xs (caps st).

Definition cont := mstate -> option mstate.

(** RepeatMatcher on a one-character atom: [lo] iterations are still
    required and at most [hi] allowed; [l] is the rest of the input at
    [st]. *)
Fixpoint rep (ic greedy : bool) (cl : cclass) (lo : nat) (hi : option nat)
    (l : jsstring) (st : mstate) (k : cont) {struct l} : option mstate :=
  let more := fun _ : unit =>
    match hi with
    | Some O => None
    | _ =>
        match l with
        | x :: xs =>
            if class_matches ic cl x
            then rep ic greedy cl (Nat.pred lo) (option_map Nat.pred hi) xs (advance x xs st) k
            else None
        | [] => None
        end
    end in
  match lo with
  | S _ => more tt
  | O =>
      if greedy
      then match more tt with Some r => Some r | None => k st end
      else match k st with Some r => Some r | None => more tt end
  end.

Definition is_word (o : option char) : bool :=
  match o with Some c => isWordChar c | None => false end.

Fixpoint m (ic : bool) (r : regex) (st : mstate) (k : cont) {struct r} : option mstate :=
  match r with
  | REps => k st
  | RChar cl =>
      match rest st with
      | x :: xs => if class_matches ic cl x then k (advance x xs st) else None
      | [] => None
      end
  | RSeq a b => m ic a st (fun st' => m ic b st' k)
  | RAlt a b =>
      match m ic a st k with
      | Some res => Some res
      | None => m ic b st k
      end
  | RRep greedy lo hi cl => rep ic greedy cl lo hi (rest st) st k
  | ROpt a =>
      match m ic a st (fun st' => if Nat.eqb (pos st') (pos st) then None else k st') with
      | Some res => Some res
      | None => k st
      end
  | RGroup n a => m ic a st (fun st' => k (set_cap n (pos st) (pos st') st'))
  | RBol => if Nat.eqb (pos st) 0 then k st else None
  | REol => match rest st with [] => k st | _ :: _ => None end
  | RWordB => if xorb (is_word (prev st)) (is_word (head (rest st))) then k st else None
  | RLook a =>
      match m ic a st Some with
      | Some st' => k (MState (pos st) (prev st) (rest st) (caps st'))
      | None => None
      end
  end.

(** A match attempt at one index. *)
Definition match_at (ic : bool) (r : regex) (p : nat) (pv : option char) (l : jsstring)
  : option mstate :=
  m ic r (MState p pv l []) Some.

(** RegExpBuiltinExec from index [p]: the leftmost index at which the
    pattern matches. *)
Fixpoint scan (ic : bool) (r : regex) (p : nat) (pv : option char) (l : jsstring)
  : option (nat * mstate) :=
  match match_at ic r p pv l with
  | Some st => Some (p, st)
  | None =>
      match l with
      | [] => None
      | x :: xs => scan ic r (S p) (Some x) xs
      end
  end.

(** [String.prototype.match] with a regular expression without the [g]
    flag: the first match, as (start index, end state). *)
Definition string_match (ic : bool) (r : regex) (s : jsstring) : option (nat * mstate) :=
  scan ic r 0 None s.

(** The text of capture [n] of a match on [s] ([undefined] is [None]). *)
Definition group (s : jsstring) (n : nat) (st : mstate) : option jsstring :=
  match cap n st with
  | Some (a, b) => Some (substring s a b)
  | None => None
  end.

(** Replacement templates: literal text and [$n] references. *)
Inductive titem := TLit (s : jsstring) | TRef (n : nat).
Definition template := list titem.

Definition expand_item (s : jsstring) (st : mstate) (t : titem) : jsstring :=
  match t with
  | TLit l => l
  | TRef n => match group s n st with Some g => g | None => [] end
  end.

Definition expand (tpl : template) (s : jsstring) (st : mstate) : jsstring :=
  concat (map (expand_item s st) tpl).

(** [String.prototype.replace] with a [g] pattern, left to right over the
    input [s].  [l] is the input from index [p]; [skip] counts the code
    units of the current match still to be dropped.  After an empty match
    the search resumes one code unit further. *)
Fixpoint replace_go (ic : bool) (r : regex) (tpl : template) (s : jsstring)
    (p : nat) (pv : option char) (l : jsstring) (skip : nat) {struct l} : jsstring :=
  match skip with
  | S skip' =>
      match l with
      | [] => []
      | x :: xs => replace_go ic r tpl s (S p) (Some x) xs skip'
      end
  | O =>
      match match_at ic r p pv l with
      | Some st =>
          expand tpl s st ++
          match l with
          | [] => []
          | x :: xs =>
              if Nat.eqb (pos st) p
              then x :: replace_go ic r tpl s (S p) (Some x) xs 0
              else replace_go ic r tpl s (S p) (Some x) xs (pos st - p - 1)
          end
      | None =>
          match l with
          | [] => []
          | x :: xs => x :: replace_go ic r tpl s (S p) (Some x) xs 0
          end
      end
  end.

Definition replace_all (ic : bool) (r : regex) (tpl : template) (s : jsstring) : jsstring :=
  replace_go ic r tpl s 0 None s 0.

(** All successive matches of a [g] pattern, as the loop
    [while ((match = pattern.exec(text)) !== null)] sees them: each search
    starts where the previous match ended.  (After an empty match [exec]
    would not move; the patterns looped over in this program cannot match
    the empty string: each consumes at least 23 code units.) *)
Fixpoint exec_all_go (ic : bool) (r : regex)
    (p : nat) (pv : option char) (l : jsstring) (skip : nat) {struct l} : list mstate :=
  match skip with
  | S skip' =>
      match l with
      | [] => []
      | x :: xs => exec_all_go ic r (S p) (Some x) xs skip'
      end
  | O =>
      match match_at ic r p pv l with
      | Some st =>
          st ::
          match l with
          | [] => []
          | x :: xs => exec_all_go ic r (S p) (Some x) xs (pos st - p - 1)
          end
      | None =>
          match l with
          | [] => []
          | x :: xs => exec_all_go ic r (S p) (Some x) xs 0
          end
      end
  end.

Definition exec_all (ic : bool) (r : regex) (s : jsstring) : list mstate :=
  exec_all_go ic r 0 None s 0.

(** [String.prototype.split] with a pattern without capture groups.  [cur]
    holds the current block reversed, [b] the index where it began.  A
    match at index [q] that ends at [b] is ignored; a zero-width match
    elsewhere closes the block at [q]. *)
Fixpoint split_go (ic : bool) (r : regex)
    (q : nat) (pv : option char) (l : jsstring) (cur : jsstring) (b : nat) (skip : nat)
    {struct l} : list jsstring :=
  match skip with
  | S skip' =>
      match l with
      | [] => [rev cur]
      | x :: xs => split_go ic r (S q) (Some x) xs cur b skip'
      end
  | O =>
      match l with
      | [] => [rev cur]
      | x :: xs =>
          match match_at ic r q pv l with
          | None => split_go ic r (S q) (Some x) xs (x :: cur) b 0
          | Some st =>
              let e := Nat.min (pos st) (q + List.length l) in
              if Nat.eqb e b then split_go ic r (S q) (Some x) xs (x :: cur) b 0
              else if Nat.eqb e q
                   then rev cur :: split_go ic r (S q) (Some x) xs [x] q 0
                   else rev cur :: split_go ic r (S q) (Some x) xs [] e (e - q - 1)
          end
      end
  end.

Definition split (ic : bool) (r : regex) (s : jsstring) : list jsstring :=
  match s with
  | [] => match match_at ic r 0 None [] with Some _ => [] | None => [[]] end
  | _ => split_go ic r 0 None s [] 0 0
  end.

(** *** Pattern notation *)

Fixpoint seq (rs : list regex) : regex :=
  match rs with
  | [] => REps
  | [r] => r
  | r :: rs' => RSeq r (seq rs')
  end.

Fixpoint alt (rs : list regex) : regex :=
  match rs with
  | [] => REps
  | [r] => r
  | r :: rs' => RAlt r (alt rs')
  end.

(** A literal word. *)
Definition lit (s : string) : regex := seq (map (fun c => RChar (CChar c)) (js s)).
Arguments lit _%_string.

Definition chr (s : string) : cclass :=
  match js s with c :: _ => CChar c | [] => CDot end.
Arguments chr _%_string.

Definition star (cl : cclass) : regex := RRep true 0 None cl.
Definition plus (cl : cclass) : regex := RRep true 1 None cl.
Definition lazy_plus (cl : cclass) : regex := RRep false 1 None cl.
Definition at_least (n : nat) (cl : cclass) : regex := RRep true n None cl.
Definition between (lo hi : nat) (cl : cclass) : regex := RRep true lo (Some hi) cl.
Definition opt_char (cl : cclass) : regex := RRep true 0 (Some 1) cl.

(** [[a-zA-Z]] *)
Definition letter : cclass := CUnion (CRange 97 122) (CRange 65 90).

End Regex.
Import Regex.

(** ** The parser *)

Module PDFParser.

(** *** Correction rules

    Every statement [result = result.replace(/pattern/flags, 'text')] of
    [fixLigatures] and [cleanText] is one [rule]; the rules are applied in
    source order. *)
Record rule := Rule {
  rule_icase : bool;
  rule_pattern : regex;
  rule_subst : template
}.

Definition apply_rule (s : jsstring) (r : rule) : jsstring :=
  replace_all (rule_icase r) (rule_pattern r) (rule_subst r) s.

Definition apply_rules (rs : list rule) (s : jsstring) : jsstring :=
  fold_left apply_rule rs s.

(** [/\uXXXX/g]: one code unit, replaced by a literal. *)
Definition Glyph (c : char) (text : jsstring) : rule :=
  Rule false (RChar (CChar c)) [TLit text].
Arguments Glyph _%_N _.

(** Fragments joined by [\s*]: ["so"; "ft"; "ware"] is [so\s*ft\s*ware]. *)
Fixpoint fragments (fs : list string) : list regex :=
  match fs with
  | [] => []
  | [f] => [lit f]
  | f :: fs' => lit f :: star CSpace :: fragments fs'
  end.

(** [/frag\s*frag\s*.../gi], replaced by a literal word. *)
Definition Word (fs : list string) (text : string) : rule :=
  Rule true (seq (fragments fs)) [TLit (js text)].
Arguments Word _%_string _%_string.

(** [/pattern/gi], replaced by a literal. *)
Definition Phrase (r : regex) (text : string) : rule := Rule true r [TLit (js text)].
Arguments Phrase _ _%_string.

(** [/pattern/g] with a replacement that refers to captures. *)
Definition Rejoin (r : regex) (tpl : template) : rule := Rule false r tpl.

Local Open Scope string_scope.

Definition ligature_rules : list rule := [
  (* Replace Greek theta (commonly misread for 'ti' ligature) *)
  Glyph 0x0398 (js "ti");
  Glyph 0x03B8 (js "ti");
  Glyph 0x019F (js "ti");
  Glyph 0x0275 (js "ti");
  (* Replace Greek sigma (commonly misread for 'tt' ligature) *)
  Glyph 0x03A3 (js "tt");
  Glyph 0x03C3 (js "tt");
  Glyph 0x03C2 (js "tt");
  (* Replace O with tilde (commonly misread for 'ft' ligature) *)
  Glyph 0x00D5 (js "ft");
  Glyph 0x00F5 (js "ft");
  (* Replace other common misread characters *)
  Glyph 0x0192 (js "f");
  Glyph 0x00B5 (js "u");
  (* Fix common 'ft' words before ligature replacement *)
  Word ["so"; "ft"; "ware"] "software";
  Phrase (seq [lit "so"; star CSpace; RChar (CChar 0xD5); star CSpace; lit "ware"]) "software";
  Word ["hard"; "ware"] "hardware";
  Word ["a"; "ft"; "er"] "after";
  Word ["le"; "ft"] "left";
  Word ["shi"; "ft"] "shift";
  Word ["dra"; "ft"] "draft";
  Word ["cra"; "ft"] "craft";
  Word ["swi"; "ft"] "swift";
  Word ["li"; "ft"] "lift";
  Word ["gi"; "ft"] "gift";
  (* Standard ligatures *)
  Glyph 0xFB01 (js "fi");
  Glyph 0xFB02 (js "fl");
  Glyph 0xFB03 (js "ffi");
  Glyph 0xFB04 (js "ffl");
  Glyph 0xFB05 (js "st");
  Glyph 0xFB06 (js "st");
  (* Curly quotes to straight quotes *)
  Glyph 0x2018 (js "'");
  Glyph 0x2019 (js "'");
  Glyph 0x201C [34%N];
  Glyph 0x201D [34%N];
  (* Dashes and special chars *)
  Glyph 0x2013 (js "-");
  Glyph 0x2014 (js "-");
  Glyph 0x2026 (js "...");
  (* Various space characters *)
  Glyph 0x00A0 (js " ");
  Glyph 0x2003 (js " ");
  Glyph 0x2002 (js " ");
  Glyph 0x2009 (js " ");
  Glyph 0x200B (js "");
  Glyph 0x00AD (js "");
  Glyph 0xFEFF (js "");
  (* Fix words with 'tt' (from Sigma replacement) *)
  (* Note: Sigma ? was already replaced with 'tt' above *)
  Word ["a"; "tt"; "ributes"] "attributes";
  Word ["a"; "tt"; "ribute"] "attribute";
  Word ["a"; "tt"; "ribut"] "attribut";
  Word ["a"; "tt"; "ack"] "attack";
  Word ["a"; "tt"; "acker"] "attacker";
  Word ["a"; "tt"; "ach"] "attach";
  Word ["a"; "tt"; "ached"] "attached";
  Word ["a"; "tt"; "achment"] "attachment";
  Word ["a"; "tt"; "empt"] "attempt";
  Word ["a"; "tt"; "en"] "atten";
  Word ["be"; "tt"; "er"] "better";
  Word ["bu"; "tt"; "on"] "button";
  Word ["le"; "tt"; "er"] "letter";
  Word ["pa"; "tt"; "ern"] "pattern";
  Word ["ma"; "tt"; "er"] "matter";
  Word ["se"; "tt"; "ing"] "setting";
  Word ["ge"; "tt"; "ing"] "getting";
  Word ["pu"; "tt"; "ing"] "putting";
  Word ["wri"; "tt"; "en"] "written";
  Word ["permi"; "tt"; "ed"] "permitted";
  Word ["transmi"; "tt"; "ed"] "transmitted";
  Word ["emi"; "tt"; "ed"] "emitted";
  Word ["submi"; "tt"; "ed"] "submitted";
  Word ["commi"; "tt"; "ed"] "committed";
  Word ["forma"; "tt"; "ed"] "formatted";
  Word ["forma"; "tt"; "ing"] "formatting";
  Word ["bo"; "tt"; "om"] "bottom";
  Word ["bo"; "tt"; "le"] "bottle";
  Word ["sca"; "tt"; "er"] "scatter";
  Word ["bi"; "tt"; "er"] "bitter";
  Word ["li"; "tt"; "le"] "little";
  Word ["ba"; "tt"; "le"] "battle";
  Word ["ne"; "tt"; "work"] "nettwork";
  Word ["co"; "tt"; "on"] "cotton";
  Word ["ki"; "tt"; "en"] "kitten";
  Word ["bi"; "tt"; "en"] "bitten";
  Word ["hi"; "tt"; "ing"] "hitting";
  Word ["si"; "tt"; "ing"] "sitting";
  Word ["cu"; "tt"; "ing"] "cutting";
  Word ["spi"; "tt"; "ing"] "spitting";
  Word ["spli"; "tt"; "ing"] "splitting";
  Word ["omi"; "tt"; "ing"] "omitting";
  Word ["admi"; "tt"; "ing"] "admitting";
  Word ["permi"; "tt"; "ing"] "permitting";
  (* Fix common broken words (ligature artifacts create spaces) *)
  (* Words with 'ti' *)
  Word ["inser"; "ti"; "on"] "insertion";
  Word ["dele"; "ti"; "on"] "deletion";
  Word ["alloca"; "ti"; "on"] "allocation";
  Word ["selec"; "ti"; "on"] "selection";
  Word ["collec"; "ti"; "on"] "collection";
  Word ["connec"; "ti"; "on"] "connection";
  Word ["protec"; "ti"; "on"] "protection";
  Word ["detec"; "ti"; "on"] "detection";
  Word ["direc"; "ti"; "on"] "direction";
  Word ["correc"; "ti"; "on"] "correction";
  Word ["restric"; "ti"; "on"] "restriction";
  Word ["abstrac"; "ti"; "on"] "abstraction";
  Word ["transac"; "ti"; "on"] "transaction";
  Word ["interac"; "ti"; "on"] "interaction";
  Word ["subtrac"; "ti"; "on"] "subtraction";
  Word ["extrac"; "ti"; "on"] "extraction";
  Word ["produc"; "ti"; "on"] "production";
  Word ["reduc"; "ti"; "on"] "reduction";
  Word ["induc"; "ti"; "on"] "induction";
  Word ["deduc"; "ti"; "on"] "deduction";
  Word ["introduc"; "ti"; "on"] "introduction";
  Word ["loca"; "ti"; "ng"] "locating";
  Word ["correc"; "ti"; "ng"] "correcting";
  Word ["tes"; "ti"; "ng"] "testing";
  Word ["valida"; "ti"; "on"] "validation";
  Word ["execu"; "ti"; "on"] "execution";
  Word ["func"; "ti"; "on"] "function";
  Word ["op"; "ti"; "on"] "option";
  Word ["sec"; "ti"; "on"] "section";
  Word ["ac"; "ti"; "on"] "action";
  Word ["condi"; "ti"; "on"] "condition";
  Word ["itera"; "ti"; "on"] "iteration";
  Word ["opera"; "ti"; "on"] "operation";
  Word ["applica"; "ti"; "on"] "application";
  Word ["declara"; "ti"; "on"] "declaration";
  Word ["defini"; "ti"; "on"] "definition";
  Word ["instruc"; "ti"; "on"] "instruction";
  Word ["no"; "ti"; "fica"; "ti"; "on"] "notification";
  Word ["authen"; "ti"; "ca"; "ti"; "on"] "authentication";
  Word ["iden"; "ti"; "fica"; "ti"; "on"] "identification";
  Word ["ini"; "ti"; "aliza"; "ti"; "on"] "initialization";
  Word ["iden"; "ti"; "fy"] "identify";
  Word ["iden"; "ti"; "fied"] "identified";
  Word ["iden"; "ti"; "fier"] "identifier";
  Word ["iden"; "ti"; "fies"] "identifies";
  Word ["iden"; "ti"; "ty"] "identity";
  Word ["quan"; "ti"; "ty"] "quantity";
  Word ["en"; "ti"; "ty"] "entity";
  Word ["en"; "ti"; "ties"] "entities";
  Word ["uniqu"] "uniqu";
  Word ["uni"; "que"; "ly"] "uniquely";
  Word ["prac"; "ti"; "ce"] "practice";
  Word ["prac"; "ti"; "cal"] "practical";
  Word ["par"; "ti"; "al"] "partial";
  Word ["ini"; "ti"; "al"] "initial";
  Word ["essen"; "ti"; "al"] "essential";
  Word ["poten"; "ti"; "al"] "potential";
  Word ["sequen"; "ti"; "al"] "sequential";
  Word ["mul"; "ti"; "ple"] "multiple";
  Word ["posi"; "ti"; "ve"] "positive";
  Word ["nega"; "ti"; "ve"] "negative";
  Word ["rela"; "ti"; "ve"] "relative";
  Word ["primi"; "ti"; "ve"] "primitive";
  Word ["execu"; "ti"; "ve"] "executive";
  Word ["itera"; "ti"; "ve"] "iterative";
  Word ["transi"; "ti"; "ve"] "transitive";
  Word ["sensi"; "ti"; "ve"] "sensitive";
  Word ["effec"; "ti"; "ve"] "effective";
  Word ["selec"; "ti"; "ve"] "selective";
  Word ["objec"; "ti"; "ve"] "objective";
  Word ["subjec"; "ti"; "ve"] "subjective";
  Word ["addic"; "ti"; "ve"] "addictive";
  Word ["predic"; "ti"; "ve"] "predictive";
  Word ["restric"; "ti"; "ve"] "restrictive";
  Word ["descrip"; "ti"; "ve"] "descriptive";
  Word ["produc"; "ti"; "ve"] "productive";
  Word ["destruc"; "ti"; "ve"] "destructive";
  Word ["instruc"; "ti"; "ve"] "instructive";
  Word ["construc"; "ti"; "ve"] "constructive";
  Word ["alterna"; "ti"; "ve"] "alternative";
  Word ["quan"; "ti"; "ta"; "ti"; "ve"] "quantitative";
  Word ["quali"; "ta"; "ti"; "ve"] "qualitative";
  Word ["coopera"; "ti"; "ve"] "cooperative";
  Word ["repre"; "sen"; "ta"; "ti"; "ve"] "representative";
  Word ["automa"; "ti"; "c"] "automatic";
  Word ["pragma"; "ti"; "c"] "pragmatic";
  Word ["sta"; "ti"; "c"] "static";
  Word ["compe"; "ti"; "ti"; "ve"] "competitive";
  Word ["sor"; "ti"; "ng"] "sorting";
  Word ["prin"; "ti"; "ng"] "printing";
  Word ["wri"; "ti"; "ng"] "writing";
  Word ["edi"; "ti"; "ng"] "editing";
  Word ["compu"; "ti"; "ng"] "computing";
  Word ["coun"; "ti"; "ng"] "counting";
  Word ["poin"; "ti"; "ng"] "pointing";
  Word ["selec"; "ti"; "ng"] "selecting";
  Word ["crea"; "ti"; "ng"] "creating";
  Word ["dele"; "ti"; "ng"] "deleting";
  Word ["upda"; "ti"; "ng"] "updating";
  Word ["forma"; "tti"; "ng"] "formatting";
  Word ["connec"; "ti"; "ng"] "connecting";
  Word ["conver"; "ti"; "ng"] "converting";
  Word ["represen"; "ti"; "ng"] "representing";
  Word ["itera"; "ti"; "ng"] "iterating";
  Word ["opera"; "ti"; "ng"] "operating";
  Word ["genera"; "ti"; "ng"] "generating";
  Word ["naviga"; "ti"; "ng"] "navigating";
  Word ["calcula"; "ti"; "ng"] "calculating";
  Word ["simula"; "ti"; "ng"] "simulating";
  Word ["evalua"; "ti"; "ng"] "evaluating";
  Word ["valida"; "ti"; "ng"] "validating";
  Word ["communica"; "ti"; "ng"] "communicating";
  Word ["demonstra"; "ti"; "ng"] "demonstrating";
  Word ["termina"; "ti"; "ng"] "terminating";
  Word ["origina"; "ti"; "ng"] "originating";
  Word ["redirec"; "ti"; "ng"] "redirecting";
  Word ["predic"; "ti"; "ng"] "predicting";
  Word ["restar"; "ti"; "ng"] "restarting";
  Word ["star"; "ti"; "ng"] "starting";
  Word ["expor"; "ti"; "ng"] "exporting";
  Word ["impor"; "ti"; "ng"] "importing";
  Word ["suppor"; "ti"; "ng"] "supporting";
  Word ["repor"; "ti"; "ng"] "reporting";
  Word ["asser"; "ti"; "ng"] "asserting";
  Word ["inser"; "ti"; "ng"] "inserting";
  Word ["conver"; "ti"; "ng"] "converting";
  Word ["inver"; "ti"; "ng"] "inverting";
  Word ["rever"; "ti"; "ng"] "reverting";
  Word ["diver"; "ti"; "ng"] "diverting";
  Word ["adver"; "ti"; "sing"] "advertising";
  Word ["par"; "ti"; "ti"; "oning"] "partitioning";
  Word ["alterna"; "ti"; "ng"] "alternating";
  Word ["repor"; "ti"; "ng"] "reporting";
  Word ["implemen"; "ti"; "ng"] "implementing";
  Word ["documen"; "ti"; "ng"] "documenting";
  (* Words with 'fi' *)
  Word ["de"; "fi"; "ne"] "define";
  Word ["de"; "fi"; "ned"] "defined";
  Word ["de"; "fi"; "ni"; "ti"; "on"] "definition";
  Word ["fi"; "le"] "file";
  Word ["fi"; "les"] "files";
  Word ["fi"; "nd"] "find";
  Word ["fi"; "rst"] "first";
  Word ["speci"; "fi"; "c"] "specific";
  Word ["speci"; "fi"; "ca"; "ti"; "on"] "specification";
  Word ["modi"; "fi"; "er"] "modifier";
  Word ["modi"; "fi"; "ca"; "ti"; "on"] "modification";
  Word ["identi"; "fi"; "er"] "identifier";
  Word ["classi"; "fi"; "ca"; "ti"; "on"] "classification";
  Word ["encryp"; "ti"; "on"] "encryption";
  Word ["decryp"; "ti"; "on"] "decryption";
  (* Words with 'fl' *)
  Phrase (seq [RWordB; lit "fl"; plus CSpace; lit "ow"; RWordB]) "flow";
  Phrase (seq [RWordB; lit "fl"; plus CSpace; lit "oat"; RWordB]) "float";
  Phrase (seq [RWordB; lit "fl"; plus CSpace; lit "ag"; RWordB]) "flag";
  (* Additional specific words *)
  Word ["exis"; "ti"; "ng"] "existing";
  Word ["run"; "ti"; "me"] "runtime";
  Word ["life"; "ti"; "me"] "lifetime";
  Word ["some"; "ti"; "me"] "sometime";
  Word ["mean"; "ti"; "me"] "meantime";
  Word ["over"; "ti"; "me"] "overtime";
  Word ["par"; "ti"; "ti"; "on"] "partition";
  Word ["repe"; "ti"; "ti"; "on"] "repetition";
  Word ["compe"; "ti"; "ti"; "on"] "competition";
  Word ["addi"; "ti"; "on"] "addition";
  Word ["edi"; "ti"; "on"] "edition";
  Word ["posi"; "ti"; "on"] "position";
  Word ["transi"; "ti"; "on"] "transition";
  Word ["acquisi"; "ti"; "on"] "acquisition";
  Word ["propor"; "ti"; "on"] "proportion";
  Word ["solu"; "ti"; "on"] "solution";
  Word ["resolu"; "ti"; "on"] "resolution";
  Word ["evolu"; "ti"; "on"] "evolution";
  Word ["revolu"; "ti"; "on"] "revolution";
  Word ["distribu"; "ti"; "on"] "distribution";
  Word ["contribu"; "ti"; "on"] "contribution";
  Word ["substitu"; "ti"; "on"] "substitution";
  Word ["constitu"; "ti"; "on"] "constitution";
  Word ["institu"; "ti"; "on"] "institution";
  Word ["prosecu"; "ti"; "on"] "prosecution";
  Word ["descrip"; "ti"; "on"] "description";
  Word ["prescrip"; "ti"; "on"] "prescription";
  Word ["subscrip"; "ti"; "on"] "subscription";
  Word ["op"; "ti"; "miza"; "ti"; "on"] "optimization";
  Word ["realiza"; "ti"; "on"] "realization";
  Word ["organiza"; "ti"; "on"] "organization";
  Word ["authoriza"; "ti"; "on"] "authorization";
  Word ["visualiza"; "ti"; "on"] "visualization";
  Word ["normaliza"; "ti"; "on"] "normalization";
  Word ["synchroniza"; "ti"; "on"] "synchronization";
  Word ["serializa"; "ti"; "on"] "serialization";
  Word ["virtualiza"; "ti"; "on"] "virtualization";
  Word ["localiza"; "ti"; "on"] "localization";
  Word ["globaliza"; "ti"; "on"] "globalization";
  Word ["customiza"; "ti"; "on"] "customization";
  Word ["veri"; "fi"; "ca"; "ti"; "on"] "verification";
  Word ["no"; "ti"; "ce"] "notice";
  Word ["prac"; "ti"; "se"] "practise";
  Word ["ar"; "ti"; "cle"] "article";
  Word ["par"; "ti"; "cle"] "particle";
  Word ["ver"; "ti"; "cal"] "vertical";
  Word ["ar"; "ti"; "fi"; "cial"] "artificial";
  Word ["iden"; "ti"; "cal"] "identical";
  Word ["cri"; "ti"; "cal"] "critical";
  Word ["analy"; "ti"; "cal"] "analytical";
  Word ["poli"; "ti"; "cal"] "political";
  Word ["theore"; "ti"; "cal"] "theoretical";
  Word ["alphabe"; "ti"; "cal"] "alphabetical";
  Word ["gramma"; "ti"; "cal"] "grammatical";
  Word ["mathema"; "ti"; "cal"] "mathematical";
  Word ["statis"; "ti"; "cal"] "statistical";
  Word ["systema"; "ti"; "c"] "systematic";
  Word ["problema"; "ti"; "c"] "problematic";
  Word ["schema"; "ti"; "c"] "schematic";
  Word ["diagramma"; "ti"; "c"] "diagrammatic";
  Word ["chroma"; "ti"; "c"] "chromatic";
  Word ["aroma"; "ti"; "c"] "aromatic";
  Word ["diploma"; "ti"; "c"] "diplomatic";
  Word ["characteris"; "ti"; "c"] "characteristic";
  Word ["heuris"; "ti"; "c"] "heuristic";
  Word ["determinis"; "ti"; "c"] "deterministic";
  Word ["probabilis"; "ti"; "c"] "probabilistic";
  Word ["linguis"; "ti"; "c"] "linguistic";
  Word ["realis"; "ti"; "c"] "realistic";
  Word ["op"; "ti"; "mis"; "ti"; "c"] "optimistic";
  Word ["pessimis"; "ti"; "c"] "pessimistic";
  Word ["stochas"; "ti"; "c"] "stochastic";
  (* More specific words *)
  Word ["rec"; "ti"; "fi"] "rectifi";
  Word ["cer"; "ti"; "fi"] "certifi";
  Word ["jus"; "ti"; "fi"] "justifi";
  Word ["ra"; "ti"; "o"] "ratio";
  Word ["pa"; "ti"; "ent"] "patient";
  Word ["quo"; "ti"; "ent"] "quotient";
  Word ["ingredi"; "ent"] "ingredient";
  Word ["parti"; "cular"] "particular";
  Word ["ar"; "ti"; "fact"] "artifact";
  Word ["mul"; "ti"; "pli"] "multipli";
  Word ["op"; "ti"; "m"] "optim";
  Word ["ac"; "ti"; "v"] "activ";
  Word ["reac"; "ti"; "v"] "reactiv";
  Word ["proac"; "ti"; "v"] "proactiv";
  Word ["interac"; "ti"; "v"] "interactiv";
  Word ["cap"; "ti"; "v"] "captiv";
  Word ["na"; "ti"; "v"] "nativ";
  Word ["mo"; "ti"; "v"] "motiv";
  Word ["ini"; "ti"; "at"] "initiat";
  Word ["ne"; "go"; "ti"; "at"] "negotiat";
  Word ["differen"; "ti"; "at"] "differentiat";
  Word ["authen"; "ti"; "cat"] "authenticat";
  Word ["domes"; "ti"; "c"] "domestic";
  Word ["elas"; "ti"; "c"] "elastic";
  Word ["fantas"; "ti"; "c"] "fantastic";
  Word ["dras"; "ti"; "c"] "drastic";
  Word ["plas"; "ti"; "c"] "plastic";
  Word ["tac"; "ti"; "c"] "tactic";
  Word ["synthe"; "ti"; "c"] "synthetic";
  Word ["gene"; "ti"; "c"] "genetic";
  Word ["magne"; "ti"; "c"] "magnetic";
  Word ["aesthe"; "ti"; "c"] "aesthetic";
  Word ["seman"; "ti"; "c"] "semantic";
  Word ["authen"; "ti"; "c"] "authentic";
  Word ["iden"; "ti"; "c"] "identic";
  (* FINAL CATCH-ALL: Fix any remaining orphaned ti/tt in middle of words *)
  (* Pattern: wordpart + space + ti/tt + space + wordpart *)
  (* Only matches when ti/tt is clearly orphaned between word parts *)
  (* Fix orphaned 'ti' between word parts (e.g., 'recti fier' -> 'rectifier') *)
  Rejoin (seq [RGroup 1 (at_least 2 letter); plus CSpace; lit "ti"; plus CSpace; RGroup 2 (at_least 2 letter)]) [TRef 1; TLit (js "ti"); TRef 2];
  (* Fix orphaned 'tt' between word parts (e.g., 'a tt ack' remaining) *)
  Rejoin (seq [RGroup 1 (at_least 1 letter); plus CSpace; lit "tt"; plus CSpace; RGroup 2 (at_least 2 letter)]) [TRef 1; TLit (js "tt"); TRef 2];
  (* Fix 'ti' at start of suffix with space (e.g., 'recti fier') *)
  Rejoin (seq [RGroup 1 (at_least 3 letter); lit "ti"; plus CSpace; RGroup 2 (at_least 2 letter)]) [TRef 1; TLit (js "ti"); TRef 2];
  (* Fix 'ti' at end of prefix with space (e.g., 'rec tifier') *)
  Rejoin (seq [RGroup 1 (at_least 2 letter); plus CSpace; lit "ti"; RGroup 2 (at_least 2 letter)]) [TRef 1; TLit (js "ti"); TRef 2];
  (* Fix 'tt' at start of suffix with space *)
  Rejoin (seq [RGroup 1 (at_least 1 letter); lit "tt"; plus CSpace; RGroup 2 (at_least 2 letter)]) [TRef 1; TLit (js "tt"); TRef 2];
  (* Fix 'tt' at end of prefix with space *)
  Rejoin (seq [RGroup 1 (at_least 1 letter); plus CSpace; lit "tt"; RGroup 2 (at_least 2 letter)]) [TRef 1; TLit (js "tt"); TRef 2]
].

(** [fixLigatures(text)] *)
Definition fixLigatures (text : jsstring) : jsstring :=
  if truthy text then apply_rules ligature_rules text else [].

(** The watermark and page-marker rules of [cleanText]. *)
Definition watermark_rules : list rule := [
  Phrase (seq [lit "The"; star CSpace; lit "Mann"; star CSpace; lit "Maker"; star CSpace;
               lit "|"; star CSpace; lit "RANJAN"; star CSpace; lit "KALINDI"; star CSpace;
               star CDigit]) "";
  Phrase (seq [lit "RANJAN"; star CSpace; lit "KALINDI"; star CSpace; star CDigit]) "";
  Phrase (seq [lit "The"; star CSpace; lit "Mann"; star CSpace; lit "Maker"]) "";
  Phrase (seq [lit "Page"; star CSpace; plus CDigit; star CSpace; lit "of"; star CSpace;
               plus CDigit]) "";
  Phrase (seq [lit "www."; plus (CUnion letter (CUnion (CRange 48 57) (CUnion (chr ".") (chr "-"))));
               lit "."; RGroup 1 (alt [lit "com"; lit "org"; lit "net"; lit "in"])]) ""
].

Local Close Scope string_scope.

(** [/\s+/g] to one space. *)
Definition collapse_rule : rule := Rule false (plus CSpace) [TLit (js " ")].

(** [/\r\n/g] to a line feed. *)
Definition crlf_rule : rule := Rule false (RSeq (RChar (CChar 13)) (RChar (CChar 10))) [TLit [10%N]].

(** [/^\s+|\s+$/g] to nothing. *)
Definition edges_rule : rule :=
  Rule false (RAlt (RSeq RBol (plus CSpace)) (RSeq (plus CSpace) REol)) [TLit []].

(** [cleanText(text)] *)
Definition cleanText (text : jsstring) : jsstring :=
  if truthy text then
    let result := fixLigatures text in
    let result := apply_rules watermark_rules result in
    trim (apply_rule (apply_rule result collapse_rule) edges_rule)
  else [].

(** The first statement of [parseQuestions]: ligature repair, whitespace
    collapse, line-ending rule and trim.  This is the normalisation of a
    document's text. *)
Definition normalize (text : jsstring) : jsstring :=
  trim (apply_rule (apply_rule (fixLigatures text) collapse_rule) crlf_rule).

(** *** Question records *)

Record Options := { A : jsstring; B : jsstring; C : jsstring; D : jsstring }.

Record Question := {
  id : jsstring;
  number : jsnumber;
  question : jsstring;
  options : Options;
  answer : jsstring;
  source : jsstring
}.

(** *** The grammars *)

(** [[.\)]] *)
Definition dot_or_paren : cclass := CUnion (chr ".") (chr ")").

(** [(?:Answer|Ans|ANS|Correct)] *)
Definition answer_word : regex := alt [lit "Answer"; lit "Ans"; lit "ANS"; lit "Correct"].

(** [[A-Da-d]] *)
Definition answer_letter : cclass := CUnion (CRange 65 68) (CRange 97 100).

(** The optional prefix [(?:Q\.?\s* )?] (a space added before the closing
    parenthesis). *)
Definition q_prefix : regex := ROpt (seq [lit "Q"; opt_char (chr "."); star CSpace]).

(** [\s+X[.\)]\s*] *)
Definition lettered (x : string) : list regex :=
  [plus CSpace; lit x; RChar dot_or_paren; star CSpace].

(** [\s+\(X\)\s*] *)
Definition parenthesized (x : string) : list regex :=
  [plus CSpace; lit "("; lit x; lit ")"; star CSpace].

(** [(.+?)] as capture [n] *)
Definition field (n : nat) : regex := RGroup n (lazy_plus CDot).

(** [\s*(?:Answer|Ans|ANS|Correct)[:\s]*([A-Da-d])] with the letter as
    capture [n] *)
Definition answer_key (n : nat) : list regex :=
  [star CSpace; answer_word; star (CUnion (chr ":") CSpace); RGroup n (RChar answer_letter)].

(** The two patterns of [parseQuestions], both with flags [gi]:
    "(?:Q\.?\s* )?(\d+)[.\)]\s*(.+?)\s+A[.\)]\s*(.+?)\s+B[.\)]\s*(.+?)\s+C[.\)]\s*(.+?)\s+D[.\)]\s*(.+?)\s*(?:Answer|Ans|ANS|Correct)[:\s]*([A-Da-d])"
    and
    "(\d+)[.\)]\s*(.+?)\s+\(A\)\s*(.+?)\s+\(B\)\s*(.+?)\s+\(C\)\s*(.+?)\s+\(D\)\s*(.+?)\s*(?:Answer|Ans|ANS|Correct)[:\s]*([A-Da-d])". *)
Definition pattern_items (marker : string -> list regex) : list regex :=
  [RGroup 1 (plus CDigit); RChar dot_or_paren; star CSpace; field 2] ++
  marker "A"%string ++ [field 3] ++ marker "B"%string ++ [field 4] ++
  marker "C"%string ++ [field 5] ++ marker "D"%string ++ [field 6] ++ answer_key 7.

Definition patterns : list regex :=
  [seq (q_prefix :: pattern_items lettered); seq (pattern_items parenthesized)].

(** The two [optionPatterns] of [parseQuestionsFlexible], both with flag [i]:
    "^(.+?)\s+A[.\)]\s*(.+?)\s+B[.\)]\s*(.+?)\s+C[.\)]\s*(.+?)\s+D[.\)]\s*(.+?)(?:\s*(?:Answer|Ans|ANS|Correct)[:\s]*([A-Da-d]))?"
    and the same with "\(A\)" ... "\(D\)". *)
Definition option_head (marker : string -> list regex) : list regex :=
  [RBol; field 1] ++ marker "A"%string ++ [field 2] ++ marker "B"%string ++ [field 3] ++
  marker "C"%string ++ [field 4].

Definition option_tail : list regex := [field 5; ROpt (seq (answer_key 6))].

Definition option_items (marker : string -> list regex) : list regex :=
  option_head marker ++ marker "D"%string ++ option_tail.

Definition optionPatterns : list regex :=
  [seq (option_items lettered); seq (option_items parenthesized)].

(** [/(?=(?:Q\.?\s* )?\d{1,3}[.\)])/], the block boundary (no flags). *)
Definition boundary : regex :=
  RLook (seq [q_prefix; between 1 3 CDigit; RChar dot_or_paren]).

(** [/^(?:Q\.?\s* )?(\d{1,3})[.\)]/], the leading number (no flags). *)
Definition number_prefix : regex :=
  seq [RBol; q_prefix; RGroup 1 (between 1 3 CDigit); RChar dot_or_paren].

(** *** parseQuestionsFlexible *)

Definition or_empty (o : option jsstring) : jsstring :=
  match o with Some s => s | None => [] end.

(** The body of [if (optMatch)]: the record built from a match of an option
    pattern on [remaining], pushed when the trimmed question capture is
    longer than 10. *)
Definition flexible_record (sourcePdf : jsstring) (num : jsnumber) (remaining : jsstring)
    (optMatch : mstate) : list Question :=
  let questionText :=
    match group remaining 1 optMatch with
    | Some g => if truthy g then trim g else []
    | None => []
    end in
  if (10 <? List.length questionText)%nat then
    [ {| id := sourcePdf ++ js "-" ++ numberToString num;
         number := num;
         question := cleanText questionText;
         options := {| A := cleanText (or_empty (group remaining 2 optMatch));
                       B := cleanText (or_empty (group remaining 3 optMatch));
                       C := cleanText (or_empty (group remaining 4 optMatch));
                       D := cleanText (or_empty (group remaining 5 optMatch)) |};
         answer := match group remaining 6 optMatch with
                   | Some g => if truthy g then toUpperCase g else js "A"
                   | None => js "A"
                   end;
         source := sourcePdf |} ]
  else [].

(** [for (const optPattern of optionPatterns)]: the first pattern that
    matches decides ([break]). *)
Fixpoint first_option_match (ps : list regex) (remaining : jsstring) : option mstate :=
  match ps with
  | [] => None
  | p :: ps' =>
      match string_match true p remaining with
      | Some (_, optMatch) => Some optMatch
      | None => first_option_match ps' remaining
      end
  end.

(** One iteration of [for (const block of questionBlocks)].  The statements
    inside its [try] work on strings and on match results that were tested
    first, so none of them throws; the [catch] is never entered. *)
Definition flexible_block (sourcePdf : jsstring) (block : jsstring) : list Question :=
  if (List.length (trim block) <? 20)%nat then []
  else
    match string_match false number_prefix block with
    | None => []
    | Some (start, numMatch) =>
        let num := parseInt (or_empty (group block 1 numMatch)) in
        let remaining := trim (skipn (pos numMatch - start) block) in
        match first_option_match optionPatterns remaining with
        | Some optMatch => flexible_record sourcePdf num remaining optMatch
        | None => []
        end
    end.

Definition parseQuestionsFlexible (text sourcePdf : jsstring) : list Question :=
  flat_map (flexible_block sourcePdf) (split false boundary text).

(** *** parseQuestions *)

(** The body of [while ((match = pattern.exec(tempText)) !== null)]: a
    record is pushed when all six text captures are non-empty.  (Capture 1
    is outside every optional part, so it takes part in every match.) *)
Definition structured_record (sourcePdf : jsstring) (tempText : jsstring) (mt : mstate)
  : list Question :=
  match group tempText 1 mt, group tempText 2 mt, group tempText 3 mt, group tempText 4 mt,
        group tempText 5 mt, group tempText 6 mt, group tempText 7 mt with
  | Some num, Some questionText, Some optA, Some optB, Some optC, Some optD, Some ans =>
      if truthy questionText && truthy optA && truthy optB && truthy optC && truthy optD
         && truthy ans
      then [ {| id := sourcePdf ++ js "-" ++ num;
                number := parseInt num;
                question := cleanText questionText;
                options := {| A := cleanText optA; B := cleanText optB;
                              C := cleanText optC; D := cleanText optD |};
                answer := toUpperCase ans;
                source := sourcePdf |} ]
      else []
  | _, _, _, _, _, _, _ => []
  end.

(** The candidates of the two structured grammars, in pattern order. *)
Definition structured (cleaned sourcePdf : jsstring) : list Question :=
  flat_map (fun pattern =>
              flat_map (structured_record sourcePdf cleaned) (exec_all true pattern cleaned))
           patterns.

Definition parseQuestions (text sourcePdf : jsstring) : list Question :=
  let cleaned := normalize text in
  let questions := structured cleaned sourcePdf in
  if (List.length questions <? 5)%nat then parseQuestionsFlexible cleaned sourcePdf
  else questions.

(** *** loadPDFs *)

(** A file as the loader sees it: its name and what the text-extraction
    library delivers for it, the text items of every page in page order, or
    [None] when reading the file or the library call throws. *)
Record File := {
  name : jsstring;
  document : option (list (list jsstring))
}.

(** [Array.prototype.join] *)
Fixpoint join (sep : jsstring) (items : list jsstring) : jsstring :=
  match items with
  | [] => []
  | [x] => x
  | x :: rest => x ++ sep ++ join sep rest
  end.

(** [extractTextFromPDF(file)]; [None] is a thrown exception. *)
Definition extractTextFromPDF (file : File) : option jsstring :=
  match document file with
  | None => None
  | Some pages =>
      Some (fold_left (fun fullText items => fullText ++ join (js " ") items ++ [10%N])
                      pages [])
  end.

(** [extractQuestionsFromPDF(file)] *)
Definition extractQuestionsFromPDF (file : File) : option (list Question) :=
  match extractTextFromPDF file with
  | None => None
  | Some text => Some (parseQuestions text (name file))
  end.

(** The parser object while loading: [this.questions] and what has been
    written to the error console (the names of the files that failed). *)
Record Loader := {
  questions : list Question;
  console : list jsstring
}.

(** One iteration of [for (const file of pdfFiles)] with its [try] /
    [catch]. *)
Definition load_file (st : Loader) (file : File) : Loader :=
  match extractQuestionsFromPDF file with
  | Some qs => {| questions := questions st ++ qs; console := console st |}
  | None => {| questions := questions st; console := console st ++ [name file] |}
  end.

(** [loadPDFs(pdfFiles)]: [this.questions] is reset and then filled. *)
Definition loadPDFs (pdfFiles : list File) : Loader :=
  fold_left load_file pdfFiles {| questions := []; console := [] |}.

(** *** getRandomQuestions *)

(** [[array[i], array[j]] = [array[j], array[i]]].  Both indices are inside
    the array whenever [Math.random()] is in [0, 1); otherwise the model
    leaves the array as it is. *)
Definition swap {X} (array : list X) (i j : nat) : list X :=
  match array !! j, array !! i with
  | Some aj, Some ai => <[j := ai]> (<[i := aj]> array)
  | _, _ => array
  end.

(** The loop of [shuffleArray], for [i] down to 1.  [random t] is the value
    of the [t]-th call of [Math.random()]. *)
Fixpoint shuffle_loop {X} (random : nat -> Q) (t : nat) (i : nat) (array : list X)
  : list X :=
  match i with
  | O => array
  | Datatypes.S i' =>
      let j := Z.to_nat (Qfloor (random t * inject_Z (Z.of_nat (i + 1)))) in
      shuffle_loop random (Datatypes.S t) i' (swap array i j)
  end.

Definition shuffleArray {X} (random : nat -> Q) (array : list X) : list X :=
  shuffle_loop random 0 (List.length array - 1) array.

(** [Array.prototype.includes] on strings. *)
Definition includes (ids : list jsstring) (x : jsstring) : bool :=
  existsb (jsstring_eqb x) ids.

(** [array.slice(0, count)] for an integer [count]: a negative [count] is
    taken from the end. *)
Definition slice0 {X} (array : list X) (count : Z) : list X :=
  let len := Z.of_nat (List.length array) in
  let final := if (count <? 0)%Z then Z.max (len + count) 0 else Z.min count len in
  firstn (Z.to_nat final) array.

(** [getRandomQuestions(count, excludeIds)] on the pool [this.questions]. *)
Definition getRandomQuestions (random : nat -> Q) (pool : list Question)
    (count : Z) (excludeIds : list jsstring) : list Question :=
  let available := List.filter (fun q => negb (includes excludeIds (id q))) pool in
  let shuffled := shuffleArray random available in
  slice0 shuffled count.

End PDFParser.
Import PDFParser.


(** * The quiz (app.js, class QuizApp)

    The quiz state of [QuizApp] and the methods that change it.  What the
    methods write to the page, the timers and the score tracker are left
    out: the quiz state is never computed from them.  [pdfParser] is
    [this.pdfParser.questions], [activeScreen] the argument of the last
    [showScreen]. *)
Module QuizApp.

Definition QUESTIONS_PER_ROUND : nat := 20.

(** A number of [roundScores]: a count, or NaN. *)
Inductive score := Count (n : N) | NaN.

Record App := {
  pdfParser : list Question;
  currentRound : positive;
  currentQuestionIndex : nat;
  (** [None] is an empty slot of the array. *)
  roundScores : list (option score);
  roundQuestions : list Question;
  usedQuestionIds : list jsstring;
  (** [None] is [null]. *)
  selectedAnswer : option jsstring;
  isAnswered : bool;
  activeScreen : string
}.

Definition showScreen (screenId : string) (app : App) : App :=
  {| pdfParser := pdfParser app;
     currentRound := currentRound app;
     currentQuestionIndex := currentQuestionIndex app;
     roundScores := roundScores app;
     roundQuestions := roundQuestions app;
     usedQuestionIds := usedQuestionIds app;
     selectedAnswer := selectedAnswer app;
     isAnswered := isAnswered app;
     activeScreen := screenId |}.

(** [a + b] of the reducer. *)
Definition add (a b : score) : score :=
  match a, b with
  | Count x, Count y => Count (x + y)
  | _, _ => NaN
  end.

(** [getTotalScore()]: [reduce] passes over empty slots. *)
Definition getTotalScore (app : App) : score :=
  fold_left (fun a slot => match slot with Some b => add a b | None => a end)
            (roundScores app) (Count 0).

(** [showQuestion()]: nothing happens when there is no question at the
    current index. *)
Definition showQuestion (app : App) : App :=
  match roundQuestions app !! currentQuestionIndex app with
  | None => app
  | Some _ =>
      {| pdfParser := pdfParser app;
         currentRound := currentRound app;
         currentQuestionIndex := currentQuestionIndex app;
         roundScores := roundScores app;
         roundQuestions := roundQuestions app;
         usedQuestionIds := usedQuestionIds app;
         selectedAnswer := None;
         isAnswered := false;
         activeScreen := activeScreen app |}
  end.

(** [startRound()]; [random] gives the values of [Math.random()] during the
    call. *)
Definition startRound (random : nat -> Q) (app : App) : App :=
  let round := getRandomQuestions random (pdfParser app)
                 (Z.of_nat QUESTIONS_PER_ROUND) (usedQuestionIds app) in
  showQuestion
    {| pdfParser := pdfParser app;
       currentRound := currentRound app;
       currentQuestionIndex := 0;
       roundScores := roundScores app;
       roundQuestions := round;
       usedQuestionIds := usedQuestionIds app ++ map id round;
       selectedAnswer := selectedAnswer app;
       isAnswered := isAnswered app;
       activeScreen := activeScreen app |}.

(** [startQuiz()] *)
Definition startQuiz (random : nat -> Q) (app : App) : App :=
  showScreen "quiz"
    (startRound random
       {| pdfParser := pdfParser app;
          currentRound := 1;
          currentQuestionIndex := currentQuestionIndex app;
          roundScores := [Some (Count 0); Some (Count 0); Some (Count 0)];
          roundQuestions := roundQuestions app;
          usedQuestionIds := [];
          selectedAnswer := selectedAnswer app;
          isAnswered := isAnswered app;
          activeScreen := activeScreen app |}).

(** [scores[i]++]: an empty slot or an index past the end gives NaN, and the
    array grows to hold index [i]. *)
Definition increment (scores : list (option score)) (i : nat) : list (option score) :=
  match scores !! i with
  | Some (Some (Count n)) => <[i := Some (Count (n + 1))]> scores
  | Some _ => <[i := Some NaN]> scores
  | None => scores ++ replicate (i - List.length scores) None ++ [Some NaN]
  end.

(** [selectOption(letter, question)], up to the timeout it sets; the timeout
    calls [nextQuestion]. *)
Definition selectOption (letter : jsstring) (question : Question) (app : App) : App :=
  if isAnswered app then app
  else
    {| pdfParser := pdfParser app;
       currentRound := currentRound app;
       currentQuestionIndex := currentQuestionIndex app;
       roundScores :=
         if jsstring_eqb letter (answer question)
         then increment (roundScores app) (Pos.to_nat (currentRound app) - 1)
         else roundScores app;
       roundQuestions := roundQuestions app;
       usedQuestionIds := usedQuestionIds app;
       selectedAnswer := Some letter;
       isAnswered := true;
       activeScreen := activeScreen app |}.

(** [endRound()] *)
Definition endRound (app : App) : App := showScreen "roundComplete" app.

(** [nextQuestion()] *)
Definition nextQuestion (app : App) : App :=
  let app :=
    {| pdfParser := pdfParser app;
       currentRound := currentRound app;
       currentQuestionIndex := currentQuestionIndex app + 1;
       roundScores := roundScores app;
       roundQuestions := roundQuestions app;
       usedQuestionIds := usedQuestionIds app;
       selectedAnswer := selectedAnswer app;
       isAnswered := isAnswered app;
       activeScreen := activeScreen app |} in
  if QUESTIONS_PER_ROUND <=? currentQuestionIndex app then endRound app
  else showQuestion app.

(** [skipQuestion()] *)
Definition skipQuestion (app : App) : App :=
  if isAnswered app then app else nextQuestion app.

(** [startNextRound()] *)
Definition startNextRound (random : nat -> Q) (app : App) : App :=
  showScreen "quiz"
    (startRound random
       {| pdfParser := pdfParser app;
          currentRound := Pos.succ (currentRound app);
          currentQuestionIndex := currentQuestionIndex app;
          roundScores := roundScores app;
          roundQuestions := roundQuestions app;
          usedQuestionIds := usedQuestionIds app;
          selectedAnswer := selectedAnswer app;
          isAnswered := isAnswered app;
          activeScreen := activeScreen app |}).

(** [restartQuiz()] *)
Definition restartQuiz (random : nat -> Q) (app : App) : App := startQuiz random app.

(** [goHome()] *)
Definition goHome (app : App) : App := showScreen "landing" app.

(** What can happen to the quiz: a click on a control bound by
    [bindEvents] or on an option, or the timeout set by [selectOption]. *)
Inductive event :=
| StartQuiz (random : nat -> Q)
| SelectOption (letter : jsstring) (question : Question)
| NextQuestion
| SkipQuestion
| StartNextRound (random : nat -> Q)
| RestartQuiz (random : nat -> Q)
| GoHome.

Definition step (app : App) (e : event) : App :=
  match e with
  | StartQuiz random => startQuiz random app
  | SelectOption letter question => selectOption letter question app
  | NextQuestion => nextQuestion app
  | SkipQuestion => skipQuestion app
  | StartNextRound random => startNextRound random app
  | RestartQuiz random => restartQuiz random app
  | GoHome => goHome app
  end.

Definition run (app : App) (events : list event) : App := fold_left step events app.

End QuizApp.
Import QuizApp.
(** * Auxiliary definitions *)

(** ** Sample inputs *)

Definition literal_text : jsstring :=
  js "1) What is 2+2? A) 3 B) 4 C) 5 D) 6 Answer: B".

Definition five_questions : jsstring :=
  js ("1) 2+2? A) 3 B) 4 C) 5 D) 6 Answer: B 2) 2+3? A) 3 B) 4 C) 5 D) 6 Answer: C " ++
      "3) 2+4? A) 3 B) 4 C) 5 D) 6 Answer: D 4) 1+2? A) 3 B) 4 C) 5 D) 6 Answer: A " ++
      "5) 3+2? A) 3 B) 4 C) 5 D) 6 Answer: C").

Definition two_questions : jsstring :=
  js ("1) What is 2+2 exactly? A) 3 B) 4 C) 5 D) 6 Answer: B " ++
      "2) What is 3+3 exactly? A) 5 B) 6 C) 7 D) 8").

Definition good_file : File :=
  {| name := js "a.pdf";
     document := Some [[js "1) What is 2+2?"; js "A) 3 B) 4 C) 5 D) 6"; js "Answer: B"]] |}.

Definition bad_file : File := {| name := js "b.pdf"; document := None |}.


(** ** The loader *)

(** What one file contributes to the pool, and to the console. *)
Definition contribution (file : File) : list Question :=
  match extractQuestionsFromPDF file with
  | Some qs => qs
  | None => []
  end.

Definition failure (file : File) : list jsstring :=
  match extractQuestionsFromPDF file with
  | Some _ => []
  | None => [name file]
  end.




(** ** The sampler *)

(** The records of the pool that [getRandomQuestions] may return. *)
Definition available (pool : list Question) (excludeIds : list jsstring) : list Question :=
  List.filter (fun q => negb (includes excludeIds (id q))) pool.

(** A pool of three records and a constant random source. *)
Definition sample_record (n : N) : Question :=
  {| id := js "a.pdf-" ++ numberToString (Integer (Z.of_N n));
     number := Integer (Z.of_N n);
     question := js "What is 2+2?";
     options := {| A := js "3"; B := js "4"; C := js "5"; D := js "6" |};
     answer := js "B";
     source := js "a.pdf" |}.

Definition sample_pool : list Question := [sample_record 1; sample_record 2; sample_record 3].

Definition sample_random (t : nat) : Q := 1 # 2.

(** ** The matcher *)

(** The least number of code units a pattern consumes. *)
Fixpoint min_len (r : regex) : nat :=
  match r with
  | REps => 0
  | RChar _ => 1
  | RSeq a b => min_len a + min_len b
  | RAlt a b => Nat.min (min_len a) (min_len b)
  | RRep _ lo _ _ => lo
  | ROpt _ => 0
  | RGroup _ a => min_len a
  | RBol | REol | RWordB | RLook _ => 0
  end.

(** The capture numbers of a pattern. *)
Fixpoint groups (r : regex) : list nat :=
  match r with
  | RSeq a b | RAlt a b => groups a ++ groups b
  | ROpt a | RLook a => groups a
  | RGroup n a => n :: groups a
  | _ => []
  end.

(** A matcher state belongs to the input [s] when its rest is the input
    from its index. *)
Definition wf (s : jsstring) (st : mstate) : Prop :=
  rest st = skipn (pos st) s /\ pos st <= List.length s.

(** The state [n] code units further. *)
Fixpoint forward (n : nat) (st : mstate) : mstate :=
  match n with
  | O => st
  | Datatypes.S n' =>
      match rest st with
      | x :: xs => forward n' (advance x xs st)
      | [] => st
      end
  end.

(** The length of the longest prefix of [l] inside a class. *)
Fixpoint class_len (ic : bool) (cl : cclass) (l : jsstring) : nat :=
  match l with
  | x :: xs => if class_matches ic cl x then Datatypes.S (class_len ic cl xs) else 0
  | [] => 0
  end.

(** ** The fallback grammars *)

(** The D option marker as it can stand in a text. *)
Definition d_markers : list jsstring :=
  [js "D."; js "D)"; js "d."; js "d)"; js "(D)"; js "(d)"].

(** The four answer letters. *)
Definition answer_letters : list jsstring := [js "A"; js "B"; js "C"; js "D"].

(** The two D markers as character classes, and the patterns written as
    head, marker and tail. *)
Definition lettered_D : list cclass := [CChar 68; dot_or_paren].
Definition parenthesized_D : list cclass := [CChar 40; CChar 68; CChar 41].

(** A text for the fallback grammar whose option D has two digits. *)
Definition two_digit_option : jsstring :=
  js "How much is 10 x 6? A) 30 B) 40 C) 50 D) 60 Answer: D".

(** The class of a one-character pattern. *)
Definition class_of (r : regex) : option cclass :=
  match r with RChar cl => Some cl | _ => None end.

(** The groups that take part in every match of a pattern, each with the
    least length of its capture and, for a one-character group, its
    class. *)
Fixpoint sure (r : regex) : list (nat * nat * option cclass) :=
  match r with
  | RSeq a b => sure a ++ sure b
  | RGroup n a => (n, min_len a, class_of a) :: sure a
  | _ => []
  end.

(** What a state holds for such a group. *)
Definition captured (ic : bool) (s : jsstring) (st : mstate)
    (entry : nat * nat * option cclass) : Prop :=
  let '(n, len, ocl) := entry in
  exists b e, cap n st = Some (b, e) /\ b + len <= e /\ e <= List.length s /\
    match ocl with
    | Some cl => e = Datatypes.S b /\ exists x, s !! b = Some x /\ class_matches ic cl x = true
    | None => True
    end.

(** ** Records *)

(** What the code guarantees about a record: the captures its question and
    option texts were cleaned from. *)
Definition cleaned_from (q : Question) (questionText optA optB optC optD : jsstring) : Prop :=
  question q = cleanText questionText /\
  options q = {| A := cleanText optA; B := cleanText optB;
                 C := cleanText optC; D := cleanText optD |} /\
  questionText <> [] /\ optA <> [] /\ optB <> [] /\ optC <> [] /\ optD <> [].

(** The record [q] was built from the captures [first] to [first + 4] of
    the match [mt] on [s]: the question capture, which [prepare] makes
    longer than [least], and the four option captures, none of them empty;
    the texts of the record are the cleaned forms. *)
Definition built_from (q : Question) (s : jsstring) (mt : mstate) (first : nat)
    (prepare : jsstring -> jsstring) (least : nat) : Prop :=
  exists questionText optA optB optC optD,
    group s first mt = Some questionText /\
    group s (first + 1) mt = Some optA /\ group s (first + 2) mt = Some optB /\
    group s (first + 3) mt = Some optC /\ group s (first + 4) mt = Some optD /\
    least < List.length (prepare questionText) /\
    optA <> [] /\ optB <> [] /\ optC <> [] /\ optD <> [] /\
    question q = cleanText (prepare questionText) /\
    options q = {| A := cleanText optA; B := cleanText optB;
                   C := cleanText optC; D := cleanText optD |}.

(** A question whose text is mostly a page marker and whose option A is a
    watermark. *)
Definition watermarked_question : jsstring :=
  js "1) Page 3 of 7 why? A) RANJAN KALINDI B) 4 C) 5 D) 6".

(** The invariant of the specification's data model. *)
Definition record_invariant (q : Question) : Prop :=
  10 < List.length (question q) /\
  A (options q) <> [] /\ B (options q) <> [] /\ C (options q) <> [] /\ D (options q) <> [] /\
  In (answer q) answer_letters.

Definition literal_record : Question :=
  {| id := js "a.pdf-1";
     number := Integer 1;
     question := js "What is 2+2?";
     options := {| A := js "3"; B := js "4"; C := js "5"; D := js "6" |};
     answer := js "B";
     source := js "a.pdf" |}.

(** A question whose option D has two digits and whose answer is D. *)
Definition two_digit_question : jsstring :=
  js "1) How much is 10 x 6? A) 30 B) 40 C) 50 D) 60 Answer: D".

(** ** The correction tables *)

(** The corrupted code points of the tables of [fixLigatures]: theta and
    sigma variants, O with tilde, florin, micro sign, the ligatures, curly
    quotes, dashes, ellipsis, the space characters, zero-width space, soft
    hyphen and byte order mark. *)
Definition corrupted_code_points : list char :=
  [0x0398; 0x03B8; 0x019F; 0x0275; 0x03A3; 0x03C3; 0x03C2; 0x00D5; 0x00F5; 0x0192; 0x00B5;
   0xFB01; 0xFB02; 0xFB03; 0xFB04; 0xFB05; 0xFB06;
   0x2018; 0x2019; 0x201C; 0x201D; 0x2013; 0x2014; 0x2026;
   0x00A0; 0x2003; 0x2002; 0x2009; 0x200B; 0x00AD; 0xFEFF]%N.

(** The literal text of a replacement. *)
Definition literals (tpl : template) : jsstring :=
  flat_map (fun t => match t with TLit l => l | TRef _ => [] end) tpl.

Definition occurs (c : char) (l : jsstring) : bool := existsb (N.eqb c) l.

(** The replacement of rule [r] does not write [c]. *)
Definition keeps_out (c : char) (r : rule) : bool := negb (occurs c (literals (rule_subst r))).

(** Rule [r] replaces every [c] by text without [c]. *)
Definition removes (c : char) (r : rule) : bool :=
  match r with
  | Rule false (RChar (CChar c')) [TLit text] => (c' =? c)%N && negb (occurs c text)
  | _ => false
  end.

(** Some rule of [rs] removes [c] and no later rule writes it. *)
Fixpoint purged (c : char) (rs : list rule) : bool :=
  match rs with
  | [] => false
  | r :: rs' => (removes c r && forallb (keeps_out c) rs') || purged c rs'
  end.

(** The rules that replace one corrupted code point by text, and the other
    rules of the table: the word-level rules. *)
Definition is_glyph (r : rule) : bool :=
  match r with
  | Rule false (RChar (CChar c)) [TLit _] => occurs c corrupted_code_points
  | _ => false
  end.

Definition word_rules : list rule := List.filter (fun r => negb (is_glyph r)) ligature_rules.

(** No white space at the end. *)
Fixpoint ends_clean (l : jsstring) : Prop :=
  match l with
  | [] => True
  | c :: xs =>
      match xs with
      | [] => isWhiteSpace c = false
      | _ :: _ => ends_clean xs
      end
  end.

(** A text that is not empty and holds no white space. *)
Definition solid (l : jsstring) : Prop :=
  l <> [] /\ Forall (fun c => isWhiteSpace c = false) l.

(** A class of visible ASCII characters only, as [[a-zA-Z]]. *)
Fixpoint visible_class (cl : cclass) : bool :=
  match cl with
  | CChar c => ((33 <=? c) && (c <=? 126))%N
  | CRange lo hi => ((33 <=? lo) && (hi <=? 126))%N
  | CUnion a b => visible_class a && visible_class b
  | _ => false
  end.

(** Every capture group of the pattern is a run of such a class, as
    [([a-zA-Z]{n,})]. *)
Fixpoint letter_groups (r : regex) : bool :=
  match r with
  | RSeq a b | RAlt a b => letter_groups a && letter_groups b
  | ROpt a | RLook a => letter_groups a
  | RGroup _ (RRep _ _ _ cl) => visible_class cl
  | RGroup _ _ => false
  | _ => true
  end.

Definition is_literal (t : titem) : bool :=
  match t with TLit _ => true | TRef _ => false end.

(** The replacement of the rule writes a word: its literal text holds no
    white space and is not empty, and what it takes from the input are runs
    of visible characters (captures of a pattern without the [i] flag). *)
Definition writes_word (r : rule) : bool :=
  forallb (fun c => negb (isWhiteSpace c)) (literals (rule_subst r)) &&
  truthy (literals (rule_subst r)) &&
  (forallb is_literal (rule_subst r)
   || (letter_groups (rule_pattern r) && negb (rule_icase r))).

(** The captures of a state on the input [s] hold no white space. *)
Definition held (s : jsstring) (st : mstate) : Prop :=
  forall n b e, cap n st = Some (b, e) ->
  Forall (fun c => isWhiteSpace c = false) (substring s b e).

(** "func", theta, "on" and "ins", theta, "tu", theta, "on" with spaces
    around each theta. *)
Definition theta_word : jsstring := js "func" ++ [0x3B8%N] ++ js "on".

Definition theta_fragments : jsstring :=
  js "ins " ++ [0x3B8%N] ++ js " tu " ++ [0x3B8%N] ++ js " on".

(** ** White space *)

(** An input on which a second normalisation changes the result: "le",
    a zero-width space, a space, "ft". *)
Definition hidden_fragment : jsstring := js "le" ++ [0x200B%N] ++ js " ft".

(** What [/\s+/g] to one space computes: every run of white space becomes
    one space.  [skipping] says that the run has begun. *)
Fixpoint squeeze (skipping : bool) (l : jsstring) : jsstring :=
  match l with
  | [] => []
  | x :: xs =>
      if isWhiteSpace x
      then if skipping then squeeze true xs else 32%N :: squeeze true xs
      else x :: squeeze false xs
  end.

(** Every white space is a single space between other characters.
    [after_space] says that the character before is a space. *)
Fixpoint tidy (after_space : bool) (l : jsstring) : Prop :=
  match l with
  | [] => True
  | x :: xs =>
      if isWhiteSpace x then x = 32%N /\ after_space = false /\ tidy true xs
      else tidy false xs
  end.

(** A string that does not begin with white space. *)
Definition starts_clean (l : jsstring) : Prop :=
  match l with
  | [] => True
  | c :: _ => isWhiteSpace c = false
  end.

(** ** Blocks *)

(** No proper suffix of a block, read with the text after the block, is a
    place where the pattern [r] matches. *)
Definition unbroken (ic : bool) (r : regex) (blk after : jsstring) : Prop :=
  forall pre suf, blk = pre ++ suf -> pre <> [] -> suf <> [] ->
  exists p pv, match_at ic r p pv (suf ++ after) = None.

(** ** The shape of a cleaned text *)

(** Every white-space code unit is U+0020 and stands alone. *)
Definition single_spaced (l : jsstring) : Prop :=
  forall i c, l !! i = Some c -> isWhiteSpace c = true ->
  c = 32%N /\ forall c', l !! Datatypes.S i = Some c' -> isWhiteSpace c' = false.

(** No white space at either end. *)
Definition trimmed (l : jsstring) : Prop :=
  starts_clean l /\ forall pre c, l = pre ++ [c] -> isWhiteSpace c = false.

(** Single-spaced, trimmed and without a corrupted code point. *)
Definition clean (l : jsstring) : Prop :=
  single_spaced l /\ trimmed l /\ Forall (fun c => ~ In c l) corrupted_code_points.

Definition all_space (l : jsstring) : bool := forallb isWhiteSpace l.

(** What [/^\s+|\s+$/g] to nothing leaves of a text read from an index
    other than 0: the text without its trailing white space. *)
Fixpoint strip_end (l : jsstring) : jsstring :=
  match l with
  | [] => []
  | x :: xs => if all_space l then [] else x :: strip_end xs
  end.

(** Every literal replacement text of the rules is ASCII. *)
Definition writes_ascii (rs : list rule) : bool :=
  forallb (fun r => forallb (fun c => (c <? 128)%N) (literals (rule_subst r))) rs.


(** ** The quiz *)

(** The random sources of the events are in the range of [Math.random]. *)
Definition in_range (e : event) : Prop :=
  match e with
  | StartQuiz random | StartNextRound random | RestartQuiz random =>
      forall t, (0 <= random t)%Q /\ (random t < 1)%Q
  | _ => True
  end.

(** The events that do not begin a quiz. *)
Definition continues (e : event) : bool :=
  match e with
  | StartQuiz _ | RestartQuiz _ => false
  | _ => true
  end.

(** The clicks on an option and on the skip button. *)
Definition click (e : event) : bool :=
  match e with
  | SelectOption _ _ | SkipQuestion => true
  | _ => false
  end.

(** What the player does with a question: answer it with a letter, after
    which the timeout moves on, or skip it. *)
Inductive turn := Answer (letter : jsstring) | Skip.

Definition turn_events (question : Question) (t : turn) : list event :=
  match t with
  | Answer letter => [SelectOption letter question; NextQuestion]
  | Skip => [SkipQuestion]
  end.

(** The events of a round in which the questions are taken in order. *)
Fixpoint round_events (round : list Question) (turns : list turn) : list event :=
  match round, turns with
  | q :: round', t :: turns' => turn_events q t ++ round_events round' turns'
  | _, _ => []
  end.

(** The number of questions answered with the letter recorded as their
    answer. *)
Fixpoint correct (round : list Question) (turns : list turn) : N :=
  match round, turns with
  | q :: round', Answer letter :: turns' =>
      ((if jsstring_eqb letter (answer q) then 1 else 0) + correct round' turns')%N
  | _ :: round', Skip :: turns' => correct round' turns'
  | _, _ => 0%N
  end.

(** The events that begin a round, and those that leave the round as it
    is. *)
Definition begins_round (e : event) : bool :=
  match e with
  | StartQuiz _ | StartNextRound _ | RestartQuiz _ => true
  | _ => false
  end.

Definition within_round (e : event) : bool := negb (begins_round e).

(** A pool of [n] records with different identities, and the application
    as its constructor leaves it, with a pool. *)
Definition numbered_pool (n : nat) : list Question :=
  map (fun i => sample_record (N.of_nat i)) (List.seq 1 n).

Definition fresh_app (pool : list Question) : App :=
  {| pdfParser := pool;
     currentRound := 1;
     currentQuestionIndex := 0;
     roundScores := [Some (Count 0); Some (Count 0); Some (Count 0)];
     roundQuestions := [];
     usedQuestionIds := [];
     selectedAnswer := None;
     isAnswered := false;
     activeScreen := "landing" |}.
(** * Properties *)

(** ** The literal case of the specification *)

(** C1. The text "1) What is 2+2? A) 3 B) 4 C) 5 D) 6 Answer: B" is left
    unchanged by normalisation, and for every source name [parseQuestions]
    returns exactly one record: number 1, question "What is 2+2?", options
    "3", "4", "5", "6" and answer "B". *)
Theorem known_literal_case (sourcePdf : jsstring) :
  normalize literal_text = literal_text /\
  parseQuestions literal_text sourcePdf =
    [ {| id := sourcePdf ++ js "-1";
         number := Integer 1;
         question := js "What is 2+2?";
         options := {| A := js "3"; B := js "4"; C := js "5"; D := js "6" |};
         answer := js "B";
         source := sourcePdf |} ].
Proof.
  split; vm_compute; reflexivity.
Qed.

(** ** The recall gate *)

(** C3. When the two structured grammars give fewer than 5 candidates,
    [parseQuestions] returns the fallback segmenter's output on the same
    normalised text and nothing of the structured candidates; otherwise it
    returns the structured candidates. *)
Theorem recall_gate (text sourcePdf : jsstring) :
  let cleaned := normalize text in
  let candidates := structured cleaned sourcePdf in
  (List.length candidates < 5 ->
     parseQuestions text sourcePdf = parseQuestionsFlexible cleaned sourcePdf) /\
  (5 <= List.length candidates ->
     parseQuestions text sourcePdf = candidates).
Proof.
  intros cleaned candidates. unfold parseQuestions.
  fold cleaned. fold candidates.
  split; intros Hlen.
  - apply Nat.ltb_lt in Hlen. rewrite Hlen. reflexivity.
  - apply Nat.ltb_ge in Hlen. rewrite Hlen. reflexivity.
Qed.

Lemma recall_gate_witness :
  parseQuestions literal_text (js "a.pdf")
    = parseQuestionsFlexible (normalize literal_text) (js "a.pdf") /\
  parseQuestions five_questions (js "a.pdf")
    = structured (normalize five_questions) (js "a.pdf").
Proof.
  split.
  - apply (proj1 (recall_gate literal_text (js "a.pdf"))). vm_compute. lia.
  - apply (proj2 (recall_gate five_questions (js "a.pdf"))). vm_compute. lia.
Defined.

(** Fallback activation on a small document: the structured grammars find
    one candidate (the second question has no answer key), the fallback
    segmenter finds two blocks, and the result holds exactly the two
    fallback records. *)
Example fallback_replaces_structured :
  List.length (structured (normalize two_questions) (js "a.pdf")) = 1 /\
  parseQuestions two_questions (js "a.pdf")
    = parseQuestionsFlexible (normalize two_questions) (js "a.pdf") /\
  map number (parseQuestions two_questions (js "a.pdf")) = [Integer 1; Integer 2].
Proof. vm_compute. auto. Qed.

(** ** The batch loader *)

Section Loader.

Lemma load_from (files : list File) (st : Loader) :
  questions (fold_left load_file files st) = questions st ++ flat_map contribution files /\
  console (fold_left load_file files st) = console st ++ flat_map failure files.
Proof.
  revert st. induction files as [|f files IH]; intros st; simpl.
  - rewrite !app_nil_r. split; reflexivity.
  - destruct (IH (load_file st f)) as [Hq Hc]. rewrite Hq, Hc.
    unfold load_file, contribution, failure.
    destruct (extractQuestionsFromPDF f); simpl; rewrite <- app_assoc; split; reflexivity.
Qed.

Lemma loadPDFs_questions (files : list File) :
  questions (loadPDFs files) = flat_map contribution files.
Proof.
  unfold loadPDFs.
  destruct (load_from files {| questions := []; console := [] |}) as [H _]. exact H.
Qed.

Lemma loadPDFs_console (files : list File) :
  console (loadPDFs files) = flat_map failure files.
Proof.
  unfold loadPDFs.
  destruct (load_from files {| questions := []; console := [] |}) as [_ H]. exact H.
Qed.

Lemma extract_fails (f : File) :
  extractTextFromPDF f = None -> extractQuestionsFromPDF f = None.
Proof. unfold extractQuestionsFromPDF. intros ->. reflexivity. Qed.

End Loader.

(** C7. A file whose extraction throws does not abort [loadPDFs]: its name
    is written to the console, the files before and after it are processed
    as if it were absent, and the pool holds the questions of every file
    that was read. *)
Theorem failure_is_skipped (before after : list File) (bad : File) :
  extractTextFromPDF bad = None ->
  questions (loadPDFs (before ++ bad :: after)) = questions (loadPDFs (before ++ after)) /\
  In (name bad) (console (loadPDFs (before ++ bad :: after))) /\
  (forall file text, In file (before ++ after) -> extractTextFromPDF file = Some text ->
     incl (parseQuestions text (name file)) (questions (loadPDFs (before ++ bad :: after)))).
Proof.
  intros Hbad. apply extract_fails in Hbad.
  assert (Hq : questions (loadPDFs (before ++ bad :: after))
               = questions (loadPDFs (before ++ after))).
  { rewrite !loadPDFs_questions, !flat_map_app. simpl.
    unfold contribution at 2. rewrite Hbad. reflexivity. }
  split; [exact Hq|]. split.
  - rewrite loadPDFs_console, flat_map_app. apply in_or_app. right. simpl.
    unfold failure at 1. rewrite Hbad. left. reflexivity.
  - intros file text Hin Htext q Hq'. rewrite Hq, loadPDFs_questions.
    apply in_flat_map. exists file. split; [exact Hin|].
    unfold contribution, extractQuestionsFromPDF. rewrite Htext. exact Hq'.
Qed.

Lemma failure_is_skipped_witness :
  questions (loadPDFs ([good_file] ++ bad_file :: [good_file]))
    = questions (loadPDFs ([good_file] ++ [good_file])) /\
  In (name bad_file) (console (loadPDFs ([good_file] ++ bad_file :: [good_file]))) /\
  (forall file text, In file ([good_file] ++ [good_file]) ->
     extractTextFromPDF file = Some text ->
     incl (parseQuestions text (name file))
          (questions (loadPDFs ([good_file] ++ bad_file :: [good_file])))).
Proof.
  apply (failure_is_skipped [good_file] [good_file] bad_file). reflexivity.
Defined.

(** ** Identity collisions *)







(** ** The sampler *)

Section Sampler.

Context {X : Type}.

(** [Math.floor(Math.random() * (i + 1))] is an index between 0 and [i]. *)
Lemma random_index (r : Q) (i : nat) :
  (0 <= r)%Q -> (r < 1)%Q ->
  (Z.to_nat (Qfloor (r * inject_Z (Z.of_nat (i + 1)))) <= i)%nat.
Proof.
  intros H0 H1.
  set (n := Z.of_nat (i + 1)).
  assert (Hn : (0 < inject_Z n)%Q).
  { replace 0%Q with (inject_Z 0) by reflexivity. rewrite <- Zlt_Qlt. unfold n. lia. }
  assert (Hlt : (r * inject_Z n < inject_Z n)%Q).
  { pose proof (Qmult_lt_compat_r r 1 (inject_Z n) Hn H1) as Hlt.
    rewrite Qmult_1_l in Hlt. exact Hlt. }
  assert (Hfl : (Qfloor (r * inject_Z n) < n)%Z).
  { rewrite Zlt_Qlt. eapply Qle_lt_trans; [apply Qfloor_le | exact Hlt]. }
  assert (Hdef : n = Z.of_nat (i + 1)) by reflexivity.
  clearbody n. revert Hfl. generalize (Qfloor (r * inject_Z n)). intros z Hz. lia.
Qed.

Lemma swap_in_range (array : list X) (i j : nat) :
  (i < List.length array)%nat -> (j <= i)%nat ->
  exists ai aj, array !! i = Some ai /\ array !! j = Some aj /\
                swap array i j = <[j := ai]> (<[i := aj]> array).
Proof.
  intros Hi Hj.
  destruct (lookup_lt_is_Some_2 array i Hi) as [ai Hai].
  destruct (lookup_lt_is_Some_2 array j ltac:(lia)) as [aj Haj].
  exists ai, aj. unfold swap. rewrite Hai, Haj. auto.
Qed.

Lemma swap_length (array : list X) (i j : nat) :
  List.length (swap array i j) = List.length array.
Proof.
  unfold swap. destruct (array !! j); [|reflexivity]. destruct (array !! i); [|reflexivity].
  rewrite !length_insert. reflexivity.
Qed.

Variable random : nat -> Q.
Hypothesis random_range : forall t, (0 <= random t)%Q /\ (random t < 1)%Q.

(** Every step of the loop exchanges two elements that exist. *)
Lemma shuffle_loop_Permutation (i t : nat) (array : list X) :
  (i < List.length array \/ i = 0)%nat ->
  shuffle_loop random t i array ≡ₚ array.
Proof.
  revert t array. induction i as [|i IH]; intros t array Hi; cbn [shuffle_loop]; [reflexivity|].
  destruct Hi as [Hi|Hi]; [|discriminate].
  destruct (random_range t) as [H0 H1].
  pose proof (random_index (random t) (Datatypes.S i) H0 H1) as Hj.
  destruct (swap_in_range array (Datatypes.S i) _ Hi Hj) as (ai & aj & Hai & Haj & Hswap).
  rewrite IH.
  - rewrite Hswap. apply Permutation_insert_swap; assumption.
  - left. rewrite swap_length. lia.
Qed.

Lemma shuffleArray_Permutation (array : list X) : shuffleArray random array ≡ₚ array.
Proof.
  unfold shuffleArray. apply shuffle_loop_Permutation.
  destruct array; simpl; [right; reflexivity | left; lia].
Qed.

End Sampler.

Lemma includes_In (ids : list jsstring) (x : jsstring) :
  includes ids x = true <-> In x ids.
Proof.
  unfold includes. rewrite existsb_exists. split.
  - intros (y & Hy & Heq). unfold jsstring_eqb in Heq.
    apply bool_decide_eq_true in Heq. subst. exact Hy.
  - intros Hin. exists x. split; [exact Hin|].
    unfold jsstring_eqb. apply bool_decide_eq_true. reflexivity.
Qed.

Lemma slice0_nat {X} (array : list X) (count : nat) :
  slice0 array (Z.of_nat count) = firstn count array.
Proof.
  unfold slice0.
  destruct (Z.ltb_spec (Z.of_nat count) 0) as [Hneg|Hpos]; [lia|].
  destruct (Nat.le_gt_cases count (List.length array)) as [Hle|Hgt].
  - rewrite Z.min_l by lia. rewrite Nat2Z.id. reflexivity.
  - rewrite Z.min_r by lia. rewrite Nat2Z.id.
    rewrite !firstn_all2 by lia. reflexivity.
Qed.

Lemma filter_split {X} (f : X -> bool) (l : list X) :
  Permutation (List.filter f l ++ List.filter (fun x => negb (f x)) l) l.
Proof.
  induction l as [|x l IH]; simpl; [constructor|].
  destruct (f x); simpl.
  - constructor. exact IH.
  - symmetry. apply Permutation_cons_app. symmetry. exact IH.
Qed.

(** C9. For every pool, count and exclusion list, with [Math.random()] in
    [0, 1): [getRandomQuestions(count, excludeIds)] returns
    [min(count, m)] records, [m] being the number of pool entries whose id
    is not excluded; together with the entries it leaves out they are a
    rearrangement of those [m] entries, and of the whole pool (so they are
    distinct entries of the pool), every one is in the pool and none has an
    excluded id. *)
Theorem random_questions_sound (random : nat -> Q) (pool : list Question)
    (count : nat) (excludeIds : list jsstring) :
  (forall t, (0 <= random t)%Q /\ (random t < 1)%Q) ->
  let result := getRandomQuestions random pool (Z.of_nat count) excludeIds in
  List.length result = Nat.min count (List.length (available pool excludeIds)) /\
  (exists unused, Permutation (result ++ unused) (available pool excludeIds)) /\
  (exists others, Permutation (result ++ others) pool) /\
  (forall q, In q result -> In q pool /\ ~ In (id q) excludeIds).
Proof.
  intros Hrandom result.
  pose proof (shuffleArray_Permutation random Hrandom (available pool excludeIds)) as Hperm.
  assert (Hres : result = firstn count (shuffleArray random (available pool excludeIds))).
  { unfold result, getRandomQuestions. apply slice0_nat. }
  assert (Hunused : Permutation
            (result ++ skipn count (shuffleArray random (available pool excludeIds)))
            (available pool excludeIds)).
  { rewrite Hres, firstn_skipn. exact Hperm. }
  split; [|split; [|split]].
  - rewrite Hres, length_firstn. f_equal. apply Permutation_length. exact Hperm.
  - eexists. exact Hunused.
  - exists (skipn count (shuffleArray random (available pool excludeIds))
            ++ List.filter (fun q => negb (negb (includes excludeIds (id q)))) pool).
    rewrite app_assoc, Hunused. apply filter_split.
  - intros q Hq. rewrite Hres in Hq.
    assert (Hav : In q (available pool excludeIds)).
    { apply (Permutation_in q Hperm).
      rewrite <- (firstn_skipn count). apply in_or_app. left. exact Hq. }
    unfold available in Hav. apply filter_In in Hav. destruct Hav as [Hpool Hex].
    split; [exact Hpool|]. intros Hin. apply includes_In in Hin.
    rewrite Hin in Hex. discriminate.
Qed.

Lemma random_questions_sound_witness :
  let result := getRandomQuestions sample_random sample_pool (Z.of_nat 2) [js "a.pdf-2"] in
  List.length result = Nat.min 2 (List.length (available sample_pool [js "a.pdf-2"])) /\
  (exists unused, Permutation (result ++ unused) (available sample_pool [js "a.pdf-2"])) /\
  (exists others, Permutation (result ++ others) sample_pool) /\
  (forall q, In q result -> In q sample_pool /\ ~ In (id q) [js "a.pdf-2"]).
Proof.
  apply (random_questions_sound sample_random sample_pool 2 [js "a.pdf-2"]).
  intros t. unfold sample_random, Qle, Qlt. simpl. lia.
Defined.

(** ** The matcher *)

Section Matcher.

Variable ic : bool.
Variable s : jsstring.

Lemma wf_advance (st : mstate) (x : char) (xs : jsstring) :
  wf s st -> rest st = x :: xs ->
  wf s (advance x xs st) /\ s !! pos st = Some x.
Proof.
  intros [Hr Hp] Hx. rewrite Hx in Hr.
  assert (Hlt : pos st < List.length s).
  { destruct (Nat.eq_dec (pos st) (List.length s)) as [e|]; [|lia].
    rewrite e, skipn_all in Hr. discriminate. }
  split.
  - split; simpl; [|lia].
    change (Datatypes.S (pos st)) with (1 + pos st).
    rewrite <- skipn_skipn, <- Hr. reflexivity.
  - pose proof (lookup_drop s (pos st) 0) as Hd.
    rewrite Nat.add_0_r in Hd. rewrite <- Hr in Hd. symmetry. exact Hd.
Qed.

Lemma wf_set_cap (st : mstate) (n a b : nat) : wf s st -> wf s (set_cap n a b st).
Proof. intros H. exact H. Qed.

Lemma cap_set_cap_ne (st : mstate) (n n' a b : nat) :
  n' <> n -> cap n' (set_cap n a b st) = cap n' st.
Proof.
  intros Hne. unfold cap, set_cap; simpl.
  destruct (Nat.eqb_spec n' n); [contradiction | reflexivity].
Qed.

Lemma cap_set_cap_eq (st : mstate) (n a b : nat) :
  cap n (set_cap n a b st) = Some (a, b).
Proof. unfold cap, set_cap; simpl. rewrite Nat.eqb_refl. reflexivity. Qed.

(** *** Moving forward *)

Lemma forward_cons (n : nat) (st : mstate) (x : char) (xs : jsstring) :
  rest st = x :: xs -> forward (Datatypes.S n) st = forward n (advance x xs st).
Proof. intros H. simpl. rewrite H. reflexivity. Qed.

Lemma forward_spec (n : nat) : forall st,
  wf s st -> n <= List.length (rest st) ->
  wf s (forward n st) /\ pos (forward n st) = pos st + n /\
  rest (forward n st) = skipn n (rest st) /\ caps (forward n st) = caps st.
Proof.
  induction n as [|n IH]; intros st Hwf Hn.
  - simpl. rewrite Nat.add_0_r. auto.
  - destruct (rest st) as [|x xs] eqn:Hr; [simpl in Hn; lia|].
    rewrite (forward_cons n st x xs Hr).
    destruct (wf_advance st x xs Hwf Hr) as [Hwf' _].
    destruct (IH (advance x xs st) Hwf') as (H1 & H2 & H3 & H4).
    { simpl in *. lia. }
    split; [exact H1|]. rewrite H2, H3, H4. simpl. repeat split; auto; lia.
Qed.

(** *** Quantified classes *)

Lemma class_len_le (cl : cclass) (l : jsstring) : class_len ic cl l <= List.length l.
Proof. induction l as [|x xs IH]; simpl; [lia|]. destruct (class_matches ic cl x); simpl; lia. Qed.

Lemma class_len_Forall (cl : cclass) (l : jsstring) (n : nat) :
  n <= class_len ic cl l -> Forall (fun c => class_matches ic cl c = true) (firstn n l).
Proof.
  revert n. induction l as [|x xs IH]; intros n Hn; simpl in *.
  - rewrite firstn_nil. constructor.
  - destruct n as [|n]; [constructor|].
    destruct (class_matches ic cl x) eqn:Hx; [|lia].
    simpl. constructor; [exact Hx | apply IH; lia].
Qed.

Lemma class_len_stop (cl : cclass) (l : jsstring) :
  match skipn (class_len ic cl l) l with
  | [] => True
  | c :: _ => class_matches ic cl c = false
  end.
Proof.
  induction l as [|x xs IH]; simpl; [exact Logic.I|].
  destruct (class_matches ic cl x) eqn:Hx; simpl; [exact IH | exact Hx].
Qed.

(** A repetition hands over to its continuation after some number of code
    units of the class, at least the required number. *)
Lemma rep_some (g : bool) (cl : cclass) (l : jsstring) :
  forall lo hi st k res,
  rest st = l ->
  rep ic g cl lo hi l st k = Some res ->
  exists n, lo <= n /\ n <= class_len ic cl l /\ k (forward n st) = Some res.
Proof.
  induction l as [|x xs IH]; intros lo hi st k res Hr H.
  - simpl in H. destruct lo as [|lo].
    + exists 0. simpl. repeat split; try lia.
      destruct g; destruct hi as [[|?]|]; simpl in H;
        destruct (k st); congruence.
    + destruct hi as [[|?]|]; discriminate.
  - simpl in H.
    remember (match hi with
              | Some O => None
              | _ => if class_matches ic cl x
                     then rep ic g cl (Nat.pred lo) (option_map Nat.pred hi) xs
                              (advance x xs st) k
                     else None
              end) as more eqn:Hdef.
    assert (Hmore : forall r, more = Some r ->
      exists n, Nat.pred lo <= n /\ Datatypes.S n <= class_len ic cl (x :: xs)
                /\ k (forward (Datatypes.S n) st) = Some r).
    { intros r Hm. subst more.
      destruct (class_matches ic cl x) eqn:Hx; [|destruct hi as [[|?]|]; discriminate].
      assert (Hrec : rep ic g cl (Nat.pred lo) (option_map Nat.pred hi) xs (advance x xs st) k
                     = Some r) by (destruct hi as [[|?]|]; [discriminate | exact Hm | exact Hm]).
      destruct (IH _ _ (advance x xs st) _ _ eq_refl Hrec) as (n & Hlo & Hn & Hk).
      exists n. rewrite (forward_cons n st x xs Hr). simpl. rewrite Hx.
      repeat split; auto; lia. }
    clear Hdef. destruct lo as [|lo].
    + destruct g.
      * destruct more as [r|].
        -- injection H as <-. destruct (Hmore r eq_refl) as (n & _ & Hn & Hk).
           exists (Datatypes.S n). repeat split; auto; lia.
        -- exists 0. simpl. repeat split; try lia. exact H.
      * destruct (k st) as [r|] eqn:Hk0.
        -- injection H as <-. exists 0. simpl. repeat split; try lia. exact Hk0.
        -- destruct (Hmore res H) as (n & _ & Hn & Hk).
           exists (Datatypes.S n). repeat split; auto; lia.
    + destruct (Hmore res H) as (n & Hlo & Hn & Hk).
      exists (Datatypes.S n). simpl in Hlo. repeat split; auto; lia.
Qed.

(** A greedy unbounded repetition that fails has failed after every
    admissible number of code units. *)
Lemma rep_greedy_none (cl : cclass) (l : jsstring) :
  forall lo st k,
  rest st = l ->
  rep ic true cl lo None l st k = None ->
  forall n, lo <= n -> n <= class_len ic cl l -> k (forward n st) = None.
Proof.
  induction l as [|x xs IH]; intros lo st k Hr H n Hlo Hn; simpl in *.
  - assert (n = 0) by lia. subst n. destruct lo; [|lia]. simpl. exact H.
  - destruct (class_matches ic cl x) eqn:Hx.
    + destruct lo as [|lo]; simpl Nat.pred in H.
      * destruct (rep ic true cl 0 None xs (advance x xs st) k) eqn:Hrec; [discriminate|].
        destruct n as [|n]; [exact H|].
        rewrite (forward_cons n st x xs Hr).
        apply (IH 0 (advance x xs st) k eq_refl Hrec); lia.
      * destruct n as [|n]; [lia|].
        rewrite (forward_cons n st x xs Hr).
        apply (IH lo (advance x xs st) k eq_refl H); lia.
    + assert (n = 0) by lia. subst n. destruct lo; [|lia]. simpl. exact H.
Qed.

(** A greedy unbounded repetition that succeeds does so after the largest
    number of code units for which its continuation succeeds. *)
Lemma rep_greedy_max (cl : cclass) (l : jsstring) :
  forall lo st k res,
  rest st = l ->
  rep ic true cl lo None l st k = Some res ->
  exists n, lo <= n /\ n <= class_len ic cl l /\ k (forward n st) = Some res /\
            forall n', n < n' -> n' <= class_len ic cl l -> k (forward n' st) = None.
Proof.
  induction l as [|x xs IH]; intros lo st k res Hr H; simpl in *.
  - destruct lo; [|discriminate]. exists 0. simpl. repeat split; auto. intros; lia.
  - destruct (class_matches ic cl x) eqn:Hx.
    + destruct lo as [|lo]; simpl Nat.pred in H.
      * destruct (rep ic true cl 0 None xs (advance x xs st) k) as [r|] eqn:Hrec.
        -- injection H as <-.
           destruct (IH 0 (advance x xs st) k r eq_refl Hrec) as (n & _ & Hn & Hk & Hmax).
           exists (Datatypes.S n). rewrite (forward_cons n st x xs Hr).
           repeat split; auto; try lia.
           intros [|n'] Hlt Hle; [lia|]. rewrite (forward_cons n' st x xs Hr).
           apply Hmax; lia.
        -- exists 0. simpl. repeat split; auto; try lia.
           intros [|n'] Hlt Hle; [lia|]. rewrite (forward_cons n' st x xs Hr).
           apply (rep_greedy_none cl xs 0 (advance x xs st) k eq_refl Hrec); lia.
      * destruct (IH lo (advance x xs st) k res eq_refl H) as (n & Hlo & Hn & Hk & Hmax).
        exists (Datatypes.S n). rewrite (forward_cons n st x xs Hr).
        repeat split; auto; try lia.
        intros [|n'] Hlt Hle; [lia|]. rewrite (forward_cons n' st x xs Hr).
        apply Hmax; lia.
    + destruct lo; [|discriminate]. exists 0. simpl. repeat split; auto. intros; lia.
Qed.

(** *** The invariant of a match

    Whatever a pattern returns was returned by its continuation, called on
    a state of the same input, at least [min_len] code units further, whose
    captures differ only at the groups of the pattern and hold a capture
    for every group that is sure to take part. *)
Lemma sure_groups (r : regex) (n len : nat) (ocl : option cclass) :
  In (n, len, ocl) (sure r) -> In n (groups r).
Proof.
  induction r; simpl; intros H; try contradiction.
  - apply in_app_or in H. apply in_or_app. tauto.
  - destruct H as [H|H]; [injection H as <- _ _; left; reflexivity | right; auto].
Qed.

Lemma captured_frame (st st' : mstate) (entry : nat * nat * option cclass) :
  cap (fst (fst entry)) st' = cap (fst (fst entry)) st ->
  captured ic s st entry -> captured ic s st' entry.
Proof.
  destruct entry as [[n len] ocl]. simpl. intros E (b & e & Hc & H). exists b, e.
  rewrite E. auto.
Qed.

Lemma m_inv_strong (r : regex) :
  forall st k res,
  wf s st ->
  m ic r st k = Some res ->
  exists st', k st' = Some res /\ wf s st' /\ pos st + min_len r <= pos st' /\
              (forall n, ~ In n (groups r) -> cap n st' = cap n st) /\
              (NoDup (groups r) -> Forall (captured ic s st') (sure r)).
Proof.
  induction r as [|cl|a IHa b IHb|a IHa b IHb|g lo hi cl|a IHa|n a IHa| | | |a IHa];
    intros st k res Hwf H; simpl in H.
  - exists st. simpl. repeat split; auto; try apply Hwf; lia.
  - destruct (rest st) as [|x xs] eqn:Hr; [discriminate|].
    destruct (class_matches ic cl x); [|discriminate].
    exists (advance x xs st). destruct (wf_advance st x xs Hwf Hr) as [Hwf' _].
    simpl. repeat split; auto; try apply Hwf'; lia.
  - destruct (IHa _ _ _ Hwf H) as (st1 & H1 & Hwf1 & Hp1 & Hc1 & Hs1).
    destruct (IHb _ _ _ Hwf1 H1) as (st2 & H2 & Hwf2 & Hp2 & Hc2 & Hs2).
    exists st2. simpl. repeat split; auto; try apply Hwf2; try lia.
    + intros n Hn. rewrite Hc2, Hc1; auto; intros Hin; apply Hn, in_or_app; auto.
    + intros Hnd. apply NoDup_app in Hnd. destruct Hnd as (Hnda & Hdisj & Hndb).
      apply Forall_app. split; [|auto].
      apply List.Forall_forall. intros entry Hin.
      apply (captured_frame st1 st2 entry).
      * destruct entry as [[n' len'] ocl']. simpl. apply Hc2.
        apply sure_groups in Hin. intros Hb.
        apply (Hdisj n'); apply list_elem_of_In; assumption.
      * revert entry Hin. apply List.Forall_forall. exact (Hs1 Hnda).
  - destruct (m ic a st k) as [r|] eqn:Ha.
    + injection H as <-. destruct (IHa _ _ _ Hwf Ha) as (st1 & H1 & Hwf1 & Hp1 & Hc1 & _).
      exists st1. simpl. repeat split; auto; try apply Hwf1; try lia.
      intros n Hn. apply Hc1. intros Hin; apply Hn, in_or_app; auto.
    + destruct (IHb _ _ _ Hwf H) as (st1 & H1 & Hwf1 & Hp1 & Hc1 & _).
      exists st1. simpl. repeat split; auto; try apply Hwf1; try lia.
      intros n Hn. apply Hc1. intros Hin; apply Hn, in_or_app; auto.
  - destruct (rep_some g cl (rest st) lo hi st k res eq_refl H) as (n & Hlo & Hn & Hk).
    pose proof (class_len_le cl (rest st)) as Hle.
    destruct (forward_spec n st Hwf ltac:(lia)) as (Hwf' & Hp & _ & Hc).
    exists (forward n st). simpl. repeat split; auto; try apply Hwf'; try lia.
    intros n' _. unfold cap. rewrite Hc. reflexivity.
  - destruct (m ic a st _) as [r|] eqn:Ha.
    + injection H as <-. destruct (IHa _ _ _ Hwf Ha) as (st1 & H1 & Hwf1 & Hp1 & Hc1 & _).
      destruct (Nat.eqb (pos st1) (pos st)); [discriminate|].
      exists st1. simpl. repeat split; auto; try apply Hwf1; lia.
    + exists st. simpl. repeat split; auto; try apply Hwf; lia.
  - destruct (IHa _ _ _ Hwf H) as (st1 & H1 & Hwf1 & Hp1 & Hc1 & Hs1).
    assert (Hframe : forall n', ~ In n' (n :: groups a) ->
              cap n' (set_cap n (pos st) (pos st1) st1) = cap n' st).
    { intros n' Hn'. rewrite cap_set_cap_ne by (intros ->; apply Hn'; left; reflexivity).
      apply Hc1. intros Hin. apply Hn'. right. exact Hin. }
    assert (Hinner : NoDup (n :: groups a) ->
              Forall (captured ic s (set_cap n (pos st) (pos st1) st1)) (sure a)).
    { intros Hnd. inversion Hnd as [|? ? Hnotin Hnda]; subst.
      specialize (Hs1 Hnda). apply List.Forall_forall. intros entry Hin.
      apply (captured_frame st1 _ entry).
      - destruct entry as [[n' len'] ocl']. simpl. apply cap_set_cap_ne.
        intros ->. apply Hnotin. apply list_elem_of_In. eapply sure_groups. exact Hin.
      - revert entry Hin. apply List.Forall_forall. exact Hs1. }
    assert (Hgen : class_of a = None ->
      exists st', k st' = Some res /\ wf s st' /\ pos st + min_len (RGroup n a) <= pos st' /\
        (forall n', ~ In n' (groups (RGroup n a)) -> cap n' st' = cap n' st) /\
        (NoDup (groups (RGroup n a)) -> Forall (captured ic s st') (sure (RGroup n a)))).
    { intros Hnone. exists (set_cap n (pos st) (pos st1) st1). simpl.
      split; [exact H1|]. split; [exact Hwf1|]. split; [lia|]. split; [exact Hframe|].
      intros Hnd. constructor; [|exact (Hinner Hnd)].
      exists (pos st), (pos st1). rewrite cap_set_cap_eq, Hnone.
      repeat split; auto. apply Hwf1. }
    destruct a; try (apply Hgen; reflexivity).
    clear Hgen. simpl in H.
    destruct (rest st) as [|x xs] eqn:Hr; [discriminate|].
    destruct (class_matches ic cl x) eqn:Hx; [|discriminate].
    destruct (wf_advance st x xs Hwf Hr) as [Hwf' Hlook].
    exists (set_cap n (pos st) (Datatypes.S (pos st)) (advance x xs st)). simpl.
    split; [exact H|]. split; [exact Hwf'|]. split; [lia|]. split.
    + intros n' Hn'. rewrite cap_set_cap_ne; [reflexivity|]. intros ->. apply Hn'. left. reflexivity.
    + intros _. constructor; [|constructor].
      exists (pos st), (Datatypes.S (pos st)). rewrite cap_set_cap_eq.
      repeat split; auto; try lia. * apply Hwf'. * exists x. auto.
  - destruct (Nat.eqb (pos st) 0); [|discriminate].
    exists st. simpl. repeat split; auto; try apply Hwf; lia.
  - destruct (rest st); [|discriminate].
    exists st. simpl. repeat split; auto; try apply Hwf; lia.
  - destruct (xorb _ _); [|discriminate].
    exists st. simpl. repeat split; auto; try apply Hwf; lia.
  - destruct (m ic a st Some) as [st1|] eqn:Ha; [|discriminate].
    destruct (IHa _ _ _ Hwf Ha) as (st2 & H2 & _ & _ & Hc2 & _). injection H2 as ->.
    exists (MState (pos st) (prev st) (rest st) (caps st1)). simpl.
    repeat split; auto; try apply Hwf; try lia.
Qed.

Lemma m_inv (r : regex) :
  forall st k res,
  wf s st ->
  m ic r st k = Some res ->
  exists st', k st' = Some res /\ wf s st' /\ pos st + min_len r <= pos st' /\
              forall n, ~ In n (groups r) -> cap n st' = cap n st.
Proof.
  intros st k res Hwf H.
  destruct (m_inv_strong r st k res Hwf H) as (st' & H1 & H2 & H3 & H4 & _).
  exists st'. auto.
Qed.

Lemma m_seq_cons (r : regex) (rs : list regex) (st : mstate) (k : cont) :
  m ic (seq (r :: rs)) st k = m ic r st (fun st' => m ic (seq rs) st' k).
Proof. destruct rs; reflexivity. Qed.

(** The invariant across the first part of a sequence. *)
Lemma seq_inv (a b : list regex) :
  forall st k res,
  wf s st ->
  m ic (seq (a ++ b)) st k = Some res ->
  exists st', m ic (seq b) st' k = Some res /\ wf s st' /\ pos st <= pos st' /\
              forall n, ~ In n (flat_map groups a) -> cap n st' = cap n st.
Proof.
  induction a as [|r a IH]; intros st k res Hwf H.
  - exists st. repeat split; auto; apply Hwf.
  - change ((r :: a) ++ b) with (r :: (a ++ b)) in H. rewrite m_seq_cons in H.
    destruct (m_inv r _ _ _ Hwf H) as (st1 & H1 & Hwf1 & Hp1 & Hc1).
    destruct (IH _ _ _ Hwf1 H1) as (st2 & H2 & Hwf2 & Hp2 & Hc2).
    exists st2. repeat split; auto; try apply Hwf2; try lia.
    intros n Hn. simpl in Hn. rewrite Hc2, Hc1; auto; intros Hin; apply Hn, in_or_app; auto.
Qed.

(** One character. *)
Lemma char_inv (cl : cclass) (st : mstate) (k : cont) (res : mstate) :
  wf s st ->
  m ic (RChar cl) st k = Some res ->
  exists x xs, rest st = x :: xs /\ class_matches ic cl x = true /\
               wf s (advance x xs st) /\ k (advance x xs st) = Some res.
Proof.
  intros Hwf H. simpl in H.
  destruct (rest st) as [|x xs] eqn:Hr; [discriminate|].
  destruct (class_matches ic cl x) eqn:Hx; [|discriminate].
  exists x, xs. destruct (wf_advance st x xs Hwf Hr) as [Hwf' _]. auto.
Qed.

(** The search of [scan] finds its match at an index of the input. *)
Lemma scan_inv (r : regex) (l : jsstring) :
  forall p pv q st,
  l = skipn p s -> p <= List.length s ->
  scan ic r p pv l = Some (q, st) ->
  exists pv', q <= List.length s /\ match_at ic r q pv' (skipn q s) = Some st.
Proof.
  induction l as [|x xs IH]; intros p pv q st Hl Hp H; simpl in H.
  - destruct (match_at ic r p pv []) as [st'|] eqn:Hm; [|discriminate].
    injection H as <- <-. exists pv. rewrite <- Hl. auto.
  - destruct (match_at ic r p pv (x :: xs)) as [st'|] eqn:Hm.
    + injection H as <- <-. exists pv. rewrite <- Hl. auto.
    + assert (Hwf : wf s (MState p pv (x :: xs) [])) by (split; simpl; auto).
      destruct (wf_advance _ x xs Hwf eq_refl) as [[Hr' Hp'] _]. simpl in *.
      apply (IH (Datatypes.S p) (Some x) q st Hr' Hp' H).
Qed.

End Matcher.

(** ** Character classes under the [i] flag *)

Ltac bprop :=
  repeat (rewrite ?orb_true_iff, ?andb_true_iff, ?N.leb_le, ?N.eqb_eq in * ).

Lemma canonicalize_cases (c : char) :
  (canonicalize c = c /\ ~ (97 <= c <= 122)%N /\ c <> 0xF5%N) \/
  ((97 <= c <= 122)%N /\ canonicalize c = (c - 32)%N) \/
  (c = 0xF5%N /\ canonicalize c = 0xD5%N).
Proof.
  unfold canonicalize.
  destruct ((97 <=? c) && (c <=? 122))%N eqn:E.
  - right. left. bprop. split; [lia | reflexivity].
  - destruct (N.eqb_spec c 0xF5) as [->|Hne].
    + right. right. split; reflexivity.
    + left. repeat split; auto. intros H.
      apply not_true_iff_false in E. apply E. bprop. lia.
Qed.

Lemma uncanonicalize_cases (c : char) :
  (uncanonicalize c = c /\ ~ (65 <= c <= 90)%N /\ c <> 0xD5%N) \/
  ((65 <= c <= 90)%N /\ uncanonicalize c = (c + 32)%N) \/
  (c = 0xD5%N /\ uncanonicalize c = 0xF5%N).
Proof.
  unfold uncanonicalize.
  destruct ((65 <=? c) && (c <=? 90))%N eqn:E.
  - right. left. bprop. split; [lia | reflexivity].
  - destruct (N.eqb_spec c 0xD5) as [->|Hne].
    + right. right. split; reflexivity.
    + left. repeat split; auto. intros H.
      apply not_true_iff_false in E. apply E. bprop. lia.
Qed.

Lemma isWhiteSpace_spec (c : char) :
  isWhiteSpace c = true <->
  ((9 <= c <= 13) \/ c = 32 \/ c = 0xA0 \/ c = 0x1680 \/ (0x2000 <= c <= 0x200A)
   \/ c = 0x2028 \/ c = 0x2029 \/ c = 0x202F \/ c = 0x205F \/ c = 0x3000 \/ c = 0xFEFF)%N.
Proof. unfold isWhiteSpace. bprop. lia. Qed.

Lemma isLineTerminator_spec (c : char) :
  isLineTerminator c = true <-> (c = 10 \/ c = 13 \/ c = 0x2028 \/ c = 0x2029)%N.
Proof. unfold isLineTerminator. bprop. lia. Qed.

Lemma bool_eq_iff (a b : bool) : (a = true <-> b = true) -> a = b.
Proof. destruct a, b; intuition congruence. Qed.

(** Case folding never turns a letter into white space or a line end. *)
Lemma space_class (c : char) : class_matches true CSpace c = isWhiteSpace c.
Proof.
  unfold class_matches. cbn [in_set]. apply bool_eq_iff. bprop.
  rewrite !isWhiteSpace_spec.
  destruct (canonicalize_cases c) as [(E & _)|[(? & E)|(? & E)]];
    destruct (uncanonicalize_cases c) as [(E' & _)|[(? & E')|(? & E')]];
    rewrite E, E'; lia.
Qed.

Lemma dot_class (c : char) : class_matches true CDot c = negb (isLineTerminator c).
Proof.
  unfold class_matches. simpl.
  destruct (isLineTerminator c) eqn:Hc; simpl.
  - apply isLineTerminator_spec in Hc.
    destruct Hc as [-> | [-> | [-> | ->]]]; reflexivity.
  - reflexivity.
Qed.

Lemma line_terminator_is_space (c : char) :
  isLineTerminator c = true -> isWhiteSpace c = true.
Proof. rewrite isLineTerminator_spec, isWhiteSpace_spec. lia. Qed.

Lemma not_space_dot (c : char) : isWhiteSpace c = false -> class_matches true CDot c = true.
Proof.
  intros H. rewrite dot_class. destruct (isLineTerminator c) eqn:E; [|reflexivity].
  apply line_terminator_is_space in E. congruence.
Qed.

(** A literal under the [i] flag matches its two cases. *)
Lemma literal_class (a c : char) :
  class_matches true (CChar a) c = true ->
  c = a \/ canonicalize c = a \/ uncanonicalize c = a.
Proof.
  unfold class_matches. cbn [in_set]. bprop. intuition.
Qed.

Lemma letter_D_class (c : char) :
  class_matches true (CChar 68) c = true -> c = 68%N \/ c = 100%N.
Proof.
  intros H. apply literal_class in H.
  destruct (canonicalize_cases c) as [(E & _)|[(? & E)|(? & E)]];
    destruct (uncanonicalize_cases c) as [(E' & _)|[(? & E')|(? & E')]];
    rewrite E, E' in H; lia.
Qed.

Lemma punct_class (a c : char) :
  (a < 65)%N ->
  class_matches true (CChar a) c = true -> c = a.
Proof.
  intros Ha H. apply literal_class in H.
  destruct (canonicalize_cases c) as [(E & _)|[(? & E)|(? & E)]];
    destruct (uncanonicalize_cases c) as [(E' & _)|[(? & E')|(? & E')]];
    rewrite E, E' in H; lia.
Qed.

Lemma dot_or_paren_class (c : char) :
  class_matches true dot_or_paren c = true -> c = 46%N \/ c = 41%N.
Proof.
  unfold class_matches, dot_or_paren.
  change (chr ".") with (CChar 46). change (chr ")") with (CChar 41).
  cbn [in_set]. bprop.
  destruct (canonicalize_cases c) as [(E & _)|[(? & E)|(? & E)]];
    destruct (uncanonicalize_cases c) as [(E' & _)|[(? & E')|(? & E')]];
    rewrite E, E'; lia.
Qed.

(** The answer letter, upper-cased, is one of A, B, C, D. *)
Lemma answer_letter_class (c : char) :
  class_matches true answer_letter c = true -> In (toUpperCase [c]) answer_letters.
Proof.
  unfold class_matches, answer_letter. cbn [in_set]. bprop. intros H.
  assert (Hc : (c = 65 \/ c = 66 \/ c = 67 \/ c = 68 \/ c = 97 \/ c = 98 \/ c = 99 \/ c = 100)%N).
  { destruct (canonicalize_cases c) as [(E & _)|[(? & E)|(? & E)]];
      destruct (uncanonicalize_cases c) as [(E' & _)|[(? & E')|(? & E')]];
      rewrite E, E' in H; lia. }
  destruct Hc as [-> | [-> | [-> | [-> | [-> | [-> | [-> | ->]]]]]]]; vm_compute; tauto.
Qed.

(** ** Trimmed strings *)

Lemma trimStart_head (l : jsstring) :
  match trimStart l with
  | [] => True
  | c :: _ => isWhiteSpace c = false
  end.
Proof.
  induction l as [|x xs IH]; simpl; [exact Logic.I|].
  destruct (isWhiteSpace x) eqn:Hx; [exact IH | exact Hx].
Qed.

Lemma trim_last (text pre : jsstring) (c : char) :
  trim text = pre ++ [c] -> isWhiteSpace c = false.
Proof.
  unfold trim. intros H.
  apply (f_equal (@rev char)) in H. rewrite rev_involutive, rev_app_distr in H. simpl in H.
  pose proof (trimStart_head (rev (trimStart text))) as Hh. rewrite H in Hh. exact Hh.
Qed.

(** ** The end of the option patterns *)

Section Quantifiers.

Variable ic : bool.
Variable s : jsstring.

(** A lazy [+] stops after one code unit when what follows succeeds there. *)
Lemma lazy_plus_first (cl : cclass) (st : mstate) (k : cont) (c : char) (xs : jsstring)
    (r : mstate) :
  rest st = c :: xs -> class_matches ic cl c = true ->
  k (advance c xs st) = Some r ->
  m ic (lazy_plus cl) st k = Some r.
Proof.
  intros Hr Hc Hk. unfold lazy_plus. simpl. rewrite Hr. simpl. rewrite Hc.
  destruct xs; simpl; rewrite Hk; reflexivity.
Qed.

(** A repetition with a positive minimum needs a code unit of its class. *)
Lemma plus_needs_char (g : bool) (lo : nat) (hi : option nat) (cl : cclass)
    (st : mstate) (k : cont) (res : mstate) :
  m ic (RRep g (Datatypes.S lo) hi cl) st k = Some res ->
  exists c xs, rest st = c :: xs /\ class_matches ic cl c = true.
Proof.
  intros H. simpl in H.
  destruct (rep_some ic g cl (rest st) _ _ st k res eq_refl H) as (n & Hlo & Hn & _).
  destruct (rest st) as [|c xs]; simpl in Hn; [lia|].
  destruct (class_matches ic cl c) eqn:Hc; [|lia]. eauto.
Qed.

(** The optional group always lets the match end. *)
Lemma opt_total (a : regex) (st : mstate) : exists r, m ic (ROpt a) st Some = Some r.
Proof. simpl. destruct (m ic a st _); eauto. Qed.

(** A run of single characters. *)
Lemma chars_inv (body : list cclass) (b : list regex) :
  forall st k res,
  wf s st ->
  m ic (seq (map RChar body ++ b)) st k = Some res ->
  exists mark st',
    Forall2 (fun cl x => class_matches ic cl x = true) body mark /\
    rest st = mark ++ rest st' /\ pos st' = pos st + List.length mark /\
    wf s st' /\ m ic (seq b) st' k = Some res.
Proof.
  induction body as [|cl body IH]; intros st k res Hwf H.
  - exists [], st. simpl. rewrite Nat.add_0_r. repeat split; auto; apply Hwf.
  - change (map RChar (cl :: body) ++ b) with (RChar cl :: (map RChar body ++ b)) in H.
    rewrite m_seq_cons in H.
    destruct (char_inv ic s cl st _ res Hwf H) as (x & xs & Hr & Hx & Hwf' & Hk).
    destruct (IH _ _ _ Hwf' Hk) as (mark & st' & HF & Hrest & Hpos & Hwf'' & Hm).
    exists (x :: mark), st'. simpl in *.
    repeat split; auto; try apply Hwf''; try lia.
    rewrite Hr, Hrest. reflexivity.
Qed.

End Quantifiers.

Section OptionD.

(** The text an option pattern is matched on; it is trimmed, so it does not
    end in white space. *)
Variable s : jsstring.
Hypothesis s_trimmed : forall pre c, s = pre ++ [c] -> isWhiteSpace c = false.

Lemma tail_inv (st res : mstate) :
  wf s st ->
  m true (seq option_tail) st Some = Some res ->
  exists c xs, rest st = c :: xs /\ class_matches true CDot c = true /\
               cap 5 res = Some (pos st, Datatypes.S (pos st)).
Proof.
  intros Hwf H.
  change (m true (seq option_tail) st Some)
    with (m true (lazy_plus CDot) st
            (fun st' => m true (ROpt (seq (answer_key 6)))
                          (set_cap 5 (pos st) (pos st') st') Some)) in H.
  destruct (plus_needs_char true _ _ _ _ _ _ _ H) as (c & xs & Hr & Hc).
  exists c, xs. split; [exact Hr|]. split; [exact Hc|].
  destruct (opt_total true (seq (answer_key 6))
              (set_cap 5 (pos st) (Datatypes.S (pos st)) (advance c xs st))) as [r Hopt].
  rewrite (lazy_plus_first true CDot st _ c xs r Hr Hc Hopt) in H. injection H as <-.
  destruct (wf_advance s st c xs Hwf Hr) as [Hwf' _].
  destruct (m_inv true s _ _ _ _ (wf_set_cap s _ 5 _ _ Hwf') Hopt)
    as (st' & Hk & _ & _ & Hcap).
  injection Hk as ->. rewrite Hcap.
  - apply cap_set_cap_eq.
  - simpl. intros [E|[]]. discriminate.
Qed.

Lemma tail_total (st : mstate) (c : char) (xs : jsstring) :
  rest st = c :: xs -> class_matches true CDot c = true ->
  exists r, m true (seq option_tail) st Some = Some r.
Proof.
  intros Hr Hc.
  change (m true (seq option_tail) st Some)
    with (m true (lazy_plus CDot) st
            (fun st' => m true (ROpt (seq (answer_key 6)))
                          (set_cap 5 (pos st) (pos st') st') Some)).
  destruct (opt_total true (seq (answer_key 6))
              (set_cap 5 (pos st) (Datatypes.S (pos st)) (advance c xs st))) as [r Hopt].
  exists r. apply (lazy_plus_first true CDot st _ c xs r Hr Hc Hopt).
Qed.

(** From the D marker to the end of the pattern: white space, the marker
    [body], white space, then one captured code unit that is not white
    space. *)
Lemma marker_then_tail (body : list cclass) (st1 res : mstate) :
  wf s st1 ->
  m true (seq ([plus CSpace] ++ map RChar body ++ [star CSpace] ++ option_tail)) st1 Some
    = Some res ->
  exists a mark p c,
    Forall2 (fun cl x => class_matches true cl x = true) body mark /\
    substring s a (a + List.length mark) = mark /\
    Forall (fun w => isWhiteSpace w = true) (substring s (a + List.length mark) p) /\
    a + List.length mark <= p /\
    s !! p = Some c /\ isWhiteSpace c = false /\
    cap 5 res = Some (p, Datatypes.S p).
Proof.
  intros Hwf1 H.
  change ([plus CSpace] ++ map RChar body ++ [star CSpace] ++ option_tail)
    with (plus CSpace :: (map RChar body ++ (star CSpace :: option_tail))) in H.
  rewrite m_seq_cons in H.
  destruct (m_inv true s _ _ _ _ Hwf1 H) as (st2 & H2 & Hwf2 & _ & _).
  destruct (chars_inv true s body _ _ _ _ Hwf2 H2) as (mark & st4 & HF & Hrest & Hpos & Hwf4 & H4).
  rewrite m_seq_cons in H4.
  change (m true (star CSpace) st4 (fun st' => m true (seq option_tail) st' Some))
    with (rep true true CSpace 0 None (rest st4) st4
            (fun st' => m true (seq option_tail) st' Some)) in H4.
  destruct (rep_greedy_max true CSpace (rest st4) 0 st4 _ res eq_refl H4)
    as (n & _ & Hn & Hk & Hmax).
  set (len := class_len true CSpace (rest st4)) in *.
  pose proof (class_len_le true CSpace (rest st4)) as Hlen. fold len in Hlen.
  destruct (forward_spec s len st4 Hwf4 Hlen) as (HwfN & HposN & HrestN & _).
  pose proof (class_len_stop true CSpace (rest st4)) as Hstop. fold len in Hstop.
  rewrite <- HrestN in Hstop.
  assert (Hspaces : Forall (fun w => isWhiteSpace w = true) (firstn len (rest st4))).
  { eapply Forall_impl;
      [apply (class_len_Forall true CSpace (rest st4) len); unfold len; lia|].
    intros w Hw. cbv beta in Hw. rewrite space_class in Hw. exact Hw. }
  destruct (rest (forward len st4)) as [|c xs] eqn:HrN.
  - (* the white space runs to the end of the text *)
    exfalso.
    assert (Hall : rest st4 = firstn len (rest st4)).
    { rewrite <- (firstn_skipn len (rest st4)) at 1. rewrite <- HrestN, app_nil_r. reflexivity. }
    destruct (Nat.eq_dec n len) as [->|Hne].
    + destruct (tail_inv _ _ HwfN Hk) as (c & xs & Hr & _). congruence.
    + assert (Hcase : rest st4 = [] \/ exists pre w, rest st4 = pre ++ [w]).
      { generalize (rest st4). intros l. induction l as [|w pre _] using rev_ind;
          [left; reflexivity | right; eauto]. }
      destruct Hcase as [Hnil|(pre & w & Hsnoc)].
      * rewrite Hnil in Hlen. simpl in Hlen. lia.
      * assert (Hw : isWhiteSpace w = true).
        { rewrite <- Hall, Hsnoc in Hspaces. apply Forall_app in Hspaces.
          destruct Hspaces as [_ Hlast]. inversion Hlast; assumption. }
        assert (Hs : s = (firstn (pos st4) s ++ pre) ++ [w]).
        { rewrite <- app_assoc, <- Hsnoc. destruct Hwf4 as [-> _].
          symmetry. apply firstn_skipn. }
        rewrite (s_trimmed _ _ Hs) in Hw. discriminate.
  - assert (Hc : isWhiteSpace c = false) by (rewrite <- space_class; exact Hstop).
    assert (n = len).
    { destruct (Nat.eq_dec n len) as [|Hne]; [assumption|].
      destruct (tail_total _ c xs HrN (not_space_dot c Hc)) as [r Hr].
      rewrite (Hmax len) in Hr; [discriminate | lia | lia]. }
    subst n.
    destruct (tail_inv _ _ HwfN Hk) as (c' & xs' & Hr' & _ & Hcap).
    destruct (wf_advance s _ c xs HwfN HrN) as [_ Hlook].
    exists (pos st2), mark, (pos (forward len st4)), c.
    split; [exact HF|]. split; [|split; [|split; [|split; [|split]]]]; auto.
    + unfold substring. rewrite Nat.add_sub'. destruct Hwf2 as [<- _].
      rewrite Hrest. apply take_app_length.
    + unfold substring. rewrite <- Hpos, HposN, Nat.add_sub'.
      destruct Hwf4 as [<- _]. exact Hspaces.
    + lia.
Qed.

End OptionD.

(** ** The option-D capture of the fallback grammars *)

Lemma substring_one (s : jsstring) (p : nat) (c : char) :
  s !! p = Some c -> substring s p (Datatypes.S p) = [c].
Proof.
  intros H. unfold substring.
  replace (Datatypes.S p - p) with 1 by lia.
  change (skipn p s) with (drop p s). rewrite (drop_S s c p H). reflexivity.
Qed.

Lemma match_at_wf (s : jsstring) (q : nat) (pv : option char) :
  q <= List.length s -> wf s (MState q pv (skipn q s) []).
Proof. intros H. split; simpl; auto. Qed.

Lemma lettered_D_markers (mark : jsstring) :
  Forall2 (fun cl x => class_matches true cl x = true) lettered_D mark ->
  In mark d_markers.
Proof.
  intros H. inversion H as [|cl1 x l1 l1' Hx H1]; subst.
  inversion H1 as [|cl2 y l2 l2' Hy H2]; subst. inversion H2; subst.
  apply letter_D_class in Hx. apply dot_or_paren_class in Hy.
  destruct Hx as [-> | ->]; destruct Hy as [-> | ->]; vm_compute; tauto.
Qed.

Lemma parenthesized_D_markers (mark : jsstring) :
  Forall2 (fun cl x => class_matches true cl x = true) parenthesized_D mark ->
  In mark d_markers.
Proof.
  intros H. inversion H as [|cl1 x l1 l1' Hx H1]; subst.
  inversion H1 as [|cl2 y l2 l2' Hy H2]; subst.
  inversion H2 as [|cl3 z l3 l3' Hz H3]; subst. inversion H3; subst.
  apply punct_class in Hx; [|reflexivity]. apply letter_D_class in Hy.
  apply punct_class in Hz; [|reflexivity].
  subst x z. destruct Hy as [-> | ->]; vm_compute; tauto.
Qed.

(** One option pattern matched on a trimmed text. *)
Lemma option_pattern_D (head : list regex) (body : list cclass) (text : jsstring)
    (start : nat) (optMatch : mstate) :
  string_match true
    (seq (head ++ [plus CSpace] ++ map RChar body ++ [star CSpace] ++ option_tail))
    (trim text) = Some (start, optMatch) ->
  exists a mark p c,
    Forall2 (fun cl x => class_matches true cl x = true) body mark /\
    substring (trim text) a (a + List.length mark) = mark /\
    Forall (fun w => isWhiteSpace w = true)
           (substring (trim text) (a + List.length mark) p) /\
    a + List.length mark <= p /\
    trim text !! p = Some c /\ isWhiteSpace c = false /\
    cap 5 optMatch = Some (p, Datatypes.S p).
Proof.
  intros H. unfold string_match in H.
  destruct (scan_inv true (trim text) _ _ 0 None start optMatch eq_refl
              (Nat.le_0_l _) H) as (pv & Hstart & Hm).
  unfold match_at in Hm.
  destruct (seq_inv true (trim text) head _ _ _ _ (match_at_wf _ _ pv Hstart) Hm)
    as (st1 & H1 & Hwf1 & _ & _).
  apply (marker_then_tail (trim text) (trim_last text) body st1 optMatch Hwf1 H1).
Qed.

(** C10. Whenever one of the two option patterns of the fallback segmenter
    matches the (trimmed) remainder of a block, the option-D capture is
    exactly one code unit: the first one after the D marker that is not
    white space. *)
Theorem option_D_is_one_character (text : jsstring) (optMatch : mstate) :
  first_option_match optionPatterns (trim text) = Some optMatch ->
  exists a d p c,
    In (substring (trim text) a d) d_markers /\
    Forall (fun w => isWhiteSpace w = true) (substring (trim text) d p) /\
    d <= p /\
    trim text !! p = Some c /\ isWhiteSpace c = false /\
    group (trim text) 5 optMatch = Some [c].
Proof.
  intros H.
  assert (Hcases :
    exists body, (body = lettered_D \/ body = parenthesized_D) /\
    exists a mark p c,
      Forall2 (fun cl x => class_matches true cl x = true) body mark /\
      substring (trim text) a (a + List.length mark) = mark /\
      Forall (fun w => isWhiteSpace w = true)
             (substring (trim text) (a + List.length mark) p) /\
      a + List.length mark <= p /\
      trim text !! p = Some c /\ isWhiteSpace c = false /\
      cap 5 optMatch = Some (p, Datatypes.S p)).
  { unfold optionPatterns, first_option_match in H.
    destruct (string_match true (seq (option_items lettered)) (trim text))
      as [[start1 m1]|] eqn:H1.
    - injection H as <-. exists lettered_D. split; [left; reflexivity|].
      apply (option_pattern_D (option_head lettered) lettered_D text start1 m1 H1).
    - destruct (string_match true (seq (option_items parenthesized)) (trim text))
        as [[start2 m2]|] eqn:H2; [|discriminate].
      injection H as <-. exists parenthesized_D. split; [right; reflexivity|].
      apply (option_pattern_D (option_head parenthesized) parenthesized_D text start2 m2 H2). }
  destruct Hcases as (body & Hbody & a & mark & p & c & HF & Hmark & Hsp & Hle & Hc & Hns & Hcap).
  exists a, (a + List.length mark), p, c.
  split; [|split; [exact Hsp|split; [exact Hle|split; [exact Hc|split; [exact Hns|]]]]].
  - rewrite Hmark. destruct Hbody as [-> | ->];
      [apply lettered_D_markers | apply parenthesized_D_markers]; exact HF.
  - unfold group. rewrite Hcap, (substring_one _ _ _ Hc). reflexivity.
Qed.

Lemma option_D_is_one_character_witness :
  exists optMatch a d p c,
    first_option_match optionPatterns (trim two_digit_option) = Some optMatch /\
    In (substring (trim two_digit_option) a d) d_markers /\
    Forall (fun w => isWhiteSpace w = true) (substring (trim two_digit_option) d p) /\
    d <= p /\
    trim two_digit_option !! p = Some c /\ isWhiteSpace c = false /\
    group (trim two_digit_option) 5 optMatch = Some [c].
Proof.
  destruct (first_option_match optionPatterns (trim two_digit_option))
    as [optMatch|] eqn:H; [|vm_compute in H; discriminate].
  destruct (option_D_is_one_character two_digit_option optMatch H)
    as (a & d & p & c & H1 & H2 & H3 & H4 & H5 & H6).
  exists optMatch, a, d, p, c. auto 10.
Defined.

(** ** Records *)

Section Captures.

Variable s : jsstring.

(** Every match found by the [exec] loop is a match at an index of the
    input. *)
Lemma exec_all_inv (ic : bool) (r : regex) (l : jsstring) :
  forall p pv skip st,
  l = skipn p s -> p <= List.length s ->
  In st (exec_all_go ic r p pv l skip) ->
  exists q pv', q <= List.length s /\ match_at ic r q pv' (skipn q s) = Some st.
Proof.
  induction l as [|x xs IH]; intros p pv skip st Hl Hp Hin.
  - destruct skip; simpl in Hin; [|contradiction].
    destruct (match_at ic r p pv []) as [st'|] eqn:Hm; [|contradiction].
    destruct Hin as [<-|[]]. exists p, pv. rewrite <- Hl. auto.
  - assert (Hwf : wf s (MState p pv (x :: xs) [])) by (split; simpl; auto).
    destruct (wf_advance s _ x xs Hwf eq_refl) as [[Hr' Hp'] _]. simpl in Hr', Hp'.
    destruct skip as [|skip]; simpl in Hin.
    + destruct (match_at ic r p pv (x :: xs)) as [st'|] eqn:Hm.
      * destruct Hin as [<-|Hin].
        -- exists p, pv. rewrite <- Hl. auto.
        -- apply (IH _ _ _ _ Hr' Hp' Hin).
      * apply (IH _ _ _ _ Hr' Hp' Hin).
    + apply (IH _ _ _ _ Hr' Hp' Hin).
Qed.

Lemma substring_nonempty (b e : nat) :
  b + 1 <= e -> e <= List.length s -> substring s b e <> [].
Proof.
  intros Hb He Hnil. apply (f_equal (@List.length char)) in Hnil.
  unfold substring in Hnil. rewrite length_firstn, length_skipn in Hnil. simpl in Hnil. lia.
Qed.

Lemma captured_text (ic : bool) (st : mstate) (n len : nat) :
  1 <= len -> captured ic s st (n, len, None) ->
  exists g, group s n st = Some g /\ g <> [].
Proof.
  intros Hlen (b & e & Hc & Hb & He & _). unfold group. rewrite Hc.
  eexists. split; [reflexivity|]. apply substring_nonempty; lia.
Qed.

Lemma captured_char (ic : bool) (st : mstate) (n len : nat) (cl : cclass) :
  captured ic s st (n, len, Some cl) ->
  exists x, group s n st = Some [x] /\ class_matches ic cl x = true.
Proof.
  intros (b & e & Hc & _ & _ & -> & x & Hx & Hcl). exists x. unfold group.
  rewrite Hc, (substring_one s b x Hx). auto.
Qed.

Lemma groups_NoDup (r : regex) : bool_decide (NoDup (groups r)) = true -> NoDup (groups r).
Proof. apply bool_decide_eq_true. Qed.

(** The answer capture of the structured patterns is one letter of
    [[A-Da-d]]. *)
Lemma structured_answer (pattern : regex) (q : nat) (pv : option char) (mt : mstate) :
  In pattern patterns -> q <= List.length s ->
  match_at true pattern q pv (skipn q s) = Some mt ->
  exists x, group s 7 mt = Some [x] /\ class_matches true answer_letter x = true.
Proof.
  intros Hpat Hq Hm. unfold match_at in Hm.
  destruct (m_inv_strong true s pattern _ _ _ (match_at_wf s q pv Hq) Hm)
    as (st' & Hk & _ & _ & _ & Hsure).
  injection Hk as ->.
  assert (Hin : In (7, 1, Some answer_letter) (sure pattern)).
  { destruct Hpat as [<-|[<-|[]]]; vm_compute; repeat (try (left; reflexivity); right). }
  assert (Hnd : NoDup (groups pattern)).
  { apply groups_NoDup. destruct Hpat as [<-|[<-|[]]]; vm_compute; reflexivity. }
  apply (captured_char true mt 7 1 answer_letter).
  revert Hin. apply List.Forall_forall. exact (Hsure Hnd).
Qed.

(** The captures of the option patterns: the four option texts are not
    empty, and the answer, when captured, is one letter of [[A-Da-d]]. *)
Lemma option_captures (pattern : regex) (q : nat) (pv : option char) (optMatch : mstate) :
  In pattern optionPatterns -> q <= List.length s ->
  match_at true pattern q pv (skipn q s) = Some optMatch ->
  (forall n, In n [2; 3; 4; 5] -> exists g, group s n optMatch = Some g /\ g <> []) /\
  (group s 6 optMatch = None \/
   exists x, group s 6 optMatch = Some [x] /\ class_matches true answer_letter x = true).
Proof.
  intros Hpat Hq Hm. unfold match_at in Hm. split.
  - destruct (m_inv_strong true s pattern _ _ _ (match_at_wf s q pv Hq) Hm)
      as (st' & Hk & _ & _ & _ & Hsure).
    injection Hk as ->.
    assert (Hnd : NoDup (groups pattern)).
    { apply groups_NoDup. destruct Hpat as [<-|[<-|[]]]; vm_compute; reflexivity. }
    intros n Hn. apply (captured_text true optMatch n 1 (Nat.le_refl 1)).
    assert (Hin : In (n, 1, None) (sure pattern)).
    { destruct Hpat as [<-|[<-|[]]]; destruct Hn as [<-|[<-|[<-|[<-|[]]]]];
        vm_compute; repeat (try (left; reflexivity); right). }
    revert Hin. apply List.Forall_forall. exact (Hsure Hnd).
  - assert (Hsplit : exists init, pattern = seq (init ++ [ROpt (seq (answer_key 6))]) /\
                                  ~ In 6 (flat_map groups init)).
    { destruct Hpat as [<-|[<-|[]]].
      - exists (option_head lettered ++ lettered "D" ++ [field 5]).
        split; [reflexivity|]. vm_compute. intuition discriminate.
      - exists (option_head parenthesized ++ parenthesized "D" ++ [field 5]).
        split; [reflexivity|]. vm_compute. intuition discriminate. }
    destruct Hsplit as (init & -> & Hfree).
    destruct (seq_inv true s init _ _ _ _ (match_at_wf s q pv Hq) Hm)
      as (st1 & H1 & Hwf1 & _ & Hframe).
    specialize (Hframe 6 Hfree). change (seq [ROpt (seq (answer_key 6))])
      with (ROpt (seq (answer_key 6))) in H1.
    cbn [m] in H1.
    match type of H1 with match ?e with _ => _ end = _ => destruct e as [r|] eqn:Hinner end.
    + injection H1 as ->. right.
      destruct (m_inv_strong true s _ _ _ _ Hwf1 Hinner) as (st' & Hk & _ & _ & _ & Hsure).
      destruct (Nat.eqb (pos st') (pos st1)); [discriminate|]. injection Hk as ->.
      apply (captured_char true optMatch 6 1 answer_letter).
      assert (Hin : In (6, 1, Some answer_letter) (sure (seq (answer_key 6)))).
      { vm_compute. repeat (try (left; reflexivity); right). }
      revert Hin. apply List.Forall_forall. apply Hsure.
      apply groups_NoDup. vm_compute. reflexivity.
    + injection H1 as ->. left. unfold group. rewrite Hframe. reflexivity.
Qed.

End Captures.

Lemma truthy_nonempty (g : jsstring) : truthy g = true -> g <> [].
Proof. destruct g; [discriminate | discriminate]. Qed.

(** A record of the structured extractor. *)
Lemma structured_record_inv (sourcePdf cleaned : jsstring) (pattern : regex) (mt : mstate)
    (q : Question) :
  In pattern patterns ->
  In mt (exec_all true pattern cleaned) ->
  In q (structured_record sourcePdf cleaned mt) ->
  In (answer q) answer_letters /\
  exists questionText optA optB optC optD, cleaned_from q questionText optA optB optC optD.
Proof.
  intros Hpat Hmt Hq.
  destruct (exec_all_inv cleaned true pattern cleaned 0 None 0 mt eq_refl (Nat.le_0_l _) Hmt)
    as (p & pv & Hp & Hm).
  destruct (structured_answer cleaned pattern p pv mt Hpat Hp Hm) as (x & Hx & Hcl).
  unfold structured_record in Hq. rewrite Hx in Hq.
  destruct (group cleaned 1 mt) as [num|]; [|contradiction].
  destruct (group cleaned 2 mt) as [questionText|]; [|contradiction].
  destruct (group cleaned 3 mt) as [optA|]; [|contradiction].
  destruct (group cleaned 4 mt) as [optB|]; [|contradiction].
  destruct (group cleaned 5 mt) as [optC|]; [|contradiction].
  destruct (group cleaned 6 mt) as [optD|]; [|contradiction].
  destruct (truthy questionText) eqn:T1; [|contradiction].
  destruct (truthy optA) eqn:T2; [|contradiction].
  destruct (truthy optB) eqn:T3; [|contradiction].
  destruct (truthy optC) eqn:T4; [|contradiction].
  destruct (truthy optD) eqn:T5; [|contradiction].
  simpl in Hq. destruct Hq as [<-|[]]. simpl. split.
  - apply (answer_letter_class x Hcl).
  - exists questionText, optA, optB, optC, optD.
    unfold cleaned_from. simpl. auto 10 using truthy_nonempty.
Qed.

Lemma first_option_match_inv (ps : list regex) (remaining : jsstring) (optMatch : mstate) :
  first_option_match ps remaining = Some optMatch ->
  exists pattern start, In pattern ps /\
                        string_match true pattern remaining = Some (start, optMatch).
Proof.
  induction ps as [|p ps IH]; simpl; [discriminate|].
  destruct (string_match true p remaining) as [[start st]|] eqn:Hm.
  - intros H. injection H as <-. exists p, start. auto.
  - intros H. destruct (IH H) as (pattern & start & Hin & Hs). exists pattern, start. auto.
Qed.

(** A record of the fallback segmenter. *)
Lemma flexible_block_inv (sourcePdf block : jsstring) (q : Question) :
  In q (flexible_block sourcePdf block) ->
  In (answer q) answer_letters /\
  exists questionText optA optB optC optD,
    cleaned_from q questionText optA optB optC optD /\ 10 < List.length questionText.
Proof.
  unfold flexible_block. intros Hq.
  destruct (List.length (trim block) <? 20); [contradiction|].
  destruct (string_match false number_prefix block) as [[start numMatch]|]; [|contradiction].
  set (remaining := trim (skipn (pos numMatch - start) block)) in *.
  destruct (first_option_match optionPatterns remaining) as [optMatch|] eqn:Hfirst;
    [|contradiction].
  destruct (first_option_match_inv _ _ _ Hfirst) as (pattern & st & Hpat & Hs).
  unfold string_match in Hs.
  destruct (scan_inv true remaining _ _ 0 None st optMatch eq_refl (Nat.le_0_l _) Hs)
    as (pv & Hst & Hm).
  destruct (option_captures remaining pattern st pv optMatch Hpat Hst Hm) as [Hopts Hans].
  unfold flexible_record in Hq.
  match type of Hq with In _ (if (10 <? List.length ?t) then _ else _) =>
    set (questionText := t) in *; destruct (Nat.ltb_spec 10 (List.length questionText)) as [Hlen|]
  end; [|contradiction].
  destruct Hq as [<-|[]]. simpl. split.
  - destruct Hans as [-> | (x & -> & Hcl)]; [vm_compute; tauto|].
    simpl. apply (answer_letter_class x Hcl).
  - destruct (Hopts 2 ltac:(simpl; tauto)) as (optA & -> & HA).
    destruct (Hopts 3 ltac:(simpl; tauto)) as (optB & -> & HB).
    destruct (Hopts 4 ltac:(simpl; tauto)) as (optC & -> & HC).
    destruct (Hopts 5 ltac:(simpl; tauto)) as (optD & -> & HD).
    exists questionText, optA, optB, optC, optD. split; [|exact Hlen].
    unfold cleaned_from. simpl. repeat split; auto.
    intros E. rewrite E in Hlen. simpl in Hlen. lia.
Qed.

(** A record of the structured extractor, with the match it comes from. *)
Lemma structured_record_built (sourcePdf cleaned : jsstring) (mt : mstate) (q : Question) :
  In q (structured_record sourcePdf cleaned mt) ->
  built_from q cleaned mt 2 (fun g => g) 0.
Proof.
  unfold structured_record. intros Hq.
  destruct (group cleaned 1 mt) as [num|]; [|contradiction].
  destruct (group cleaned 2 mt) as [questionText|] eqn:G2; [|contradiction].
  destruct (group cleaned 3 mt) as [optA|] eqn:G3; [|contradiction].
  destruct (group cleaned 4 mt) as [optB|] eqn:G4; [|contradiction].
  destruct (group cleaned 5 mt) as [optC|] eqn:G5; [|contradiction].
  destruct (group cleaned 6 mt) as [optD|] eqn:G6; [|contradiction].
  destruct (group cleaned 7 mt) as [ans|]; [|contradiction].
  destruct (truthy questionText) eqn:T1; [|contradiction].
  destruct (truthy optA) eqn:T2; [|contradiction].
  destruct (truthy optB) eqn:T3; [|contradiction].
  destruct (truthy optC) eqn:T4; [|contradiction].
  destruct (truthy optD) eqn:T5; [|contradiction].
  destruct (truthy ans); [|contradiction].
  destruct Hq as [<-|[]].
  exists questionText, optA, optB, optC, optD. cbn [Nat.add question options].
  repeat split; auto using truthy_nonempty.
  destruct questionText; [discriminate | simpl; lia].
Qed.

(** A record of the fallback segmenter, with the block and the matches it
    comes from. *)
Lemma flexible_block_built (sourcePdf block : jsstring) (q : Question) :
  In q (flexible_block sourcePdf block) ->
  exists start numMatch optMatch,
    string_match false number_prefix block = Some (start, numMatch) /\
    first_option_match optionPatterns (trim (skipn (pos numMatch - start) block))
      = Some optMatch /\
    built_from q (trim (skipn (pos numMatch - start) block)) optMatch 1 trim 10.
Proof.
  unfold flexible_block. intros Hq.
  destruct (List.length (trim block) <? 20); [contradiction|].
  destruct (string_match false number_prefix block) as [[start numMatch]|]; [|contradiction].
  exists start, numMatch.
  set (remaining := trim (skipn (pos numMatch - start) block)) in *.
  destruct (first_option_match optionPatterns remaining) as [optMatch|] eqn:Hfirst;
    [|contradiction].
  exists optMatch. split; [reflexivity|]. split; [reflexivity|].
  destruct (first_option_match_inv _ _ _ Hfirst) as (pattern & st & Hpat & Hs).
  unfold string_match in Hs.
  destruct (scan_inv true remaining _ _ 0 None st optMatch eq_refl (Nat.le_0_l _) Hs)
    as (pv & Hst & Hm).
  destruct (option_captures remaining pattern st pv optMatch Hpat Hst Hm) as [Hopts _].
  unfold flexible_record in Hq.
  destruct (group remaining 1 optMatch) as [g|] eqn:G1;
    [|cbn in Hq; contradiction].
  destruct (truthy g); [|cbn in Hq; contradiction].
  destruct (Nat.ltb_spec 10 (List.length (trim g))) as [Hlen|]; [|contradiction].
  destruct Hq as [<-|[]].
  destruct (Hopts 2 ltac:(simpl; tauto)) as (optA & GA & HA).
  destruct (Hopts 3 ltac:(simpl; tauto)) as (optB & GB & HB).
  destruct (Hopts 4 ltac:(simpl; tauto)) as (optC & GC & HC).
  destruct (Hopts 5 ltac:(simpl; tauto)) as (optD & GD & HD).
  exists g, optA, optB, optC, optD. cbn [Nat.add question options].
  rewrite GA, GB, GC, GD. cbn [or_empty]. repeat split; auto.
Qed.

(** C2, as stated, fails: a question of the fallback segmenter whose
    capture has 16 characters is cleaned to "why?", and its option A, a
    watermark, to the empty text.  The guards of the code are passed before
    the texts are cleaned. *)
Lemma record_invariant_violated :
  exists q, In q (parseQuestions watermarked_question (js "a.pdf")) /\
            question q = js "why?" /\ A (options q) = [] /\ ~ record_invariant q.
Proof.
  eexists. split; [vm_compute; left; reflexivity|].
  split; [reflexivity|]. split; [reflexivity|].
  intros (Hlen & _). vm_compute in Hlen. lia.
Qed.

(** The structured extractor has no test of the question length: with
    five structured candidates a question of four characters is kept. *)
Example structured_short_question :
  exists q, In q (parseQuestions five_questions (js "a.pdf")) /\ question q = js "2+2?".
Proof. eexists. split; [vm_compute; left; reflexivity | reflexivity]. Qed.

(** C2, amended. Every record returned by [parseQuestions] has an answer
    among A, B, C, D, and it is built from a match on the normalised text:
    with five structured candidates or more, from the captures 2 to 6 of a
    match of one of the two patterns, none of them empty; otherwise from
    the captures 1 to 5 of the first option pattern that matches the
    trimmed remainder of a block after its number, the question capture
    being longer than 10 once trimmed and the option captures not empty.
    The texts of the record are the cleaned forms of these captures: the
    guards are passed before cleaning. *)
Theorem record_guards (text sourcePdf : jsstring) (q : Question) :
  In q (parseQuestions text sourcePdf) ->
  let cleaned := normalize text in
  In (answer q) answer_letters /\
  ((5 <= List.length (structured cleaned sourcePdf) /\
    exists pattern mt,
      In pattern patterns /\ In mt (exec_all true pattern cleaned) /\
      built_from q cleaned mt 2 (fun g => g) 0)
   \/
   (List.length (structured cleaned sourcePdf) < 5 /\
    exists block start numMatch optMatch,
      In block (split false boundary cleaned) /\
      string_match false number_prefix block = Some (start, numMatch) /\
      first_option_match optionPatterns (trim (skipn (pos numMatch - start) block))
        = Some optMatch /\
      built_from q (trim (skipn (pos numMatch - start) block)) optMatch 1 trim 10)).
Proof.
  intros Hq cleaned. unfold parseQuestions in Hq. fold cleaned in Hq.
  destruct (Nat.ltb_spec (List.length (structured cleaned sourcePdf)) 5) as [Hlt|Hge].
  - unfold parseQuestionsFlexible in Hq. apply in_flat_map in Hq.
    destruct Hq as (block & Hblock & Hq).
    destruct (flexible_block_inv _ _ _ Hq) as (Hans & _).
    split; [exact Hans|]. right. split; [exact Hlt|].
    destruct (flexible_block_built _ _ _ Hq) as (start & numMatch & optMatch & Hnum & Hopt & Hb).
    exists block, start, numMatch, optMatch. auto.
  - unfold structured in Hq. apply in_flat_map in Hq. destruct Hq as (pattern & Hpat & Hq).
    apply in_flat_map in Hq. destruct Hq as (mt & Hmt & Hq).
    destruct (structured_record_inv _ _ _ _ _ Hpat Hmt Hq) as (Hans & _).
    split; [exact Hans|]. left. split; [exact Hge|].
    exists pattern, mt. split; [exact Hpat|]. split; [exact Hmt|].
    apply (structured_record_built sourcePdf). exact Hq.
Qed.

Lemma record_guards_witness :
  let cleaned := normalize literal_text in
  In (answer literal_record) answer_letters /\
  ((5 <= List.length (structured cleaned (js "a.pdf")) /\
    exists pattern mt,
      In pattern patterns /\ In mt (exec_all true pattern cleaned) /\
      built_from literal_record cleaned mt 2 (fun g => g) 0)
   \/
   (List.length (structured cleaned (js "a.pdf")) < 5 /\
    exists block start numMatch optMatch,
      In block (split false boundary cleaned) /\
      string_match false number_prefix block = Some (start, numMatch) /\
      first_option_match optionPatterns (trim (skipn (pos numMatch - start) block))
        = Some optMatch /\
      built_from literal_record (trim (skipn (pos numMatch - start) block)) optMatch 1 trim 10)).
Proof.
  apply (record_guards literal_text (js "a.pdf") literal_record).
  vm_compute. left. reflexivity.
Defined.

(** ** The answer key of the fallback grammars *)

(** C4. A block that holds the answer marker "Answer: D" after a two-digit
    option D: the fallback segmenter returns the answer "A" and cuts
    option D to "6".  The option-D capture stops after one code unit, so the
    answer key is only seen when it follows that code unit directly. *)
Theorem answer_marker_missed (sourcePdf : jsstring) :
  parseQuestions two_digit_question sourcePdf =
    [ {| id := sourcePdf ++ js "-1";
         number := Integer 1;
         question := js "How much is 10 x 6?";
         options := {| A := js "30"; B := js "40"; C := js "50"; D := js "6" |};
         answer := js "A";
         source := sourcePdf |} ].
Proof. vm_compute. reflexivity. Qed.

(** ** The correction tables *)

Section Replace.

Variable ic : bool.
Variable r : regex.
Variable tpl : template.
Variable s : jsstring.

Lemma In_firstn (n : nat) (l : jsstring) (c : char) : In c (firstn n l) -> In c l.
Proof. intros H. rewrite <- (firstn_skipn n l). apply in_or_app. auto. Qed.

Lemma In_skipn (n : nat) (l : jsstring) (c : char) : In c (skipn n l) -> In c l.
Proof. intros H. rewrite <- (firstn_skipn n l). apply in_or_app. auto. Qed.

(** A replacement is made of literal text and pieces of the input. *)
Lemma expand_chars (st : mstate) (c : char) :
  In c (expand tpl s st) -> In c s \/ In c (literals tpl).
Proof.
  unfold expand, literals. induction tpl as [|t tpl' IH]; simpl; [contradiction|].
  intros H. apply in_app_or in H. destruct H as [H|H].
  - destruct t as [l|n]; simpl in H.
    + right. apply in_or_app. auto.
    + left. unfold group in H. destruct (cap n st) as [[a b]|]; [|contradiction].
      unfold substring in H. apply In_firstn, In_skipn in H. exact H.
  - destruct (IH H) as [?|?]; [left | right; apply in_or_app]; auto.
Qed.

(** [replace] writes nothing but input and literal text. *)
Lemma replace_go_chars (l : jsstring) :
  forall p pv skip c,
  In c (replace_go ic r tpl s p pv l skip) ->
  In c l \/ In c s \/ In c (literals tpl).
Proof.
  induction l as [|x xs IH]; intros p pv skip c H.
  - destruct skip; simpl in H; [|contradiction].
    destruct (match_at ic r p pv []) as [st|]; [|contradiction].
    rewrite app_nil_r in H. right. apply (expand_chars st c H).
  - assert (Hrec : forall p' pv' skip', In c (replace_go ic r tpl s p' pv' xs skip') ->
                     In c (x :: xs) \/ In c s \/ In c (literals tpl)).
    { intros p' pv' skip' H'. destruct (IH _ _ _ _ H') as [?|?]; [left; right|]; auto. }
    destruct skip as [|skip]; simpl in H; [|eauto].
    destruct (match_at ic r p pv (x :: xs)) as [st|].
    + apply in_app_or in H. destruct H as [H|H].
      * right. apply (expand_chars st c H).
      * destruct (Nat.eqb (pos st) p); [|eauto].
        destruct H as [<-|H]; [left; left; reflexivity | eauto].
    + destruct H as [<-|H]; [left; left; reflexivity | eauto].
Qed.

Lemma replace_all_chars (c : char) :
  In c (replace_all ic r tpl s) -> In c s \/ In c (literals tpl).
Proof.
  unfold replace_all. intros H. destruct (replace_go_chars s _ _ _ _ H) as [?|?]; auto.
Qed.

End Replace.

Lemma occurs_In (c : char) (l : jsstring) : occurs c l = true <-> In c l.
Proof.
  unfold occurs. rewrite existsb_exists. split.
  - intros (x & Hx & E). apply N.eqb_eq in E. subst. exact Hx.
  - intros H. exists c. split; [exact H | apply N.eqb_refl].
Qed.

(** A rule whose replacement does not write [c] does not bring it in. *)
Lemma keeps_out_sound (c : char) (rl : rule) (s : jsstring) :
  keeps_out c rl = true -> ~ In c s -> ~ In c (apply_rule s rl).
Proof.
  unfold keeps_out, apply_rule. intros Hk Hs Hin.
  apply replace_all_chars in Hin. destruct Hin as [?|Hin]; [contradiction|].
  apply occurs_In in Hin. rewrite Hin in Hk. discriminate.
Qed.

Lemma keeps_out_rules (c : char) (rs : list rule) :
  forall s, forallb (keeps_out c) rs = true -> ~ In c s -> ~ In c (apply_rules rs s).
Proof.
  induction rs as [|rl rs IH]; intros s Hk Hs; simpl; [exact Hs|].
  simpl in Hk. apply andb_true_iff in Hk. destruct Hk as [Hk Hks].
  apply IH; [exact Hks|]. apply keeps_out_sound; assumption.
Qed.

(** A one-character rule replaces every occurrence. *)
Lemma glyph_replace (c : char) (text s : jsstring) (l : jsstring) :
  forall p pv,
  replace_go false (RChar (CChar c)) [TLit text] s p pv l 0
  = flat_map (fun x => if (c =? x)%N then text else [x]) l.
Proof.
  induction l as [|x xs IH]; intros p pv; [reflexivity|].
  cbn [replace_go match_at m rest class_matches in_set flat_map].
  destruct (c =? x)%N.
  - cbn [pos advance expand map expand_item concat].
    rewrite app_nil_r.
    replace (Datatypes.S p =? p) with false by (symmetry; apply Nat.eqb_neq; lia).
    replace (Datatypes.S p - p - 1) with 0 by lia.
    rewrite IH. reflexivity.
  - rewrite IH. reflexivity.
Qed.

Lemma removes_sound (c : char) (rl : rule) (s : jsstring) :
  removes c rl = true -> ~ In c (apply_rule s rl).
Proof.
  unfold removes, apply_rule.
  destruct rl as [[|] [|[c'| | | | |]| | | | | | | | |] [|[text|] [|]]]; try discriminate.
  simpl. intros H. apply andb_true_iff in H. destruct H as [E Hfree].
  apply N.eqb_eq in E. subst c'. unfold replace_all. rewrite glyph_replace.
  intros Hin. apply in_flat_map in Hin. destruct Hin as (x & _ & Hx).
  destruct (N.eqb_spec c x) as [->|Hne].
  - apply occurs_In in Hx. rewrite Hx in Hfree. discriminate.
  - destruct Hx as [->|[]]. contradiction.
Qed.

Lemma purged_sound (c : char) (rs : list rule) :
  purged c rs = true -> forall s, ~ In c (apply_rules rs s).
Proof.
  induction rs as [|rl rs IH]; simpl; [discriminate|].
  intros H s. apply orb_true_iff in H. destruct H as [H|H].
  - apply andb_true_iff in H. destruct H as [Hr Hk].
    apply keeps_out_rules; [exact Hk|]. apply removes_sound. exact Hr.
  - apply IH. exact H.
Qed.

(** C8. The output of [fixLigatures] contains none of the corrupted code
    points of the correction tables, whatever the input. *)
Theorem no_corrupted_code_point (text : jsstring) :
  Forall (fun c => ~ In c (fixLigatures text)) corrupted_code_points.
Proof.
  apply List.Forall_forall. intros c Hc.
  unfold fixLigatures. destruct (truthy text); [|intros []].
  apply purged_sound.
  assert (Hall : forallb (fun c => purged c ligature_rules) corrupted_code_points = true)
    by (vm_compute; reflexivity).
  rewrite forallb_forall in Hall. exact (Hall c Hc).
Qed.

(** ** Normalisation twice *)

(** C5, as stated, fails.  The rule for "left" runs before the zero-width
    space is removed, so "le", zero-width space, " ft" normalises to "le ft"
    and that normalises to "left". *)
Lemma normalize_not_idempotent :
  ~ (forall x, normalize (normalize x) = normalize x).
Proof.
  intros H. specialize (H hidden_fragment).
  assert (E1 : normalize hidden_fragment = js "le ft") by (vm_compute; reflexivity).
  assert (E2 : normalize (js "le ft") = js "left") by (vm_compute; reflexivity).
  rewrite E1, E2 in H. clear E1 E2. vm_compute in H. discriminate H.
Qed.

Section WhiteSpace.

Lemma pos_forward (n : nat) : forall st,
  n <= List.length (rest st) -> pos (forward n st) = pos st + n.
Proof.
  induction n as [|n IH]; intros st Hn; simpl; [lia|].
  destruct (rest st) as [|x xs] eqn:Hr; [simpl in Hn; lia|].
  rewrite IH; simpl in *; lia.
Qed.

(** A greedy unbounded repetition at the end of a pattern takes the whole
    run. *)
Lemma greedy_all (ic : bool) (cl : cclass) (lo : nat) (st : mstate) :
  rep ic true cl lo None (rest st) st Some
  = if lo <=? class_len ic cl (rest st)
    then Some (forward (class_len ic cl (rest st)) st) else None.
Proof.
  destruct (rep ic true cl lo None (rest st) st Some) as [res|] eqn:H.
  - destruct (rep_greedy_max ic cl (rest st) lo st Some res eq_refl H)
      as (n & Hlo & Hn & Hk & Hmax).
    destruct (Nat.eq_dec n (class_len ic cl (rest st))) as [->|Hne].
    + destruct (Nat.leb_spec lo (class_len ic cl (rest st))); [symmetry; exact Hk | lia].
    + specialize (Hmax (class_len ic cl (rest st)) ltac:(lia) ltac:(lia)). discriminate.
  - destruct (Nat.leb_spec lo (class_len ic cl (rest st))) as [Hle|]; [|reflexivity].
    pose proof (rep_greedy_none ic cl (rest st) lo st Some eq_refl H
                  (class_len ic cl (rest st)) Hle ltac:(lia)) as Hnone.
    discriminate.
Qed.

(** [/\s+/g] to one space is [squeeze]. *)
Lemma collapse_go (s l : jsstring) :
  forall p pv,
  replace_go false (plus CSpace) [TLit (js " ")] s p pv l 0 = squeeze false l /\
  replace_go false (plus CSpace) [TLit (js " ")] s p pv l (class_len false CSpace l)
    = squeeze true l.
Proof.
  unfold plus.
  induction l as [|x xs IH]; intros p pv; [split; reflexivity|].
  assert (Hfirst : replace_go false (RRep true 1 None CSpace) [TLit (js " ")] s p pv (x :: xs) 0
                   = squeeze false (x :: xs)).
  { cbn [replace_go]. unfold match_at. cbn [m rest].
    pose proof (greedy_all false CSpace 1 (MState p pv (x :: xs) [])) as Hg.
    cbn [rest] in Hg. rewrite Hg. clear Hg.
    pose proof (class_len_le false CSpace (x :: xs)) as Hle.
    pose proof (pos_forward (class_len false CSpace (x :: xs)) (MState p pv (x :: xs) []) Hle)
      as Hpos.
    cbn [class_len class_matches in_set squeeze] in *.
    destruct (isWhiteSpace x).
    - cbn [Nat.leb]. rewrite Hpos. cbn [pos].
      replace (p + Datatypes.S (class_len false CSpace xs) =? p) with false
        by (symmetry; apply Nat.eqb_neq; lia).
      replace (p + Datatypes.S (class_len false CSpace xs) - p - 1)
        with (class_len false CSpace xs) by lia.
      destruct (IH (Datatypes.S p) (Some x)) as [_ ->]. reflexivity.
    - cbn [Nat.leb]. destruct (IH (Datatypes.S p) (Some x)) as [-> _]. reflexivity. }
  split; [exact Hfirst|].
  cbn [class_len class_matches in_set]. destruct (isWhiteSpace x) eqn:Hx.
  - cbn [replace_go squeeze]. rewrite Hx. destruct (IH (Datatypes.S p) (Some x)) as [_ ->].
    reflexivity.
  - rewrite Hfirst. cbn [squeeze]. rewrite Hx. reflexivity.
Qed.

Lemma collapse_squeeze (s : jsstring) : apply_rule s collapse_rule = squeeze false s.
Proof. unfold apply_rule, collapse_rule, replace_all. simpl. apply collapse_go. Qed.

(** [/\r\n/g] changes nothing in a text without carriage return. *)
Lemma crlf_go (s l : jsstring) :
  forall p pv, ~ In 13%N l ->
  replace_go false (RSeq (RChar (CChar 13)) (RChar (CChar 10))) [TLit [10%N]] s p pv l 0 = l.
Proof.
  induction l as [|x xs IH]; intros p pv Hno; [reflexivity|].
  cbn [replace_go match_at m rest class_matches in_set].
  destruct (N.eqb_spec 13 x) as [<-|Hne]; [exfalso; apply Hno; left; reflexivity|].
  rewrite IH; [reflexivity|]. intros H. apply Hno. right. exact H.
Qed.

Lemma crlf_id (s : jsstring) : ~ In 13%N s -> apply_rule s crlf_rule = s.
Proof. intros H. unfold apply_rule, crlf_rule, replace_all. simpl. apply crlf_go. exact H. Qed.

(** *** Tidy strings *)

Lemma squeeze_tidy (l : jsstring) : tidy true (squeeze true l) /\ tidy false (squeeze false l).
Proof.
  induction l as [|x xs [IHt IHf]]; simpl; [auto|].
  destruct (isWhiteSpace x) eqn:Hx; simpl.
  - split; [exact IHt|]. change (isWhiteSpace 32%N) with true. cbv iota. auto.
  - rewrite Hx. auto.
Qed.

Lemma tidy_squeeze (l : jsstring) :
  (tidy true l -> squeeze true l = l) /\ (tidy false l -> squeeze false l = l).
Proof.
  induction l as [|x xs [IHt IHf]]; simpl; [auto|].
  destruct (isWhiteSpace x).
  - split.
    + intros (_ & E & _). discriminate.
    + intros (-> & _ & H). rewrite (IHt H). reflexivity.
  - split; intros H; rewrite (IHf H); reflexivity.
Qed.

Lemma tidy_no_cr (b : bool) (l : jsstring) : tidy b l -> ~ In 13%N l.
Proof.
  revert b. induction l as [|x xs IH]; intros b H; simpl; [tauto|].
  simpl in H. intros [->|Hin].
  - change (isWhiteSpace 13%N) with true in H. cbv iota in H. destruct H as (E & _). discriminate.
  - destruct (isWhiteSpace x); [destruct H as (_ & _ & H)|]; apply (IH _ H Hin).
Qed.

Lemma tidy_prefix (l1 l2 : jsstring) : forall b, tidy b (l1 ++ l2) -> tidy b l1.
Proof.
  induction l1 as [|x xs IH]; intros b H; simpl in *; [exact Logic.I|].
  destruct (isWhiteSpace x).
  - destruct H as (E1 & E2 & H). eauto.
  - eauto.
Qed.

(** *** Trimming *)

Lemma trimStart_suffix (l : jsstring) : exists pre, l = pre ++ trimStart l.
Proof.
  induction l as [|x xs [pre IH]]; simpl; [exists []; reflexivity|].
  destruct (isWhiteSpace x).
  - exists (x :: pre). simpl. rewrite <- IH. reflexivity.
  - exists []. reflexivity.
Qed.

Lemma trimStart_tidy (b b' : bool) (l : jsstring) : tidy b l -> tidy b' (trimStart l).
Proof.
  revert b. induction l as [|x xs IH]; intros b H; simpl in *; [exact Logic.I|].
  destruct (isWhiteSpace x) eqn:Hx.
  - destruct H as (_ & _ & H). eauto.
  - simpl. rewrite Hx. exact H.
Qed.

Lemma trimStart_clean (l : jsstring) : starts_clean l -> trimStart l = l.
Proof. destruct l as [|x xs]; simpl; [auto|]. intros ->. reflexivity. Qed.

Lemma trim_prefix (l : jsstring) : exists suffix, trimStart l = trim l ++ suffix.
Proof.
  unfold trim. destruct (trimStart_suffix (rev (trimStart l))) as [pre H].
  exists (rev pre). apply (f_equal (@rev char)) in H.
  rewrite rev_involutive, rev_app_distr in H. exact H.
Qed.

Lemma trim_starts_clean (l : jsstring) : starts_clean (trim l).
Proof.
  destruct (trim_prefix l) as [suffix H]. pose proof (trimStart_head l) as Hh.
  rewrite H in Hh. destruct (trim l); simpl in *; auto.
Qed.

Lemma trim_tidy (b : bool) (l : jsstring) : tidy b l -> tidy false (trim l).
Proof.
  intros H. destruct (trim_prefix l) as [suffix E].
  apply (tidy_prefix _ suffix). rewrite <- E. apply (trimStart_tidy b). exact H.
Qed.

Lemma trim_trim (l : jsstring) : trim (trim l) = trim l.
Proof.
  unfold trim at 1. rewrite (trimStart_clean (trim l) (trim_starts_clean l)).
  rewrite trimStart_clean; [apply rev_involutive|].
  destruct (rev (trim l)) as [|c pre] eqn:E; simpl; [exact Logic.I|].
  apply (trim_last l (rev pre)).
  apply (f_equal (@rev char)) in E. rewrite rev_involutive in E. exact E.
Qed.

(** The white-space stage of normalisation, on any text: squeeze, then
    trim; its result is tidy and trimmed. *)
Lemma spacing_stage (z : jsstring) :
  trim (apply_rule (apply_rule z collapse_rule) crlf_rule) = trim (squeeze false z).
Proof.
  rewrite collapse_squeeze, crlf_id; [reflexivity|].
  apply (tidy_no_cr false). apply squeeze_tidy.
Qed.

Lemma spacing_stage_fixed (z : jsstring) :
  let y := trim (squeeze false z) in
  trim (apply_rule (apply_rule y collapse_rule) crlf_rule) = y.
Proof.
  intros y. rewrite spacing_stage.
  assert (Hy : tidy false y) by (apply (trim_tidy false), squeeze_tidy).
  destruct (tidy_squeeze y) as [_ Hs]. rewrite (Hs Hy). apply trim_trim.
Qed.

End WhiteSpace.

(** * Further properties *)

(** ** Splitting a text into blocks *)

Section Split.

Variable ic : bool.
Variable r : regex.

(** The pattern is an assertion: a match ends where it began. *)
Hypothesis zero_width :
  forall p pv l st, match_at ic r p pv l = Some st -> pos st = p.

Lemma split_go_concat (l : jsstring) :
  forall q pv cur b, concat (split_go ic r q pv l cur b 0) = rev cur ++ l.
Proof.
  induction l as [|x xs IH]; intros q pv cur b; simpl.
  - rewrite !app_nil_r. reflexivity.
  - assert (Hpush : concat (split_go ic r (Datatypes.S q) (Some x) xs (x :: cur) b 0)
                    = rev cur ++ x :: xs).
    { rewrite IH. simpl. rewrite <- app_assoc. reflexivity. }
    destruct (match_at ic r q pv (x :: xs)) as [st|] eqn:Hm; [|exact Hpush].
    rewrite (zero_width _ _ _ _ Hm).
    replace (Nat.min q (q + Datatypes.S (List.length xs))) with q by lia.
    destruct (Nat.eqb q b); [exact Hpush|].
    rewrite Nat.eqb_refl. simpl. rewrite IH. reflexivity.
Qed.

Lemma snoc_cases (l : jsstring) : l = [] \/ exists l' y, l = l' ++ [y].
Proof. induction l as [|y l' _] using rev_ind; [left; reflexivity | right; eauto]. Qed.

Lemma unbroken_short (blk after : jsstring) : List.length blk <= 1 -> unbroken ic r blk after.
Proof.
  intros Hlen pre suf -> Hpre Hsuf. exfalso.
  destruct pre; [congruence|]. destruct suf; [congruence|].
  rewrite length_app in Hlen. simpl in Hlen. lia.
Qed.

Lemma unbroken_push (cur : jsstring) (x : char) (xs : jsstring) :
  unbroken ic r (rev cur) (x :: xs) ->
  (cur <> [] -> exists p pv, match_at ic r p pv (x :: xs) = None) ->
  unbroken ic r (rev (x :: cur)) xs.
Proof.
  intros Hcur Hx pre suf Heq Hpre Hsuf. simpl in Heq.
  destruct (snoc_cases suf) as [Hnil|(suf0 & y & ->)]; [contradiction|].
  rewrite app_assoc in Heq. apply app_inj_tail in Heq. destruct Heq as [Heq <-].
  rewrite <- app_assoc. simpl.
  destruct suf0 as [|z suf0].
  - simpl. apply Hx. intros ->. simpl in Heq. destruct pre; [contradiction | discriminate].
  - apply (Hcur pre (z :: suf0) Heq Hpre). discriminate.
Qed.

Lemma split_go_unbroken (l : jsstring) :
  forall q pv cur b blk,
  q = b + List.length cur ->
  unbroken ic r (rev cur) l ->
  In blk (split_go ic r q pv l cur b 0) ->
  exists after, unbroken ic r blk after.
Proof.
  induction l as [|x xs IH]; intros q pv cur b blk Hq Hcur Hin; simpl in Hin.
  - destruct Hin as [<-|[]]. exists []. exact Hcur.
  - assert (Hpush : (cur <> [] -> exists p pv', match_at ic r p pv' (x :: xs) = None) ->
                    In blk (split_go ic r (Datatypes.S q) (Some x) xs (x :: cur) b 0) ->
                    exists after, unbroken ic r blk after).
    { intros Hx Hin'. eapply IH; [|apply (unbroken_push cur x xs Hcur Hx)|exact Hin'].
      simpl. lia. }
    destruct (match_at ic r q pv (x :: xs)) as [st|] eqn:Hm.
    + rewrite (zero_width _ _ _ _ Hm) in Hin.
      replace (Nat.min q (q + Datatypes.S (List.length xs))) with q in Hin by lia.
      destruct (Nat.eqb_spec q b) as [Hqb|Hqb].
      * apply Hpush; [|exact Hin]. intros Hne. destruct cur; [contradiction|]. simpl in Hq. lia.
      * rewrite Nat.eqb_refl in Hin. destruct Hin as [<-|Hin].
        -- exists (x :: xs). exact Hcur.
        -- eapply (IH _ _ [x] q blk); [|apply unbroken_short|exact Hin]; simpl; lia.
    + apply Hpush; [|exact Hin]. intros _. eauto.
Qed.

End Split.

(** ** The blocks of the fallback segmenter *)

Lemma boundary_zero_width (p : nat) (pv : option char) (l : jsstring) (st : mstate) :
  match_at false boundary p pv l = Some st -> pos st = p.
Proof.
  unfold match_at, boundary. cbn [m]. intros H.
  match type of H with match ?e with _ => _ end = _ => destruct e end;
    [injection H as <-; reflexivity | discriminate].
Qed.

Lemma split_boundary_concat (text : jsstring) :
  concat (split false boundary text) = text.
Proof.
  destruct text as [|x xs]; [vm_compute; reflexivity|].
  unfold split. rewrite (split_go_concat false boundary boundary_zero_width). reflexivity.
Qed.

(** X1. The blocks that [parseQuestionsFlexible] cuts a text into, put
    together again, are the text: the split loses and adds nothing. *)
Theorem blocks_reassemble (text : jsstring) :
  concat (split false boundary text) = text.
Proof.
  destruct text as [|x xs]; [vm_compute; reflexivity|].
  unfold split. rewrite (split_go_concat false boundary boundary_zero_width). reflexivity.
Qed.

Lemma split_unbroken (text blk : jsstring) :
  In blk (split false boundary text) -> exists after, unbroken false boundary blk after.
Proof.
  destruct text as [|x xs].
  - assert (E : split false boundary [] = [[]]) by (vm_compute; reflexivity).
    rewrite E. intros [<-|[]]. exists []. apply unbroken_short. simpl. lia.
  - unfold split. apply (split_go_unbroken false boundary boundary_zero_width); [reflexivity|].
    apply unbroken_short. simpl. lia.
Qed.

Lemma dot_or_paren_exact (x : char) :
  class_matches false dot_or_paren x = true -> x = 46%N \/ x = 41%N.
Proof.
  unfold class_matches, dot_or_paren.
  change (chr ".") with (CChar 46). change (chr ")") with (CChar 41).
  cbn [in_set]. bprop. lia.
Qed.

(** A digit followed by [.] or [)] is a block boundary. *)
Lemma boundary_at_digit (d x : char) (t : jsstring) (p : nat) (pv : option char) :
  isDigit d = true -> class_matches false dot_or_paren x = true ->
  match_at false boundary p pv (d :: x :: t) <> None.
Proof.
  intros Hd Hx.
  assert (Hnd : isDigit x = false).
  { destruct (dot_or_paren_exact x Hx) as [-> | ->]; reflexivity. }
  unfold match_at, boundary. cbn [m].
  set (st := MState p pv (d :: x :: t) []).
  assert (Hnum : m false (seq [between 1 3 CDigit; RChar dot_or_paren]) st Some <> None).
  { unfold between. cbn [seq m rest st rep class_matches in_set Nat.pred option_map].
    rewrite Hd, Hnd. cbn [advance rest].
    change (in_set dot_or_paren x) with (class_matches false dot_or_paren x).
    rewrite Hx. discriminate. }
  assert (Hall : m false (seq [q_prefix; between 1 3 CDigit; RChar dot_or_paren]) st Some
                 <> None).
  { rewrite m_seq_cons. unfold q_prefix. cbn [m].
    match goal with |- match ?e with _ => _ end <> None => destruct e end;
      [discriminate | exact Hnum]. }
  destruct (m false (seq [q_prefix; between 1 3 CDigit; RChar dot_or_paren]) st Some);
    [discriminate | contradiction].
Qed.

Lemma last_of_run (l : jsstring) (n : nat) :
  1 <= n -> n <= List.length l ->
  exists d, In d (firstn n l) /\ skipn (n - 1) l = d :: skipn n l.
Proof.
  intros H1 Hn.
  destruct (lookup_lt_is_Some_2 l (n - 1) ltac:(lia)) as [d Hd].
  exists d. split.
  - apply list_elem_of_In. apply elem_of_take. exists (n - 1). split; [exact Hd | lia].
  - change (skipn (n - 1) l) with (drop (n - 1) l). rewrite (drop_S l d (n - 1) Hd).
    replace (Datatypes.S (n - 1)) with n by lia. reflexivity.
Qed.

(** The leading number of a block, as [number_prefix] captures it: digits,
    the last one followed by [.] or [)]. *)
Lemma number_prefix_inv (blk : jsstring) (start : nat) (numMatch : mstate) :
  string_match false number_prefix blk = Some (start, numMatch) ->
  exists b n d x xs,
    cap 1 numMatch = Some (b, b + n) /\ 1 <= n /\
    skipn (b + n - 1) blk = d :: x :: xs /\
    isDigit d = true /\ class_matches false dot_or_paren x = true.
Proof.
  intros H. unfold string_match in H.
  destruct (scan_inv false blk _ _ 0 None start numMatch eq_refl (Nat.le_0_l _) H)
    as (pv & Hstart & Hm).
  unfold match_at, number_prefix in Hm.
  destruct (seq_inv false blk [RBol; q_prefix] [RGroup 1 (between 1 3 CDigit); RChar dot_or_paren]
              _ _ _ (match_at_wf blk start pv Hstart) Hm) as (st1 & H1 & Hwf1 & _ & _).
  rewrite m_seq_cons in H1. unfold between in H1. cbn [m seq] in H1.
  destruct (rep_some false true CDigit (rest st1) _ _ st1 _ numMatch eq_refl H1)
    as (n & Hlo & Hn & Hk).
  pose proof (class_len_le false CDigit (rest st1)) as Hle.
  destruct (forward_spec blk n st1 Hwf1 ltac:(lia)) as (Hwf' & Hpos & Hrest & _).
  destruct (rest (set_cap 1 (pos st1) (pos (forward n st1)) (forward n st1)))
    as [|x xs] eqn:Hr; [discriminate|].
  destruct (class_matches false dot_or_paren x) eqn:Hx; [|discriminate].
  injection Hk as <-.
  destruct (last_of_run (rest st1) n Hlo ltac:(lia)) as (d & Hd & Hskip).
  exists (pos st1), n, d, x, xs. split; [|split; [exact Hlo|split; [|split; [|exact Hx]]]].
  - unfold cap. simpl. rewrite Hpos. reflexivity.
  - destruct Hwf1 as [Hr1 _].
    replace (pos st1 + n - 1) with (n - 1 + pos st1) by lia.
    rewrite <- skipn_skipn, <- Hr1, Hskip, <- Hrest.
    simpl in Hr. rewrite Hr. reflexivity.
  - pose proof (class_len_Forall false CDigit (rest st1) n Hn) as HF.
    rewrite List.Forall_forall in HF. apply (HF d Hd).
Qed.

Lemma digit_value (d : char) : isDigit d = true ->
  exists n : N, (n <= 9)%N /\ d = (48 + n)%N /\
                parseInt [d] = Integer (Z.of_N n) /\ numberToString (parseInt [d]) = [d].
Proof.
  unfold isDigit. bprop. intros Hd.
  assert (Hc : (d = 48 \/ d = 49 \/ d = 50 \/ d = 51 \/ d = 52 \/ d = 53 \/ d = 54 \/ d = 55
                \/ d = 56 \/ d = 57)%N) by lia.
  destruct Hc as [-> | [-> | [-> | [-> | [-> | [-> | [-> | [-> | [-> | ->]]]]]]]]];
    [exists 0%N | exists 1%N | exists 2%N | exists 3%N | exists 4%N | exists 5%N | exists 6%N
     | exists 7%N | exists 8%N | exists 9%N];
    (split; [lia | split; [reflexivity | split; vm_compute; reflexivity]]).
Qed.

(** The number of a block that the split produced is one digit. *)
Lemma block_number (text blk : jsstring) (start : nat) (numMatch : mstate) :
  In blk (split false boundary text) ->
  string_match false number_prefix blk = Some (start, numMatch) ->
  exists d, isDigit d = true /\ group blk 1 numMatch = Some [d].
Proof.
  intros Hblk Hm.
  destruct (split_unbroken text blk Hblk) as [after Hunb].
  destruct (number_prefix_inv blk start numMatch Hm) as (b & n & d & x & xs & Hcap & Hn & Hskip & Hd & Hx).
  exists d. split; [exact Hd|].
  destruct (Nat.eq_dec (b + n - 1) 0) as [Hz|Hnz].
  - assert (b = 0) by lia. assert (n = 1) by lia. subst b n.
    unfold group. rewrite Hcap. unfold substring. simpl in Hskip. simpl. rewrite Hskip. reflexivity.
  - exfalso.
    destruct (Hunb (firstn (b + n - 1) blk) (d :: x :: xs)) as (p & pv & Hnone).
    + rewrite <- Hskip. symmetry. apply firstn_skipn.
    + intros E. apply (f_equal (@List.length char)) in E. rewrite length_firstn in E.
      simpl in E.
      assert (Hlen : b + n - 1 < List.length blk).
      { destruct (Nat.lt_ge_cases (b + n - 1) (List.length blk)) as [|Hge]; [assumption|].
        rewrite skipn_all2 in Hskip by lia. discriminate. }
      lia.
    + discriminate.
    + apply (boundary_at_digit d x (xs ++ after) p pv Hd Hx). exact Hnone.
Qed.

(** X2. Every record of the fallback segmenter has a one-digit question
    number, whatever number the document prints: the split also cuts
    between the digits of a longer number, so each block begins with the
    last digit only. *)
Theorem fallback_number_is_one_digit (text sourcePdf : jsstring) (q : Question) :
  In q (parseQuestionsFlexible text sourcePdf) ->
  exists n : N, (n <= 9)%N /\ number q = Integer (Z.of_N n) /\
                id q = sourcePdf ++ js "-" ++ [(48 + n)%N].
Proof.
  unfold parseQuestionsFlexible. intros Hq. apply in_flat_map in Hq.
  destruct Hq as (blk & Hblk & Hq). unfold flexible_block in Hq.
  destruct (List.length (trim blk) <? 20); [contradiction|].
  destruct (string_match false number_prefix blk) as [[start numMatch]|] eqn:Hm;
    [|contradiction].
  destruct (block_number text blk start numMatch Hblk Hm) as (d & Hd & Hg).
  rewrite Hg in Hq. cbn [or_empty] in Hq.
  destruct (first_option_match optionPatterns _) as [optMatch|]; [|contradiction].
  unfold flexible_record in Hq.
  match type of Hq with In _ (if ?c then _ else _) => destruct c end; [|contradiction].
  destruct Hq as [<-|[]]. cbn [number id].
  destruct (digit_value d Hd) as (n & Hle & Hdn & Hnum & Hstr). rewrite Hstr, Hnum.
  exists n. subst d. auto.
Qed.

Lemma fallback_number_is_one_digit_witness :
  exists n : N, (n <= 9)%N /\ number literal_record = Integer (Z.of_N n) /\
                id literal_record = js "a.pdf" ++ js "-" ++ [(48 + n)%N].
Proof.
  apply (fallback_number_is_one_digit literal_text (js "a.pdf") literal_record).
  vm_compute. left. reflexivity.
Defined.

(** ** Short texts *)

Lemma exec_all_too_short (ic : bool) (r : regex) (s : jsstring) :
  List.length s < min_len r -> exec_all ic r s = [].
Proof.
  intros Hlen. destruct (exec_all ic r s) as [|st l] eqn:E; [reflexivity|]. exfalso.
  assert (Hin : In st (exec_all ic r s)) by (rewrite E; left; reflexivity).
  destruct (exec_all_inv s ic r s 0 None 0 st eq_refl (Nat.le_0_l _) Hin)
    as (q & pv & Hq & Hm).
  unfold match_at in Hm.
  destruct (m_inv ic s r _ _ _ (match_at_wf s q pv Hq) Hm) as (st' & _ & [_ Hwf] & Hpos & _).
  simpl in Hpos. lia.
Qed.

Lemma trimStart_length (l : jsstring) : List.length (trimStart l) <= List.length l.
Proof.
  induction l as [|x xs IH]; simpl; [lia|]. destruct (isWhiteSpace x); simpl; lia.
Qed.

Lemma trim_length (l : jsstring) : List.length (trim l) <= List.length l.
Proof.
  unfold trim. rewrite length_rev.
  etransitivity; [apply trimStart_length|]. rewrite length_rev. apply trimStart_length.
Qed.

Lemma block_length (text blk : jsstring) :
  In blk (split false boundary text) -> List.length blk <= List.length text.
Proof.
  intros Hin.
  assert (H : forall bs : list jsstring, In blk bs -> List.length blk <= List.length (concat bs)).
  { induction bs as [|b bs IH]; [contradiction|].
    simpl. rewrite length_app. intros [->|Hb]; [lia|]. specialize (IH Hb). lia. }
  specialize (H _ Hin). rewrite split_boundary_concat in H. exact H.
Qed.

(** X3. A text whose normalised form has fewer than 20 code units, the
    empty text included, yields no question: it is too short for either
    structured grammar and every block of it is discarded by the fallback
    segmenter. *)
Theorem short_text_has_no_question (text sourcePdf : jsstring) :
  List.length (normalize text) < 20 ->
  parseQuestions text sourcePdf = [].
Proof.
  intros Hlen. unfold parseQuestions.
  assert (Hs : structured (normalize text) sourcePdf = []).
  { unfold structured, patterns. cbn [flat_map].
    rewrite !exec_all_too_short; [reflexivity | |];
      (eapply Nat.lt_le_trans; [exact Hlen|]); vm_compute; lia. }
  rewrite Hs. cbn [List.length Nat.ltb Nat.leb].
  unfold parseQuestionsFlexible.
  induction (split false boundary (normalize text)) as [|blk blks IH] eqn:E.
  - reflexivity.
  - assert (Hall : forall b, In b (blk :: blks) -> flexible_block sourcePdf b = []).
    { intros b Hb. rewrite <- E in Hb. apply block_length in Hb.
      pose proof (trim_length b) as Ht. unfold flexible_block.
      replace (List.length (trim b) <? 20) with true
        by (symmetry; apply Nat.ltb_lt; lia). reflexivity. }
    clear E IH. induction (blk :: blks) as [|b bs IHb]; [reflexivity|].
    simpl. rewrite (Hall b (or_introl eq_refl)), IHb; [reflexivity|].
    intros b' Hb'. apply Hall. right. exact Hb'.
Qed.

Lemma short_text_has_no_question_witness :
  parseQuestions [] (js "a.pdf") = [] /\ parseQuestions (js "1) What?") (js "a.pdf") = [].
Proof.
  split.
  - apply (short_text_has_no_question [] (js "a.pdf")). vm_compute. lia.
  - apply (short_text_has_no_question (js "1) What?") (js "a.pdf")). vm_compute. lia.
Defined.

(** ** The shape of normalised and cleaned text *)

Section Edges.

Lemma rest_forward (n : nat) : forall st,
  n <= List.length (rest st) -> rest (forward n st) = skipn n (rest st).
Proof.
  induction n as [|n IH]; intros st Hn; simpl; [reflexivity|].
  destruct (rest st) as [|x xs] eqn:Hr; [simpl in Hn; lia|].
  rewrite IH; simpl in *; [reflexivity | lia].
Qed.

(** A greedy unbounded repetition followed by [$] takes the rest of the
    input or fails. *)
Lemma greedy_to_end (ic : bool) (cl : cclass) (lo : nat) (st : mstate) :
  rep ic true cl lo None (rest st) st
      (fun st' => match rest st' with [] => Some st' | _ :: _ => None end)
  = if (lo <=? class_len ic cl (rest st))
       && (class_len ic cl (rest st) =? List.length (rest st))
    then Some (forward (List.length (rest st)) st) else None.
Proof.
  pose proof (class_len_le ic cl (rest st)) as Hle.
  match goal with |- ?e = _ => destruct e as [res|] eqn:H end.
  - destruct (rep_greedy_max ic cl (rest st) lo st _ res eq_refl H) as (n & Hlo & Hn & Hk & _).
    destruct (rest (forward n st)) eqn:Hr; [|discriminate]. injection Hk as <-.
    rewrite rest_forward in Hr by lia.
    apply skipn_all_iff in Hr.
    assert (n = List.length (rest st)) by lia. subst n.
    replace (lo <=? class_len ic cl (rest st)) with true by (symmetry; apply Nat.leb_le; lia).
    replace (class_len ic cl (rest st) =? List.length (rest st)) with true
      by (symmetry; apply Nat.eqb_eq; lia).
    reflexivity.
  - destruct (Nat.leb_spec lo (class_len ic cl (rest st))) as [Hlo|]; [|reflexivity].
    destruct (Nat.eqb_spec (class_len ic cl (rest st)) (List.length (rest st))) as [E|];
      [|reflexivity].
    pose proof (rep_greedy_none ic cl (rest st) lo st _ eq_refl H
                  (class_len ic cl (rest st)) Hlo ltac:(lia)) as Hnone.
    cbv beta in Hnone. rewrite rest_forward in Hnone by lia.
    rewrite E, skipn_all in Hnone. discriminate.
Qed.

Lemma class_len_all_space (l : jsstring) :
  (class_len false CSpace l =? List.length l) = all_space l.
Proof.
  unfold all_space. induction l as [|x xs IH]; [reflexivity|].
  cbn [class_len class_matches in_set forallb List.length].
  destruct (isWhiteSpace x); simpl; [exact IH|reflexivity].
Qed.

Lemma trimStart_skipn (l : jsstring) : trimStart l = skipn (class_len false CSpace l) l.
Proof.
  induction l as [|x xs IH]; [reflexivity|].
  cbn [class_len class_matches in_set trimStart].
  destruct (isWhiteSpace x); [exact IH | reflexivity].
Qed.

Variable s : jsstring.

Let E : regex := rule_pattern edges_rule.
Let T : template := rule_subst edges_rule.

(** Dropping the rest of a match. *)
Lemma replace_go_skip (ic : bool) (r : regex) (tpl : template) (l : jsstring) :
  forall k p pv, k <= List.length l ->
  exists pv', replace_go ic r tpl s p pv l k
              = replace_go ic r tpl s (p + k) pv' (skipn k l) 0.
Proof.
  induction l as [|x xs IH]; intros k p pv Hk.
  - simpl in Hk. assert (k = 0) by lia. subst k. exists pv. rewrite Nat.add_0_r. reflexivity.
  - destruct k as [|k].
    + exists pv. rewrite Nat.add_0_r. reflexivity.
    + simpl in Hk. destruct (IH k (Datatypes.S p) (Some x) ltac:(lia)) as [pv' Hpv'].
      exists pv'. cbn [replace_go skipn]. rewrite Hpv'. f_equal. lia.
Qed.

Lemma edges_match (p : nat) (pv : option char) (l : jsstring) :
  match_at false E p pv l
  = if (p =? 0) && (1 <=? class_len false CSpace l)
    then Some (forward (class_len false CSpace l) (MState p pv l []))
    else if (1 <=? class_len false CSpace l) && all_space l
         then Some (forward (List.length l) (MState p pv l []))
         else None.
Proof.
  unfold E, edges_rule, match_at, plus. cbn [rule_pattern m pos].
  pose proof (greedy_all false CSpace 1 (MState p pv l [])) as Hall.
  pose proof (greedy_to_end false CSpace 1 (MState p pv l [])) as Hend.
  rewrite Hend. destruct (p =? 0); cbn [andb].
  - rewrite Hall. cbn [rest]. rewrite class_len_all_space.
    destruct (1 <=? class_len false CSpace l); reflexivity.
  - cbn [rest]. rewrite class_len_all_space. reflexivity.
Qed.

Lemma edges_go_later (l : jsstring) :
  forall p pv, 0 < p -> replace_go false E T s p pv l 0 = strip_end l.
Proof.
  induction l as [|x xs IH]; intros p pv Hp.
  - cbn [replace_go]. rewrite edges_match. cbn [class_len Nat.leb andb].
    rewrite andb_false_r. reflexivity.
  - cbn [replace_go strip_end]. rewrite edges_match.
    replace (p =? 0) with false by (symmetry; apply Nat.eqb_neq; lia). cbn [andb].
    destruct (all_space (x :: xs)) eqn:Hall.
    + assert (Hx : (1 <=? class_len false CSpace (x :: xs)) = true).
      { pose proof (class_len_all_space (x :: xs)) as Hc. rewrite Hall in Hc.
        apply Nat.eqb_eq in Hc. rewrite Hc. reflexivity. }
      rewrite Hx. cbn [andb].
      rewrite pos_forward by (cbn [rest]; lia). cbn [pos List.length].
      replace (p + Datatypes.S (List.length xs) =? p) with false
        by (symmetry; apply Nat.eqb_neq; lia).
      replace (p + Datatypes.S (List.length xs) - p - 1) with (List.length xs) by lia.
      destruct (replace_go_skip false E T xs (List.length xs) (Datatypes.S p) (Some x)
                  (Nat.le_refl _)) as [pv' ->].
      rewrite skipn_all. cbn [replace_go]. rewrite edges_match.
      cbn [class_len Nat.leb andb]. rewrite andb_false_r. reflexivity.
    + rewrite andb_false_r. rewrite IH by lia. reflexivity.
Qed.

Lemma edges_go_start (l : jsstring) :
  replace_go false E T s 0 None l 0 = strip_end (trimStart l).
Proof.
  destruct l as [|x xs].
  - cbn [replace_go]. rewrite edges_match. reflexivity.
  - cbn [replace_go]. rewrite edges_match. cbn [Nat.eqb andb class_len class_matches in_set trimStart].
    destruct (isWhiteSpace x) eqn:Hx.
    + cbn [Nat.leb]. rewrite pos_forward by (cbn [rest List.length]; pose proof (class_len_le false CSpace xs); lia).
      cbn [pos]. cbn [Nat.add Nat.eqb Nat.sub].
      rewrite Nat.sub_0_r.
      pose proof (class_len_le false CSpace xs) as Hle.
      destruct (replace_go_skip false E T xs (class_len false CSpace xs) 1 (Some x) Hle)
        as [pv' ->].
      rewrite edges_go_later by lia. rewrite trimStart_skipn. reflexivity.
    + cbn [Nat.leb andb strip_end all_space forallb]. rewrite Hx. cbn [andb].
      rewrite edges_go_later by lia. reflexivity.
Qed.

End Edges.

Lemma trimStart_all_space (l : jsstring) : all_space l = true -> trimStart l = [].
Proof.
  unfold all_space. induction l as [|x xs IH]; simpl; [reflexivity|].
  destruct (isWhiteSpace x); [exact IH | discriminate].
Qed.

Lemma all_space_snoc (l : jsstring) (x : char) : all_space (l ++ [x]) = all_space (x :: l).
Proof.
  unfold all_space. rewrite forallb_app. simpl.
  destruct (isWhiteSpace x), (forallb isWhiteSpace l); reflexivity.
Qed.

Lemma all_space_rev (l : jsstring) : all_space (rev l) = all_space l.
Proof.
  induction l as [|x xs IH]; [reflexivity|].
  simpl rev. rewrite all_space_snoc. unfold all_space in *. simpl. rewrite IH. reflexivity.
Qed.

Lemma trimStart_snoc (l : jsstring) (x : char) :
  all_space (l ++ [x]) = false -> trimStart (l ++ [x]) = trimStart l ++ [x].
Proof.
  induction l as [|y l IH]; intros H.
  - unfold all_space in H. simpl in *. destruct (isWhiteSpace x); [discriminate | reflexivity].
  - unfold all_space in *. simpl in *. destruct (isWhiteSpace y); [apply IH; exact H | reflexivity].
Qed.

Lemma strip_end_spec (l : jsstring) : strip_end l = rev (trimStart (rev l)).
Proof.
  induction l as [|x xs IH]; [reflexivity|].
  cbn [strip_end]. destruct (all_space (x :: xs)) eqn:Hall.
  - rewrite trimStart_all_space; [reflexivity|]. rewrite all_space_rev. exact Hall.
  - simpl rev.
    rewrite trimStart_snoc
      by (rewrite all_space_snoc;
          change (all_space (x :: rev xs)) with (isWhiteSpace x && all_space (rev xs));
          rewrite all_space_rev; exact Hall).
    rewrite rev_app_distr, <- IH. reflexivity.
Qed.

(** The replacement [/^\s+|\s+$/g] to nothing is [trim]. *)
Lemma edges_is_trim (w : jsstring) : apply_rule w edges_rule = trim w.
Proof.
  change (apply_rule w edges_rule)
    with (replace_go false (rule_pattern edges_rule) (rule_subst edges_rule) w 0 None w 0).
  rewrite (edges_go_start w w), strip_end_spec. reflexivity.
Qed.

(** [cleanText] in one line. *)
Lemma cleanText_spec (text : jsstring) :
  cleanText text
  = if truthy text
    then trim (squeeze false (apply_rules watermark_rules (fixLigatures text)))
    else [].
Proof.
  unfold cleanText. destruct (truthy text); [|reflexivity].
  rewrite edges_is_trim, collapse_squeeze. apply trim_trim.
Qed.

Lemma tidy_single_spaced (l : jsstring) : forall b, tidy b l -> single_spaced l.
Proof.
  induction l as [|x xs IH]; intros b H i c Hi Hws; [discriminate|].
  cbn [tidy] in H. destruct i as [|i].
  - injection Hi as ->. rewrite Hws in H. destruct H as (-> & _ & Hxs).
    split; [reflexivity|]. intros c' Hc'. destruct xs as [|y ys]; [discriminate|].
    injection Hc' as ->. cbn [tidy] in Hxs.
    destruct (isWhiteSpace c'); [destruct Hxs as (_ & E & _); discriminate | reflexivity].
  - destruct (isWhiteSpace x).
    + destruct H as (_ & _ & Hxs). apply (IH true Hxs i c Hi Hws).
    + apply (IH false H i c Hi Hws).
Qed.

Lemma In_trimStart (c : char) (l : jsstring) : In c (trimStart l) -> In c l.
Proof.
  intros H. destruct (trimStart_suffix l) as [pre E]. rewrite E. apply in_or_app. auto.
Qed.

Lemma In_trim (c : char) (l : jsstring) : In c (trim l) -> In c l.
Proof.
  intros H. apply In_trimStart. destruct (trim_prefix l) as [suffix E]. rewrite E.
  apply in_or_app. auto.
Qed.

Lemma In_squeeze (c : char) (l : jsstring) :
  forall b, In c (squeeze b l) -> In c l \/ c = 32%N.
Proof.
  induction l as [|x xs IH]; intros b H; simpl in *; [contradiction|].
  destruct (isWhiteSpace x).
  - destruct b.
    + destruct (IH _ H); auto.
    + destruct H as [<-|H]; [auto|]. destruct (IH _ H); auto.
  - destruct H as [<-|H]; [auto|]. destruct (IH _ H); auto.
Qed.

Lemma trim_trimmed (l : jsstring) : trimmed (trim l).
Proof. split; [apply trim_starts_clean | apply trim_last]. Qed.

Lemma normalize_spec (text : jsstring) :
  normalize text = trim (squeeze false (fixLigatures text)).
Proof. apply spacing_stage. Qed.

Lemma fixLigatures_purged (text : jsstring) (c : char) :
  In c corrupted_code_points -> ~ In c (fixLigatures text).
Proof.
  intros Hc. unfold fixLigatures. destruct (truthy text); [|intros []].
  apply purged_sound.
  assert (Hall : forallb (fun c => purged c ligature_rules) corrupted_code_points = true)
    by (vm_compute; reflexivity).
  rewrite forallb_forall in Hall. exact (Hall c Hc).
Qed.

Lemma space_not_corrupted : ~ In 32%N corrupted_code_points.
Proof. vm_compute. intuition discriminate. Qed.

(** What is left after squeezing and trimming a text without corrupted
    code points. *)
Lemma trim_squeeze_clean (w : jsstring) :
  (forall c, In c corrupted_code_points -> ~ In c w) ->
  clean (trim (squeeze false w)).
Proof.
  intros Hw. split; [|split].
  - apply (tidy_single_spaced _ false). apply (trim_tidy false). apply squeeze_tidy.
  - apply trim_trimmed.
  - apply List.Forall_forall. intros c Hc Hin.
    apply In_trim, In_squeeze in Hin. destruct Hin as [Hin | ->].
    + apply (Hw c Hc Hin).
    + apply space_not_corrupted. exact Hc.
Qed.

(** X4. The normalised text of a document is single-spaced (every white
    space in it is one U+0020 between other characters), has no white space
    at either end and no corrupted code point, whatever the input. *)
Theorem normalize_is_clean (text : jsstring) : clean (normalize text).
Proof.
  rewrite normalize_spec. apply trim_squeeze_clean.
  intros c Hc. apply fixLigatures_purged. exact Hc.
Qed.

Lemma cleanText_clean (text : jsstring) : clean (cleanText text).
Proof.
  rewrite cleanText_spec. destruct (truthy text) eqn:Ht.
  - apply trim_squeeze_clean. intros c Hc.
    apply keeps_out_rules; [|apply fixLigatures_purged; exact Hc].
    vm_compute. reflexivity.
  - split; [|split].
    + intros i c Hi. discriminate.
    + split; [exact Logic.I|]. intros pre c E. destruct pre; discriminate.
    + apply List.Forall_forall. intros c _ [].
Qed.

(** X5. The same holds for every result of [cleanText]; and [cleanText]
    equals trimming the squeezed text, so such a result is empty exactly
    when nothing but white space is left of the input after the ligature and
    watermark rules. *)
Theorem cleanText_is_clean (text : jsstring) :
  clean (cleanText text) /\
  (cleanText text = [] <->
   all_space (apply_rules watermark_rules (fixLigatures text)) = true).
Proof.
  split; [apply cleanText_clean|].
  rewrite cleanText_spec. destruct (truthy text) eqn:Ht.
  - idtac.
    + generalize (apply_rules watermark_rules (fixLigatures text)). intros w.
      assert (Hsq : forall l b, all_space (squeeze b l) = all_space l).
      { unfold all_space. induction l as [|x xs IH]; intros b; simpl; [reflexivity|].
        destruct (isWhiteSpace x) eqn:Hx.
        - destruct b; simpl; rewrite IH; reflexivity.
        - simpl. rewrite Hx. reflexivity. }
      rewrite <- (Hsq w false). generalize (squeeze false w). intros u. split.
      * intros H. unfold trim in H. apply (f_equal (@rev char)) in H.
        rewrite rev_involutive in H. simpl in H.
        destruct (trimStart_suffix (rev (trimStart u))) as [pre Hpre]. rewrite H, app_nil_r in Hpre.
        destruct (trimStart_suffix u) as [pre' Hpre'].
        assert (Hall : forall l, trimStart l = [] -> all_space l = true).
        { unfold all_space. induction l as [|x xs IH]; simpl; [reflexivity|].
          destruct (isWhiteSpace x); [exact IH | discriminate]. }
        destruct (trimStart u) as [|y ys] eqn:Hu; [apply Hall; exact Hu|].
        exfalso. pose proof (trimStart_head u) as Hh. rewrite Hu in Hh.
        assert (Hrev : all_space (rev (y :: ys)) = true) by (apply Hall; exact H).
        rewrite all_space_rev in Hrev. unfold all_space in Hrev. simpl in Hrev.
        rewrite Hh in Hrev. discriminate.
      * intros H. unfold trim. rewrite (trimStart_all_space u H). reflexivity.
  - destruct text; [|discriminate]. split; reflexivity.
Qed.

(** ** The texts and identities of records *)

Lemma record_fields (text sourcePdf : jsstring) (q : Question) :
  In q (parseQuestions text sourcePdf) ->
  exists questionText optA optB optC optD, cleaned_from q questionText optA optB optC optD.
Proof.
  unfold parseQuestions. intros Hq.
  destruct (List.length (structured (normalize text) sourcePdf) <? 5).
  - unfold parseQuestionsFlexible in Hq. apply in_flat_map in Hq.
    destruct Hq as (block & _ & Hq).
    destruct (flexible_block_inv _ _ _ Hq) as (_ & qt & a & b & c & d & Hc & _). eauto 10.
  - unfold structured in Hq. apply in_flat_map in Hq. destruct Hq as (pattern & Hpat & Hq).
    apply in_flat_map in Hq. destruct Hq as (mt & Hmt & Hq).
    destruct (structured_record_inv _ _ _ _ _ Hpat Hmt Hq) as (_ & Hc). exact Hc.
Qed.

(** X6. The question text and the four option texts of every record
    returned by [parseQuestions] are single-spaced, without white space at
    either end and without corrupted code points. *)
Theorem record_texts_are_clean (text sourcePdf : jsstring) (q : Question) :
  In q (parseQuestions text sourcePdf) ->
  clean (question q) /\
  clean (A (options q)) /\ clean (B (options q)) /\
  clean (C (options q)) /\ clean (D (options q)).
Proof.
  intros Hq.
  destruct (record_fields text sourcePdf q Hq) as (qt & a & b & c & d & Hquestion & Hopts & _).
  rewrite Hquestion, Hopts. cbn [A B C D].
  split; [|split; [|split; [|split]]]; apply cleanText_clean.
Qed.

Lemma record_texts_are_clean_witness :
  clean (question literal_record) /\
  clean (A (options literal_record)) /\ clean (B (options literal_record)) /\
  clean (C (options literal_record)) /\ clean (D (options literal_record)).
Proof.
  apply (record_texts_are_clean literal_text (js "a.pdf") literal_record).
  vm_compute. left. reflexivity.
Defined.

(** Case folding does not reach the digits. *)
Lemma digit_class (c : char) : class_matches true CDigit c = true -> isDigit c = true.
Proof.
  unfold class_matches. cbn [in_set]. unfold isDigit. bprop.
  destruct (canonicalize_cases c) as [(E & _)|[(? & E)|(? & E)]];
    destruct (uncanonicalize_cases c) as [(E' & _)|[(? & E')|(? & E')]];
    rewrite E, E'; lia.
Qed.

(** The number capture of the structured patterns is a numeral: one digit
    or more, and digits only. *)
Lemma structured_number (s : jsstring) (pattern : regex) (q : nat) (pv : option char)
    (mt : mstate) :
  In pattern patterns -> q <= List.length s ->
  match_at true pattern q pv (skipn q s) = Some mt ->
  exists num, group s 1 mt = Some num /\ num <> [] /\
              Forall (fun c => isDigit c = true) num.
Proof.
  intros Hpat Hq Hm.
  assert (Hshape : exists init tail,
            pattern = seq (init ++ RGroup 1 (plus CDigit) :: tail) /\
            ~ In 1 (groups (seq tail))).
  { destruct Hpat as [<-|[<-|[]]].
    - exists [q_prefix], (List.tl (pattern_items lettered)).
      split; [reflexivity|]. vm_compute. intuition discriminate.
    - exists [], (List.tl (pattern_items parenthesized)).
      split; [reflexivity|]. vm_compute. intuition discriminate. }
  destruct Hshape as (init & tail & -> & Hfree).
  unfold match_at in Hm.
  destruct (seq_inv true s init _ _ _ _ (match_at_wf s q pv Hq) Hm)
    as (st1 & H1 & Hwf1 & _ & _).
  rewrite m_seq_cons in H1. unfold plus in H1. cbn [m] in H1.
  destruct (rep_some true true CDigit (rest st1) _ _ st1 _ mt eq_refl H1)
    as (n & Hlo & Hn & Hk).
  pose proof (class_len_le true CDigit (rest st1)) as Hle.
  destruct (forward_spec s n st1 Hwf1 ltac:(lia)) as (Hwf' & Hpos & _ & _).
  destruct (m_inv true s (seq tail) _ _ _
              (wf_set_cap s (forward n st1) 1 (pos st1) (pos (forward n st1)) Hwf') Hk)
    as (st' & Hst' & _ & _ & Hframe).
  injection Hst' as ->.
  assert (Hcap : cap 1 mt = Some (pos st1, pos st1 + n)).
  { rewrite (Hframe 1 Hfree), cap_set_cap_eq, Hpos. reflexivity. }
  unfold group. rewrite Hcap. eexists. split; [reflexivity|].
  unfold substring. replace (pos st1 + n - pos st1) with n by lia.
  destruct Hwf1 as [Hrest _]. rewrite <- Hrest. split.
  - intros E. apply (f_equal (@List.length char)) in E.
    rewrite length_firstn in E. simpl in E. lia.
  - pose proof (class_len_Forall true CDigit (rest st1) n Hn) as HF.
    apply List.Forall_forall. intros c Hc. apply digit_class.
    rewrite List.Forall_forall in HF. apply HF. exact Hc.
Qed.

Lemma record_identity (text sourcePdf : jsstring) (q : Question) :
  In q (parseQuestions text sourcePdf) ->
  source q = sourcePdf /\
  exists digits, id q = sourcePdf ++ js "-" ++ digits /\
                 digits <> [] /\ Forall (fun c => isDigit c = true) digits /\
                 number q = parseInt digits.
Proof.
  unfold parseQuestions. intros Hq.
  destruct (List.length (structured (normalize text) sourcePdf) <? 5).
  - unfold parseQuestionsFlexible in Hq. apply in_flat_map in Hq.
    destruct Hq as (block & Hblock & Hq). unfold flexible_block in Hq.
    destruct (List.length (trim block) <? 20); [contradiction|].
    destruct (string_match false number_prefix block) as [[start numMatch]|] eqn:Hm;
      [|contradiction].
    destruct (block_number _ block start numMatch Hblock Hm) as (d & Hd & Hg).
    rewrite Hg in Hq. cbn [or_empty] in Hq.
    destruct (first_option_match optionPatterns _) as [optMatch|]; [|contradiction].
    unfold flexible_record in Hq.
    match type of Hq with In _ (if ?c then _ else _) => destruct c end; [|contradiction].
    destruct Hq as [<-|[]]. cbn [source id number]. split; [reflexivity|].
    destruct (digit_value d Hd) as (n & _ & _ & _ & Hstr). rewrite Hstr.
    exists [d]. split; [reflexivity|]. split; [discriminate|]. split; [|reflexivity].
    constructor; [exact Hd | constructor].
  - unfold structured in Hq. apply in_flat_map in Hq. destruct Hq as (pattern & Hpat & Hq).
    apply in_flat_map in Hq. destruct Hq as (mt & Hmt & Hq).
    destruct (exec_all_inv _ true pattern _ 0 None 0 mt eq_refl (Nat.le_0_l _) Hmt)
      as (p & pv & Hp & Hm).
    destruct (structured_number _ pattern p pv mt Hpat Hp Hm) as (num & Hnum & Hne & Hdigits).
    unfold structured_record in Hq. rewrite Hnum in Hq.
    repeat match type of Hq with
           | In _ (match ?g with Some _ => _ | None => [] end) =>
               destruct g; [|contradiction]
           end.
    match type of Hq with In _ (if ?c then _ else _) => destruct c end; [|contradiction].
    destruct Hq as [<-|[]]. cbn [source id number]. split; [reflexivity|].
    exists num. auto.
Qed.

(** X7. Every question in the pool of [loadPDFs] names as its source a
    submitted file that was read; its identity is that file's name, a
    hyphen and a numeral (one decimal digit or more, digits only), and its
    number is what [parseInt] returns for that numeral. *)
Theorem pool_provenance (files : list File) (q : Question) :
  In q (questions (loadPDFs files)) ->
  exists file digits,
    In file files /\ extractTextFromPDF file <> None /\
    source q = name file /\
    id q = name file ++ js "-" ++ digits /\
    digits <> [] /\ Forall (fun c => isDigit c = true) digits /\
    number q = parseInt digits.
Proof.
  rewrite loadPDFs_questions. intros Hq. apply in_flat_map in Hq.
  destruct Hq as (file & Hfile & Hq).
  unfold contribution, extractQuestionsFromPDF in Hq.
  destruct (extractTextFromPDF file) as [text|] eqn:Ht; [|contradiction].
  destruct (record_identity text (name file) q Hq) as (Hs & digits & Hid & Hne & Hd & Hn).
  exists file, digits. rewrite Ht. repeat split; auto.
Qed.

Lemma pool_provenance_witness :
  exists file digits,
    In file [bad_file; good_file] /\ extractTextFromPDF file <> None /\
    source literal_record = name file /\
    id literal_record = name file ++ js "-" ++ digits /\
    digits <> [] /\ Forall (fun c => isDigit c = true) digits /\
    number literal_record = parseInt digits.
Proof.
  apply (pool_provenance [bad_file; good_file] literal_record).
  vm_compute. left. reflexivity.
Defined.

(** ** What the normaliser writes *)

Lemma apply_rules_chars (rs : list rule) :
  forall s c, writes_ascii rs = true ->
  In c (apply_rules rs s) -> In c s \/ (c < 128)%N.
Proof.
  induction rs as [|rl rs IH]; intros s c Hw Hin; simpl in *; [left; exact Hin|].
  apply andb_true_iff in Hw. destruct Hw as [Hrl Hrs].
  destruct (IH _ _ Hrs Hin) as [H|H]; [|right; exact H].
  unfold apply_rule in H. apply replace_all_chars in H. destruct H as [H|H]; [left; exact H|].
  right. rewrite forallb_forall in Hrl. apply N.ltb_lt. apply Hrl. exact H.
Qed.

Lemma fixLigatures_chars (text : jsstring) (c : char) :
  In c (fixLigatures text) -> In c text \/ (c < 128)%N.
Proof.
  unfold fixLigatures. destruct (truthy text); [|intros []].
  apply apply_rules_chars. vm_compute. reflexivity.
Qed.

(** X8. The normaliser brings in nothing but ASCII: every code unit of the
    result of [fixLigatures], of the normalised text and of [cleanText] is a
    code unit of the input or is below 128. *)
Theorem only_ascii_is_written (text : jsstring) :
  Forall (fun c => In c text \/ (c < 128)%N) (fixLigatures text) /\
  Forall (fun c => In c text \/ (c < 128)%N) (normalize text) /\
  Forall (fun c => In c text \/ (c < 128)%N) (cleanText text).
Proof.
  split; [|split]; apply List.Forall_forall; intros c Hc.
  - apply fixLigatures_chars. exact Hc.
  - rewrite normalize_spec in Hc. apply In_trim, In_squeeze in Hc.
    destruct Hc as [Hc | ->]; [apply fixLigatures_chars; exact Hc | right; lia].
  - rewrite cleanText_spec in Hc. destruct (truthy text); [|destruct Hc].
    apply In_trim, In_squeeze in Hc. destruct Hc as [Hc | ->]; [|right; lia].
    apply apply_rules_chars in Hc; [|vm_compute; reflexivity].
    destruct Hc as [Hc|Hc]; [apply fixLigatures_chars; exact Hc | right; exact Hc].
Qed.

(** ** Loading and sampling *)

(** X9. [loadPDFs] treats the files one after the other and independently:
    the pool and the console of a list of files are those of its parts put
    together, and the console holds the names of the files that could not
    be read, in the order of the files. *)
Theorem loading_composes (first second : list File) :
  questions (loadPDFs (first ++ second))
    = questions (loadPDFs first) ++ questions (loadPDFs second) /\
  console (loadPDFs (first ++ second))
    = console (loadPDFs first) ++ console (loadPDFs second) /\
  console (loadPDFs first)
    = map name (List.filter (fun file => match extractTextFromPDF file with
                                         | None => true
                                         | Some _ => false
                                         end) first).
Proof.
  rewrite !loadPDFs_questions, !loadPDFs_console, !flat_map_app.
  split; [reflexivity|]. split; [reflexivity|].
  induction first as [|file files IH]; [reflexivity|].
  cbn [flat_map List.filter]. rewrite IH.
  unfold failure, extractQuestionsFromPDF.
  destruct (extractTextFromPDF file); reflexivity.
Qed.

(** X10. [shuffleArray] returns the elements of its argument, each as often
    as it occurs there, when [Math.random] stays in its range. *)
Theorem shuffle_is_rearrangement {X} (random : nat -> Q) (array : list X) :
  (forall t, (0 <= random t)%Q /\ (random t < 1)%Q) ->
  Permutation (shuffleArray random array) array /\
  List.length (shuffleArray random array) = List.length array.
Proof.
  intros Hr. pose proof (shuffleArray_Permutation random Hr array) as Hp.
  split; [exact Hp|]. apply Permutation_length. exact Hp.
Qed.

Lemma shuffle_is_rearrangement_witness :
  Permutation (shuffleArray sample_random [1; 2; 3; 4]) [1; 2; 3; 4] /\
  List.length (shuffleArray sample_random [1; 2; 3; 4]) = List.length [1; 2; 3; 4].
Proof.
  apply (shuffle_is_rearrangement sample_random [1; 2; 3; 4]).
  intros t. unfold sample_random. split; [vm_compute; discriminate | reflexivity].
Defined.

(** X11. [getRandomQuestions] for any integer [count]: it returns
    [min count m] records of the [m] available ones, all of them when
    [count] is [m] or more, none for [count] 0, and for a negative [count]
    the shuffled records without the last [-count]. *)
Theorem sample_size (random : nat -> Q) (pool : list Question)
    (count : Z) (excludeIds : list jsstring) :
  (forall t, (0 <= random t)%Q /\ (random t < 1)%Q) ->
  let m := Z.of_nat (List.length (available pool excludeIds)) in
  let result := getRandomQuestions random pool count excludeIds in
  Z.of_nat (List.length result)
    = (if count <? 0 then Z.max (m + count) 0 else Z.min count m)%Z /\
  (m <= count -> Permutation result (available pool excludeIds))%Z /\
  (count = 0 -> result = [])%Z.
Proof.
  intros Hr m result.
  pose proof (shuffleArray_Permutation random Hr (available pool excludeIds)) as Hp.
  pose proof (Permutation_length Hp) as Hlen.
  unfold result, getRandomQuestions, slice0. fold (available pool excludeIds).
  rewrite Hlen. fold m.
  split; [|split].
  - rewrite length_firstn, Hlen. fold m.
    destruct (Z.ltb_spec count 0); unfold m; lia.
  - intros Hm. destruct (Z.ltb_spec count 0) as [Hneg|Hpos]; [lia|].
    rewrite Z.min_r by exact Hm. unfold m. rewrite Nat2Z.id, <- Hlen, firstn_all. exact Hp.
  - intros ->. cbn. replace (Z.to_nat (Z.min 0 m)) with 0 by lia. reflexivity.
Qed.

Lemma sample_size_witness :
  let m := Z.of_nat (List.length (available sample_pool [js "a.pdf-2"])) in
  let result := getRandomQuestions sample_random sample_pool (-1) [js "a.pdf-2"] in
  Z.of_nat (List.length result)
    = (if -1 <? 0 then Z.max (m + -1) 0 else Z.min (-1) m)%Z /\
  (m <= -1 -> Permutation result (available sample_pool [js "a.pdf-2"]))%Z /\
  (-1 = 0 -> result = [])%Z.
Proof.
  apply (sample_size sample_random sample_pool (-1) [js "a.pdf-2"]).
  intros t. unfold sample_random. split; [vm_compute; discriminate | reflexivity].
Defined.

(** ** The second pass of the normaliser *)

Lemma normalize_purged (x : jsstring) (c : char) :
  In c corrupted_code_points -> ~ In c (normalize x).
Proof.
  intros Hc Hin. rewrite normalize_spec in Hin. apply In_trim, In_squeeze in Hin.
  destruct Hin as [Hin | ->].
  - apply (fixLigatures_purged x c Hc Hin).
  - apply (space_not_corrupted Hc).
Qed.

(** A rule for a code point that does not occur changes nothing. *)
Lemma glyph_inert (r : rule) (y : jsstring) :
  is_glyph r = true ->
  (forall c, In c corrupted_code_points -> ~ In c y) ->
  apply_rule y r = y.
Proof.
  unfold is_glyph, apply_rule.
  destruct r as [[|] [|[c'| | | | |]| | | | | | | | |] [|[text|] [|]]]; try discriminate.
  cbn [rule_icase rule_pattern rule_subst]. intros Hc Hy.
  apply occurs_In in Hc. specialize (Hy c' Hc).
  unfold replace_all. rewrite glyph_replace.
  clear Hc. induction y as [|x xs IH]; [reflexivity|].
  cbn [flat_map]. destruct (N.eqb_spec c' x) as [->|Hne].
  - exfalso. apply Hy. left. reflexivity.
  - cbn [List.app]. f_equal. apply IH. intros Hin. apply Hy. right. exact Hin.
Qed.

(** On a text without corrupted code points the table does what its
    word-level rules do. *)
Lemma word_rules_only (rs : list rule) :
  forallb (fun r => forallb (fun c => keeps_out c r) corrupted_code_points) rs = true ->
  forall y, (forall c, In c corrupted_code_points -> ~ In c y) ->
  apply_rules rs y = apply_rules (List.filter (fun r => negb (is_glyph r)) rs) y.
Proof.
  induction rs as [|r rs IH]; intros Hk y Hy; [reflexivity|].
  cbn [forallb] in Hk. apply andb_true_iff in Hk. destruct Hk as [Hr Hrs].
  cbn [List.filter]. destruct (is_glyph r) eqn:Hg; cbn [negb].
  - change (apply_rules (r :: rs) y) with (apply_rules rs (apply_rule y r)).
    rewrite (glyph_inert r y Hg Hy). apply (IH Hrs y Hy).
  - change (apply_rules (r :: rs) y) with (apply_rules rs (apply_rule y r)).
    change (apply_rules (r :: List.filter (fun r => negb (is_glyph r)) rs) y)
      with (apply_rules (List.filter (fun r => negb (is_glyph r)) rs) (apply_rule y r)).
    apply (IH Hrs). intros c Hc. apply keeps_out_sound; [|exact (Hy c Hc)].
    rewrite forallb_forall in Hr. apply Hr. exact Hc.
Qed.

Lemma fixLigatures_second_pass (x : jsstring) :
  fixLigatures (normalize x) = apply_rules word_rules (normalize x).
Proof.
  unfold fixLigatures. destruct (normalize x) as [|c y] eqn:E.
  - vm_compute. reflexivity.
  - cbn [truthy]. rewrite <- E. apply word_rules_only; [vm_compute; reflexivity|].
    intros c' Hc'. apply normalize_purged. exact Hc'.
Qed.

(** *** Word-level rules keep the white space in shape *)

Lemma visible_run (cl : cclass) (c : char) :
  visible_class cl = true -> class_matches false cl c = true -> isWhiteSpace c = false.
Proof.
  unfold class_matches. induction cl as [c'|lo hi| | | |a IHa b IHb]; cbn [visible_class in_set];
    try discriminate.
  - bprop. intros H E. destruct (isWhiteSpace c) eqn:W; [|reflexivity].
    apply isWhiteSpace_spec in W. lia.
  - bprop. intros H E. destruct (isWhiteSpace c) eqn:W; [|reflexivity].
    apply isWhiteSpace_spec in W. lia.
  - intros H E. apply andb_true_iff in H. apply orb_true_iff in E.
    destruct H as [Ha Hb]. destruct E as [E|E]; auto.
Qed.

Section Runs.

Variable s : jsstring.

Lemma held_caps (st st' : mstate) : caps st' = caps st -> held s st -> held s st'.
Proof. intros E H n b e Hc. apply (H n b e). unfold cap in *. rewrite <- E. exact Hc. Qed.

(** The captures of a pattern whose groups are runs of letters hold no
    white space. *)
Lemma m_held (r : regex) :
  letter_groups r = true ->
  forall st k res,
  wf s st -> held s st ->
  m false r st k = Some res ->
  exists st', k st' = Some res /\ wf s st' /\ held s st'.
Proof.
  induction r as [|cl|a IHa b IHb|a IHa b IHb|g lo hi cl|a IHa|n a IHa| | | |a IHa];
    intros Hr st k res Hwf Hheld H; cbn [m] in H; cbn [letter_groups] in Hr.
  - exists st. auto.
  - destruct (rest st) as [|x xs] eqn:Hrest; [discriminate|].
    destruct (class_matches false cl x); [|discriminate].
    exists (advance x xs st). destruct (wf_advance s st x xs Hwf Hrest) as [Hwf' _].
    split; [exact H|]. split; [exact Hwf'|]. apply (held_caps st); [reflexivity | exact Hheld].
  - apply andb_true_iff in Hr. destruct Hr as [Ha Hb].
    destruct (IHa Ha _ _ _ Hwf Hheld H) as (st1 & H1 & Hwf1 & Hheld1).
    apply (IHb Hb _ _ _ Hwf1 Hheld1 H1).
  - apply andb_true_iff in Hr. destruct Hr as [Ha Hb].
    destruct (m false a st k) as [r|] eqn:Hma.
    + injection H as <-. apply (IHa Ha _ _ _ Hwf Hheld Hma).
    + apply (IHb Hb _ _ _ Hwf Hheld H).
  - destruct (rep_some false g cl (rest st) lo hi st k res eq_refl H) as (j & _ & Hj & Hk).
    pose proof (class_len_le false cl (rest st)) as Hle.
    destruct (forward_spec s j st Hwf ltac:(lia)) as (Hwf' & _ & _ & Hc).
    exists (forward j st). split; [exact Hk|]. split; [exact Hwf'|].
    apply (held_caps st); assumption.
  - destruct (m false a st _) as [r|] eqn:Hma.
    + injection H as <-.
      destruct (IHa Hr _ _ _ Hwf Hheld Hma) as (st1 & H1 & Hwf1 & Hheld1).
      destruct (Nat.eqb (pos st1) (pos st)); [discriminate|].
      exists st1. auto.
    + exists st. auto.
  - destruct a as [| | | |g lo hi cl| | | | | |]; try discriminate.
    cbn [m] in H.
    destruct (rep_some false g cl (rest st) lo hi st _ res eq_refl H) as (j & _ & Hj & Hk).
    pose proof (class_len_le false cl (rest st)) as Hle.
    destruct (forward_spec s j st Hwf ltac:(lia)) as (Hwf' & Hpos & _ & Hc).
    exists (set_cap n (pos st) (pos (forward j st)) (forward j st)).
    split; [exact Hk|]. split; [exact Hwf'|].
    intros n' b e Hcap. unfold cap, set_cap in Hcap. cbn [caps get_cap] in Hcap.
    destruct (Nat.eqb n' n).
    + injection Hcap as <- <-. rewrite Hpos. unfold substring.
      replace (pos st + j - pos st) with j by lia.
      destruct Hwf as [Hrest _]. rewrite <- Hrest.
      pose proof (class_len_Forall false cl (rest st) j Hj) as HF.
      apply List.Forall_forall. intros c Hin. rewrite List.Forall_forall in HF.
      apply (visible_run cl c Hr). apply HF. exact Hin.
    + apply (Hheld n' b e). unfold cap. rewrite <- Hc. exact Hcap.
  - destruct (Nat.eqb (pos st) 0); [|discriminate]. exists st. auto.
  - destruct (rest st); [|discriminate]. exists st. auto.
  - destruct (xorb _ _); [|discriminate]. exists st. auto.
  - destruct (m false a st Some) as [st1|] eqn:Hma; [|discriminate].
    destruct (IHa Hr _ _ _ Hwf Hheld Hma) as (st2 & H2 & _ & Hheld2). injection H2 as ->.
    exists (MState (pos st) (prev st) (rest st) (caps st1)).
    split; [exact H|]. split; [exact Hwf|]. apply (held_caps st1); [reflexivity | exact Hheld2].
Qed.

End Runs.
(** What a rule that writes a word puts in place of a match. *)
Lemma expansions_solid (r : rule) (s : jsstring) (p : nat) (pv : option char) (st : mstate) :
  writes_word r = true -> p <= List.length s ->
  match_at (rule_icase r) (rule_pattern r) p pv (skipn p s) = Some st ->
  solid (expand (rule_subst r) s st).
Proof.
  unfold writes_word. intros Hw Hp Hm.
  apply andb_true_iff in Hw. destruct Hw as [Hw Hrefs].
  apply andb_true_iff in Hw. destruct Hw as [Hfree Hsome].
  assert (Hitems : forall t, In t (rule_subst r) ->
            Forall (fun c => isWhiteSpace c = false) (expand_item s st t)).
  { assert (Hlit : forall l, In (TLit l) (rule_subst r) ->
              Forall (fun c => isWhiteSpace c = false) l).
    { intros l Hl. apply List.Forall_forall. intros c Hc.
      rewrite forallb_forall in Hfree. apply negb_true_iff. apply Hfree.
      unfold literals. apply in_flat_map. exists (TLit l). auto. }
    apply orb_true_iff in Hrefs. destruct Hrefs as [Hall|Hgroups].
    - intros [l|n] Ht; [apply Hlit; exact Ht|].
      rewrite forallb_forall in Hall. specialize (Hall _ Ht). discriminate.
    - apply andb_true_iff in Hgroups. destruct Hgroups as [Hg Hic].
      apply negb_true_iff in Hic. rewrite Hic in Hm. unfold match_at in Hm.
      destruct (m_held s (rule_pattern r) Hg _ _ _ (match_at_wf s p pv Hp)
                  ltac:(intros n b e Hc; discriminate) Hm) as (st' & Hk & _ & Hheld).
      injection Hk as ->.
      intros [l|n] Ht; [apply Hlit; exact Ht|].
      cbn [expand_item]. unfold group. destruct (cap n st) as [[b e]|] eqn:Hc; [|constructor].
      apply (Hheld n b e Hc). }
  split.
  - unfold expand. intros Hnil.
    assert (Hl : literals (rule_subst r) = []).
    { unfold literals. revert Hnil. clear. induction (rule_subst r) as [|t tpl IH]; [reflexivity|].
      cbn [map concat flat_map]. intros H. apply app_eq_nil in H. destruct H as [Ht Htpl].
      rewrite (IH Htpl), app_nil_r. destruct t; [exact Ht | reflexivity]. }
    rewrite Hl in Hsome. discriminate.
  - unfold expand. revert Hitems. clear. induction (rule_subst r) as [|t tpl IH]; intros H.
    + constructor.
    + cbn [map concat]. apply Forall_app. split.
      * apply H. left. reflexivity.
      * apply IH. intros t' Ht'. apply H. right. exact Ht'.
Qed.

Lemma tidy_weaken (l : jsstring) : tidy true l -> tidy false l.
Proof.
  destruct l as [|x xs]; [auto|]. cbn [tidy]. destruct (isWhiteSpace x); [|auto].
  intros (_ & E & _). discriminate.
Qed.

Lemma tidy_any (b : bool) (l : jsstring) : tidy b l -> tidy false l.
Proof. destruct b; [apply tidy_weaken | auto]. Qed.

Lemma tidy_cons (b : bool) (x : char) (xs out : jsstring) :
  tidy b (x :: xs) ->
  (forall b', tidy b' xs -> tidy b' out) ->
  tidy b (x :: out).
Proof.
  cbn [tidy]. intros H Hout. destruct (isWhiteSpace x).
  - destruct H as (E1 & E2 & H). auto.
  - auto.
Qed.

Lemma tidy_tail (b : bool) (x : char) (xs : jsstring) :
  tidy b (x :: xs) -> tidy (isWhiteSpace x) xs.
Proof. cbn [tidy]. destruct (isWhiteSpace x); [intros (_ & _ & H); exact H | auto]. Qed.

Lemma tidy_after_word (E R : jsstring) (b : bool) :
  Forall (fun c => isWhiteSpace c = false) E -> tidy false R ->
  E <> [] \/ b = false -> tidy b (E ++ R).
Proof.
  intros HE HR. revert b. induction HE as [|c E' Hc _ IH]; intros b Hb.
  - destruct Hb as [Hb | ->]; [contradiction | exact HR].
  - cbn [List.app tidy]. rewrite Hc. apply IH. right. reflexivity.
Qed.

Lemma ends_clean_cons (x : char) (out : jsstring) :
  (out = [] -> isWhiteSpace x = false) -> ends_clean out -> ends_clean (x :: out).
Proof. intros Hx Hout. cbn [ends_clean]. destruct out; auto. Qed.

Lemma ends_clean_tail (x : char) (xs : jsstring) : ends_clean (x :: xs) -> ends_clean xs.
Proof. cbn [ends_clean]. destruct xs; [intros _; exact Logic.I | auto]. Qed.

Lemma ends_clean_word (E : jsstring) :
  Forall (fun c => isWhiteSpace c = false) E -> ends_clean E.
Proof.
  intros HE. induction HE as [|c E' Hc _ IH]; [exact Logic.I|].
  apply ends_clean_cons; auto.
Qed.

Lemma ends_clean_app (a b : jsstring) :
  (b = [] -> ends_clean a) -> ends_clean b -> ends_clean (a ++ b).
Proof.
  intros Ha Hb. induction a as [|c a IH]; [exact Hb|].
  cbn [List.app]. apply ends_clean_cons.
  - intros E. apply app_eq_nil in E. destruct E as [-> ->]. apply (Ha eq_refl).
  - apply IH. intros E. apply (ends_clean_tail c). apply Ha. exact E.
Qed.

Section Shape.

Variable ic : bool.
Variable r : regex.
Variable tpl : template.
Variable s : jsstring.

Hypothesis words : forall p pv st,
  p <= List.length s -> match_at ic r p pv (skipn p s) = Some st -> solid (expand tpl s st).

Lemma suffix_step (p : nat) (x : char) (xs : jsstring) :
  x :: xs = skipn p s -> p <= List.length s ->
  xs = skipn (Datatypes.S p) s /\ Datatypes.S p <= List.length s.
Proof.
  intros Hl Hp.
  assert (Hwf : wf s (MState p None (x :: xs) [])) by (split; simpl; auto).
  destruct (wf_advance s _ x xs Hwf eq_refl) as [[Hr' Hp'] _]. simpl in Hr', Hp'. auto.
Qed.

(** A replacement keeps single spaces single. *)
Lemma replace_go_tidy (l : jsstring) :
  forall p pv skip b,
  l = skipn p s -> p <= List.length s -> tidy b l ->
  tidy (match skip with O => b | Datatypes.S _ => false end) (replace_go ic r tpl s p pv l skip).
Proof.
  induction l as [|x xs IH]; intros p pv skip b Hl Hp Ht.
  - destruct skip; cbn [replace_go]; [|exact Logic.I].
    destruct (match_at ic r p pv []) as [st|] eqn:Hm; [|exact Logic.I].
    rewrite Hl in Hm. destruct (words p pv st Hp Hm) as [Hne HE].
    apply tidy_after_word; [exact HE | exact Logic.I | left; exact Hne].
  - destruct (suffix_step p x xs Hl Hp) as [Hl' Hp'].
    assert (Hskip : forall k pv', tidy false (replace_go ic r tpl s (Datatypes.S p) pv' xs k)).
    { intros k pv'. pose proof (IH (Datatypes.S p) pv' k _ Hl' Hp' (tidy_tail b x xs Ht)) as H.
      destruct k; [apply (tidy_any _ _ H) | exact H]. }
    assert (Hcopy : forall b' pv', tidy b' (x :: xs) ->
              tidy b' (x :: replace_go ic r tpl s (Datatypes.S p) pv' xs 0)).
    { intros b' pv' Hb'. apply (tidy_cons b' x xs); [exact Hb'|].
      intros b'' H''. apply (IH (Datatypes.S p) pv' 0 b'' Hl' Hp' H''). }
    destruct skip as [|k]; cbn [replace_go]; [|apply Hskip].
    destruct (match_at ic r p pv (x :: xs)) as [st|] eqn:Hm; [|apply Hcopy; exact Ht].
    rewrite Hl in Hm. destruct (words p pv st Hp Hm) as [Hne HE].
    apply tidy_after_word; [exact HE | | left; exact Hne].
    destruct (Nat.eqb (pos st) p); [|apply Hskip].
    apply Hcopy. apply (tidy_any b). exact Ht.
Qed.

Lemma replace_go_nonempty (l : jsstring) (p : nat) (pv : option char) :
  l = skipn p s -> p <= List.length s ->
  replace_go ic r tpl s p pv l 0 = [] -> l = [].
Proof.
  intros Hl Hp H. destruct l as [|x xs]; [reflexivity|]. exfalso.
  cbn [replace_go] in H.
  destruct (match_at ic r p pv (x :: xs)) as [st|] eqn:Hm; [|discriminate].
  rewrite Hl in Hm. destruct (words p pv st Hp Hm) as [Hne _].
  apply app_eq_nil in H. destruct H as [H _]. contradiction.
Qed.

(** A replacement puts no white space at the end. *)
Lemma replace_go_ends (l : jsstring) :
  forall p pv skip,
  l = skipn p s -> p <= List.length s -> ends_clean l ->
  ends_clean (replace_go ic r tpl s p pv l skip).
Proof.
  induction l as [|x xs IH]; intros p pv skip Hl Hp He.
  - destruct skip; cbn [replace_go]; [|exact Logic.I].
    destruct (match_at ic r p pv []) as [st|] eqn:Hm; [|exact Logic.I].
    rewrite Hl in Hm. destruct (words p pv st Hp Hm) as [_ HE].
    rewrite app_nil_r. apply ends_clean_word. exact HE.
  - destruct (suffix_step p x xs Hl Hp) as [Hl' Hp'].
    pose proof (ends_clean_tail x xs He) as He'.
    assert (Hcopy : forall pv',
              ends_clean (x :: replace_go ic r tpl s (Datatypes.S p) pv' xs 0)).
    { intros pv'. apply ends_clean_cons; [|apply IH; assumption].
      intros Hnil. apply (replace_go_nonempty xs _ _ Hl' Hp') in Hnil.
      rewrite Hnil in He. exact He. }
    destruct skip as [|k]; cbn [replace_go]; [|apply IH; assumption].
    destruct (match_at ic r p pv (x :: xs)) as [st|] eqn:Hm; [|apply Hcopy].
    rewrite Hl in Hm. destruct (words p pv st Hp Hm) as [_ HE].
    apply ends_clean_app; [intros _; apply ends_clean_word; exact HE|].
    destruct (Nat.eqb (pos st) p); [apply Hcopy | apply IH; assumption].
Qed.

End Shape.

Lemma apply_rules_shape (rs : list rule) :
  forallb writes_word rs = true ->
  forall y, tidy true y -> ends_clean y ->
  tidy true (apply_rules rs y) /\ ends_clean (apply_rules rs y).
Proof.
  induction rs as [|r rs IH]; intros Hw y Ht He; [auto|].
  cbn [forallb] in Hw. apply andb_true_iff in Hw. destruct Hw as [Hr Hrs].
  change (apply_rules (r :: rs) y) with (apply_rules rs (apply_rule y r)).
  assert (Hwords : forall p pv st, p <= List.length y ->
            match_at (rule_icase r) (rule_pattern r) p pv (skipn p y) = Some st ->
            solid (expand (rule_subst r) y st)).
  { intros p pv st Hp Hm. apply (expansions_solid r y p pv st Hr Hp Hm). }
  apply (IH Hrs); unfold apply_rule, replace_all.
  - apply (replace_go_tidy _ _ _ y Hwords y 0 None 0 true eq_refl (Nat.le_0_l _) Ht).
  - apply (replace_go_ends _ _ _ y Hwords y 0 None 0 eq_refl (Nat.le_0_l _) He).
Qed.

Lemma ends_clean_last (l : jsstring) :
  (forall pre c, l = pre ++ [c] -> isWhiteSpace c = false) <-> ends_clean l.
Proof.
  induction l as [|x xs IH]; split.
  - intros _. exact Logic.I.
  - intros _ pre c E. destruct pre; discriminate.
  - intros H. apply ends_clean_cons.
    + intros ->. apply (H [] x). reflexivity.
    + apply IH. intros pre c E. apply (H (x :: pre) c). rewrite E. reflexivity.
  - intros He pre c E. destruct pre as [|y pre].
    + injection E as -> ->. exact He.
    + injection E as -> E. apply ends_clean_tail in He.
      destruct IH as [_ IH]. apply (IH He pre c E).
Qed.

Lemma normalize_shape (x : jsstring) : tidy true (normalize x) /\ ends_clean (normalize x).
Proof.
  rewrite normalize_spec. split.
  - pose proof (trim_starts_clean (squeeze false (fixLigatures x))) as Hs.
    assert (Ht : tidy false (trim (squeeze false (fixLigatures x))))
      by (apply (trim_tidy false), squeeze_tidy).
    destruct (trim (squeeze false (fixLigatures x))) as [|c l]; [exact Logic.I|].
    cbn [tidy starts_clean] in *. rewrite Hs in *. exact Ht.
  - apply ends_clean_last. intros pre c E. apply (trim_last _ pre c E).
Qed.

(** On a text in shape the white-space stage changes nothing. *)
Lemma shape_fixed (w : jsstring) :
  tidy true w -> ends_clean w ->
  trim (apply_rule (apply_rule w collapse_rule) crlf_rule) = w.
Proof.
  intros Ht He. rewrite spacing_stage.
  destruct (tidy_squeeze w) as [_ Hs]. rewrite (Hs (tidy_weaken w Ht)).
  unfold trim.
  assert (Hstart : starts_clean w).
  { destruct w as [|c l]; [exact Logic.I|]. cbn [tidy starts_clean] in *.
    destruct (isWhiteSpace c); [destruct Ht as (_ & E & _); discriminate | reflexivity]. }
  rewrite (trimStart_clean w Hstart). rewrite trimStart_clean; [apply rev_involutive|].
  destruct (rev w) as [|c pre] eqn:E; [exact Logic.I|]. cbn [starts_clean].
  destruct (ends_clean_last w) as [_ Hlast]. apply (Hlast He (rev pre) c).
  apply (f_equal (@rev char)) in E. rewrite rev_involutive in E. exact E.
Qed.

(** Two passes differ on an input with a spaced theta in two places of one
    word: the catch-all rule joins one of them in each pass. *)
Example theta_fragments_not_idempotent :
  normalize theta_fragments = js "institu ti on" /\
  normalize (normalize theta_fragments) = js "institution".
Proof. split; vm_compute; reflexivity. Qed.

(** C5, amended. For every input, a second normalisation is the word-level
    rules of the table applied to the normalised text, and nothing else: no
    code point is replaced, and the white-space collapse, the line-ending
    rule and the trim change neither the normalised text nor what the
    word-level rules make of it.  So normalising twice gives the same as
    normalising once exactly when the word-level rules leave the normalised
    text unchanged. *)
Theorem normalize_second_pass (x : jsstring) :
  let y := normalize x in
  normalize y = apply_rules word_rules y /\
  trim (apply_rule (apply_rule y collapse_rule) crlf_rule) = y /\
  (normalize y = y <-> apply_rules word_rules y = y).
Proof.
  intros y. destruct (normalize_shape x) as [Ht He]. fold y in Ht, He.
  assert (Hsecond : normalize y = apply_rules word_rules y).
  { unfold normalize at 1. unfold y. rewrite fixLigatures_second_pass. fold y.
    destruct (apply_rules_shape word_rules ltac:(vm_compute; reflexivity) y Ht He)
      as [Ht' He'].
    apply shape_fixed; assumption. }
  split; [exact Hsecond|]. split; [apply shape_fixed; assumption|].
  rewrite Hsecond. tauto.
Qed.

Lemma normalize_second_pass_witness :
  normalize theta_word = js "function" /\
  normalize (normalize theta_word) = normalize theta_word.
Proof.
  split; [vm_compute; reflexivity|].
  apply (normalize_second_pass theta_word). vm_compute. reflexivity.
Defined.

(** * The quiz *)

Ltac show_question :=
  unfold showQuestion;
  match goal with |- context [?l !! ?i] => destruct (l !! i) end; cbn.

Lemma In_prefix {X} (n : nat) (l : list X) (x : X) : In x (firstn n l) -> In x l.
Proof. intros H. rewrite <- (firstn_skipn n l). apply in_or_app. auto. Qed.

Lemma sample_spec (random : nat -> Q) (pool : list Question) (used : list jsstring) :
  (forall t, (0 <= random t)%Q /\ (random t < 1)%Q) ->
  getRandomQuestions random pool (Z.of_nat QUESTIONS_PER_ROUND) used
    = firstn QUESTIONS_PER_ROUND (shuffleArray random (available pool used)) /\
  Permutation (shuffleArray random (available pool used)) (available pool used).
Proof.
  intros Hr. split.
  - unfold getRandomQuestions. apply slice0_nat.
  - apply shuffleArray_Permutation. exact Hr.
Qed.

Lemma startRound_fields (random : nat -> Q) (app : App) :
  let round := getRandomQuestions random (pdfParser app)
                 (Z.of_nat QUESTIONS_PER_ROUND) (usedQuestionIds app) in
  pdfParser (startRound random app) = pdfParser app /\
  currentRound (startRound random app) = currentRound app /\
  roundScores (startRound random app) = roundScores app /\
  roundQuestions (startRound random app) = round /\
  usedQuestionIds (startRound random app) = usedQuestionIds app ++ map id round /\
  currentQuestionIndex (startRound random app) = 0.
Proof. unfold startRound. show_question; repeat split; reflexivity. Qed.

(** The questions of a round come from the pool and have identities that
    were not used. *)
Lemma startRound_fresh (random : nat -> Q) (app : App) (q : Question) :
  (forall t, (0 <= random t)%Q /\ (random t < 1)%Q) ->
  In q (roundQuestions (startRound random app)) ->
  In q (pdfParser app) /\ ~ In (id q) (usedQuestionIds app).
Proof.
  intros Hr Hq.
  destruct (startRound_fields random app) as (_ & _ & _ & Hround & _). rewrite Hround in Hq.
  destruct (sample_spec random (pdfParser app) (usedQuestionIds app) Hr) as [Hres Hperm].
  rewrite Hres in Hq. apply In_prefix in Hq.
  apply (Permutation_in q Hperm) in Hq.
  unfold available in Hq. apply filter_In in Hq. destruct Hq as [Hpool Hex].
  split; [exact Hpool|]. intros Hin. apply includes_In in Hin. rewrite Hin in Hex. discriminate.
Qed.

Lemma nextQuestion_fields (app : App) :
  pdfParser (nextQuestion app) = pdfParser app /\
  currentRound (nextQuestion app) = currentRound app /\
  roundQuestions (nextQuestion app) = roundQuestions app /\
  usedQuestionIds (nextQuestion app) = usedQuestionIds app.
Proof.
  unfold nextQuestion. cbv zeta. cbn [currentQuestionIndex].
  destruct (QUESTIONS_PER_ROUND <=? currentQuestionIndex app + 1);
    [repeat split; reflexivity|].
  show_question; repeat split; reflexivity.
Qed.

Lemma within_round_keeps (app : App) (e : event) :
  within_round e = true ->
  pdfParser (step app e) = pdfParser app /\
  currentRound (step app e) = currentRound app /\
  roundQuestions (step app e) = roundQuestions app /\
  usedQuestionIds (step app e) = usedQuestionIds app.
Proof.
  destruct e; try discriminate; intros _; cbn [step].
  - unfold selectOption. destruct (isAnswered app); repeat split; reflexivity.
  - apply nextQuestion_fields.
  - unfold skipQuestion. destruct (isAnswered app); [repeat split; reflexivity|].
    apply nextQuestion_fields.
  - repeat split; reflexivity.
Qed.

Lemma run_within_round (events : list event) :
  forall app, forallb within_round events = true ->
  pdfParser (run app events) = pdfParser app /\
  currentRound (run app events) = currentRound app /\
  roundQuestions (run app events) = roundQuestions app /\
  usedQuestionIds (run app events) = usedQuestionIds app.
Proof.
  induction events as [|e events IH]; intros app H; [repeat split; reflexivity|].
  cbn in H. apply andb_true_iff in H. destruct H as [He Hes].
  destruct (within_round_keeps app e He) as (H1 & H2 & H3 & H4).
  destruct (IH (step app e) Hes) as (K1 & K2 & K3 & K4).
  cbn [run fold_left]. fold (run (step app e) events).
  rewrite K1, K2, K3, K4. auto.
Qed.

Lemma begins_round_fields (app : App) (e : event) :
  begins_round e = true -> in_range e ->
  incl (map id (roundQuestions (step app e))) (usedQuestionIds (step app e)).
Proof.
  destruct e; try discriminate; intros _ Hr; cbn [step];
    unfold restartQuiz, startQuiz, startNextRound, showScreen; cbn [roundQuestions usedQuestionIds];
    match goal with |- context [startRound ?r ?a] =>
      destruct (startRound_fields r a) as (_ & _ & _ & -> & -> & _) end;
    apply incl_appr, incl_refl.
Qed.

(** X12. In a quiz no identity is asked in two rounds: after an event that
    begins a round, whatever happens next short of a restart, the round
    being played is either still that round or has no identity in common
    with it. *)
Theorem no_identity_in_two_rounds (app : App) (first : event) (events : list event) :
  begins_round first = true -> in_range first ->
  Forall in_range events -> forallb continues events = true ->
  let began := step app first in
  let later := run began events in
  (currentRound later = currentRound began ->
   roundQuestions later = roundQuestions began) /\
  (currentRound later <> currentRound began ->
   forall q q', In q (roundQuestions began) -> In q' (roundQuestions later) ->
   id q <> id q').
Proof.
  intros Hb Hr Hrs Hcs began later.
  pose proof (begins_round_fields app first Hb Hr) as Hused. fold began in Hused.
  assert (Inv : forall evs cur,
    Forall in_range evs -> forallb continues evs = true ->
    (currentRound began <= currentRound cur)%positive ->
    incl (map id (roundQuestions began)) (usedQuestionIds cur) ->
    (currentRound cur = currentRound began -> roundQuestions cur = roundQuestions began) ->
    (currentRound cur <> currentRound began ->
     forall q q', In q (roundQuestions began) -> In q' (roundQuestions cur) -> id q <> id q') ->
    (currentRound (run cur evs) = currentRound began ->
     roundQuestions (run cur evs) = roundQuestions began) /\
    (currentRound (run cur evs) <> currentRound began ->
     forall q q', In q (roundQuestions began) -> In q' (roundQuestions (run cur evs)) ->
     id q <> id q')).
  { induction evs as [|e evs IH]; intros cur Hin Hco Hle Hincl Hsame Hdiff; [split; assumption|].
    cbn [run fold_left]. fold (run (step cur e) evs).
    inversion Hin as [|e' evs' He Hes]; subst.
    cbn in Hco. apply andb_true_iff in Hco. destruct Hco as [Hce Hces].
    destruct (begins_round e) eqn:Hbe.
    - destruct e; try discriminate. cbn [step].
      unfold startNextRound, showScreen.
      match goal with |- context [startRound ?r ?a] =>
        pose proof (startRound_fields r a) as Hf;
        pose proof (fun q => startRound_fresh r a q He) as Hfresh;
        set (next := startRound r a) in * end.
      cbn [pdfParser currentRound usedQuestionIds] in Hf, Hfresh.
      destruct Hf as (_ & Hcr & _ & _ & Hu & _).
      apply IH; cbn [currentRound roundQuestions usedQuestionIds]; try assumption.
      + rewrite Hcr. lia.
      + rewrite Hu. apply incl_appl. exact Hincl.
      + rewrite Hcr. lia.
      + intros _ q q' Hq Hq' E. destruct (Hfresh q' Hq') as [_ Hnot]. apply Hnot.
        rewrite <- E. apply Hincl. apply in_map. exact Hq.
    - assert (Hw : within_round e = true) by (unfold within_round; rewrite Hbe; reflexivity).
      destruct (within_round_keeps cur e Hw) as (_ & K2 & K3 & K4).
      apply IH; try assumption; rewrite ?K2, ?K3, ?K4; assumption. }
  apply Inv; try assumption.
  - lia.
  - intros _. reflexivity.
  - intros H. contradiction.
Qed.

Lemma sample_random_range : forall t, (0 <= sample_random t)%Q /\ (sample_random t < 1)%Q.
Proof. intros t. unfold sample_random. split; [vm_compute; discriminate | reflexivity]. Qed.

Lemma no_identity_in_two_rounds_witness :
  let began := step (fresh_app (numbered_pool 25)) (StartQuiz sample_random) in
  let later := run began [SkipQuestion; StartNextRound sample_random] in
  (currentRound later = currentRound began ->
   roundQuestions later = roundQuestions began) /\
  (currentRound later <> currentRound began ->
   forall q q', In q (roundQuestions began) -> In q' (roundQuestions later) ->
   id q <> id q').
Proof.
  apply (no_identity_in_two_rounds (fresh_app (numbered_pool 25)) (StartQuiz sample_random)
           [SkipQuestion; StartNextRound sample_random]).
  - reflexivity.
  - exact sample_random_range.
  - constructor; [exact Logic.I|]. constructor; [exact sample_random_range|]. constructor.
  - reflexivity.
Defined.

(** ** The size of a round *)

Lemma NoDup_map_filter {X Y} (f : X -> Y) (p : X -> bool) (l : list X) :
  NoDup (map f l) -> NoDup (map f (List.filter p l)).
Proof.
  induction l as [|x l IH]; intros H; [constructor|].
  cbn in H. apply NoDup_cons in H. destruct H as [Hnot Hnd].
  cbn. destruct (p x); [|apply IH; exact Hnd].
  cbn. apply NoDup_cons. split; [|apply IH; exact Hnd].
  intros Hin. apply Hnot. apply list_elem_of_In. apply list_elem_of_In in Hin.
  apply in_map_iff in Hin. destruct Hin as (z & E & Hz).
  apply filter_In in Hz. destruct Hz as [Hz _]. rewrite <- E. apply in_map. exact Hz.
Qed.

(** With different identities in the pool, every used identity takes one
    record out. *)
Lemma available_length (pool : list Question) (used : list jsstring) :
  NoDup (map id pool) -> NoDup used -> incl used (map id pool) ->
  List.length (available pool used) = List.length pool - List.length used.
Proof.
  intros Hpool Hused Hincl.
  pose proof (filter_split (fun q => negb (includes used (id q))) pool) as Hsplit.
  apply Permutation_length in Hsplit. rewrite length_app in Hsplit.
  fold (available pool used) in Hsplit.
  set (taken := List.filter (fun q => negb (negb (includes used (id q)))) pool) in *.
  assert (Hperm : Permutation (map id taken) used).
  { apply NoDup_Permutation; [apply NoDup_map_filter; exact Hpool | exact Hused |].
    intros x. rewrite !list_elem_of_In. split.
    - intros Hx. apply in_map_iff in Hx. destruct Hx as (q & <- & Hq).
      apply filter_In in Hq. destruct Hq as [_ Hq].
      apply negb_true_iff, negb_false_iff in Hq. apply includes_In. exact Hq.
    - intros Hx. pose proof (Hincl x Hx) as Hp. apply in_map_iff in Hp.
      destruct Hp as (q & <- & Hq). apply in_map. apply filter_In. split; [exact Hq|].
      apply negb_true_iff, negb_false_iff. apply includes_In. exact Hx. }
  apply Permutation_length in Hperm. rewrite length_map in Hperm. lia.
Qed.

Lemma startRound_size (random : nat -> Q) (app : App) :
  (forall t, (0 <= random t)%Q /\ (random t < 1)%Q) ->
  NoDup (map id (pdfParser app)) ->
  NoDup (usedQuestionIds app) ->
  incl (usedQuestionIds app) (map id (pdfParser app)) ->
  List.length (roundQuestions (startRound random app))
    = Nat.min QUESTIONS_PER_ROUND
        (List.length (pdfParser app) - List.length (usedQuestionIds app)) /\
  NoDup (usedQuestionIds (startRound random app)) /\
  incl (usedQuestionIds (startRound random app)) (map id (pdfParser app)).
Proof.
  intros Hr Hpool Hused Hincl.
  pose proof (fun q => startRound_fresh random app q Hr) as Hfresh.
  destruct (startRound_fields random app) as (_ & _ & _ & Hround & Hu & _).
  destruct (sample_spec random (pdfParser app) (usedQuestionIds app) Hr) as [Hres Hperm].
  rewrite Hu. rewrite Hround in *. clear Hround Hu.
  split; [|split].
  - rewrite Hres, length_firstn, (Permutation_length Hperm).
    rewrite available_length by assumption. reflexivity.
  - apply NoDup_app. split; [exact Hused|]. split.
    + intros x Hx Hin. apply list_elem_of_In in Hx. apply list_elem_of_In in Hin.
      apply in_map_iff in Hin. destruct Hin as (q & <- & Hq).
      destruct (Hfresh q Hq) as [_ Hnot]. contradiction.
    + assert (HN : NoDup (map id (shuffleArray random
                                    (available (pdfParser app) (usedQuestionIds app))))).
      { rewrite (Permutation_map id Hperm). apply NoDup_map_filter. exact Hpool. }
      rewrite <- (firstn_skipn QUESTIONS_PER_ROUND) in HN.
      apply NoDup_app in HN. destruct HN as [HN _].
      rewrite Hres, <- firstn_map. exact HN.
  - apply incl_app; [exact Hincl|]. intros x Hx. apply in_map_iff in Hx.
    destruct Hx as (q & <- & Hq). apply in_map. apply (Hfresh q Hq).
Qed.

(** X13. With different identities in the pool, the three rounds of a quiz
    have [min 20 n], [min 20 (n - 20)] and [min 20 (n - 40)] questions, [n]
    being the size of the pool: all three rounds are full exactly from 60
    questions on. *)
Theorem round_sizes (app : App) (random1 random2 random3 : nat -> Q)
    (events1 events2 : list event) :
  NoDup (map id (pdfParser app)) ->
  (forall t, (0 <= random1 t)%Q /\ (random1 t < 1)%Q) ->
  (forall t, (0 <= random2 t)%Q /\ (random2 t < 1)%Q) ->
  (forall t, (0 <= random3 t)%Q /\ (random3 t < 1)%Q) ->
  forallb within_round events1 = true -> forallb within_round events2 = true ->
  let n := List.length (pdfParser app) in
  let round1 := startQuiz random1 app in
  let round2 := startNextRound random2 (run round1 events1) in
  let round3 := startNextRound random3 (run round2 events2) in
  List.length (roundQuestions round1) = Nat.min 20 n /\
  List.length (roundQuestions round2) = Nat.min 20 (n - 20) /\
  List.length (roundQuestions round3) = Nat.min 20 (n - 40).
Proof.
  intros Hpool Hr1 Hr2 Hr3 He1 He2 n round1 round2 round3.
  (* round 1 *)
  set (app1 := {| pdfParser := pdfParser app; currentRound := 1;
                  currentQuestionIndex := currentQuestionIndex app;
                  roundScores := [Some (Count 0); Some (Count 0); Some (Count 0)];
                  roundQuestions := roundQuestions app; usedQuestionIds := [];
                  selectedAnswer := selectedAnswer app; isAnswered := isAnswered app;
                  activeScreen := activeScreen app |}).
  assert (E1 : round1 = showScreen "quiz" (startRound random1 app1)) by reflexivity.
  destruct (startRound_size random1 app1 Hr1 Hpool) as (L1 & N1 & I1);
    [constructor | intros x [] |].
  destruct (startRound_fields random1 app1) as (P1 & _ & _ & _ & U1 & _).
  change (pdfParser app1) with (pdfParser app) in L1, I1, P1.
  change (usedQuestionIds app1) with (@nil jsstring) in L1, U1.
  cbn [List.length] in L1. rewrite Nat.sub_0_r in L1.
  (* the play of round 1 *)
  destruct (run_within_round events1 round1 He1) as (Kp1 & _ & _ & Ku1).
  (* round 2 *)
  set (app2 := {| pdfParser := pdfParser (run round1 events1);
                  currentRound := Pos.succ (currentRound (run round1 events1));
                  currentQuestionIndex := currentQuestionIndex (run round1 events1);
                  roundScores := roundScores (run round1 events1);
                  roundQuestions := roundQuestions (run round1 events1);
                  usedQuestionIds := usedQuestionIds (run round1 events1);
                  selectedAnswer := selectedAnswer (run round1 events1);
                  isAnswered := isAnswered (run round1 events1);
                  activeScreen := activeScreen (run round1 events1) |}).
  assert (E2 : round2 = showScreen "quiz" (startRound random2 app2)) by reflexivity.
  assert (Pp2 : pdfParser app2 = pdfParser app).
  { cbn [app2 pdfParser]. rewrite Kp1, E1. cbn [showScreen pdfParser]. exact P1. }
  assert (Pu2 : usedQuestionIds app2 = usedQuestionIds (startRound random1 app1)).
  { cbn [app2 usedQuestionIds]. rewrite Ku1, E1. reflexivity. }
  destruct (startRound_size random2 app2 Hr2) as (L2 & N2 & I2);
    [rewrite Pp2; exact Hpool | rewrite Pu2; exact N1 | rewrite Pp2, Pu2; exact I1 |].
  destruct (startRound_fields random2 app2) as (P2 & _ & _ & _ & U2 & _).
  (* the play of round 2 *)
  destruct (run_within_round events2 round2 He2) as (Kp2 & _ & _ & Ku2).
  (* round 3 *)
  set (app3 := {| pdfParser := pdfParser (run round2 events2);
                  currentRound := Pos.succ (currentRound (run round2 events2));
                  currentQuestionIndex := currentQuestionIndex (run round2 events2);
                  roundScores := roundScores (run round2 events2);
                  roundQuestions := roundQuestions (run round2 events2);
                  usedQuestionIds := usedQuestionIds (run round2 events2);
                  selectedAnswer := selectedAnswer (run round2 events2);
                  isAnswered := isAnswered (run round2 events2);
                  activeScreen := activeScreen (run round2 events2) |}).
  assert (E3 : round3 = showScreen "quiz" (startRound random3 app3)) by reflexivity.
  assert (Pp3 : pdfParser app3 = pdfParser app).
  { cbn [app3 pdfParser]. rewrite Kp2, E2. cbn [showScreen pdfParser]. rewrite P2. exact Pp2. }
  assert (Pu3 : usedQuestionIds app3 = usedQuestionIds (startRound random2 app2)).
  { cbn [app3 usedQuestionIds]. rewrite Ku2, E2. reflexivity. }
  destruct (startRound_size random3 app3 Hr3) as (L3 & _ & _);
    [rewrite Pp3; exact Hpool | rewrite Pu3; exact N2 | rewrite Pp3, Pu3, Pp2 in *; exact I2 |].
  (* the sizes *)
  assert (Hu1 : List.length (usedQuestionIds (startRound random1 app1))
                = List.length (roundQuestions (startRound random1 app1))).
  { destruct (startRound_fields random1 app1) as (_ & _ & _ & R & U & _).
    rewrite U, R. change (usedQuestionIds app1) with (@nil jsstring).
    cbn [List.app]. rewrite length_map. reflexivity. }
  assert (Hu2 : List.length (usedQuestionIds (startRound random2 app2))
                = List.length (usedQuestionIds app2)
                  + List.length (roundQuestions (startRound random2 app2))).
  { destruct (startRound_fields random2 app2) as (_ & _ & _ & R & U & _).
    rewrite U, R. rewrite length_app, length_map. reflexivity. }
  rewrite E1, E2, E3. cbn [showScreen roundQuestions].
  rewrite Pp2, Pu2 in L2. rewrite Pp3, Pu3 in L3. rewrite Pu2 in Hu2.
  fold n in L1, L2, L3. unfold QUESTIONS_PER_ROUND in *.
  split; [exact L1|]. split; lia.
Qed.

Lemma NoDup_numbered_pool_3 : NoDup (map id (numbered_pool 3)).
Proof.
  apply (bool_decide_unpack _). vm_compute. exact Logic.I.
Qed.

Lemma round_sizes_witness :
  let app := fresh_app (numbered_pool 3) in
  let n := List.length (pdfParser app) in
  let round1 := startQuiz sample_random app in
  let round2 := startNextRound sample_random (run round1 [SkipQuestion]) in
  let round3 := startNextRound sample_random (run round2 [GoHome]) in
  List.length (roundQuestions round1) = Nat.min 20 n /\
  List.length (roundQuestions round2) = Nat.min 20 (n - 20) /\
  List.length (roundQuestions round3) = Nat.min 20 (n - 40).
Proof.
  apply (round_sizes (fresh_app (numbered_pool 3)) sample_random sample_random sample_random
           [SkipQuestion] [GoHome]).
  - exact NoDup_numbered_pool_3.
  - exact sample_random_range.
  - exact sample_random_range.
  - exact sample_random_range.
  - reflexivity.
  - reflexivity.
Defined.

(** ** Playing a round *)

(** X14. A round of fewer than 20 questions cannot be finished by answering
    it: once its last question has been answered and the timeout has moved
    on, the screen is the one it was, the question is marked as answered,
    and clicks on the options and on the skip button change nothing. *)
Theorem short_round_never_ends (app : App) (letter : jsstring) (question : Question)
    (clicks : list event) :
  isAnswered app = false ->
  Datatypes.S (currentQuestionIndex app) = List.length (roundQuestions app) ->
  List.length (roundQuestions app) < QUESTIONS_PER_ROUND ->
  forallb click clicks = true ->
  let answered := nextQuestion (selectOption letter question app) in
  run answered clicks = answered /\
  isAnswered answered = true /\
  activeScreen answered = activeScreen app /\
  currentQuestionIndex answered = List.length (roundQuestions app).
Proof.
  intros Hun Hlast Hshort Hclicks answered.
  assert (Hfields : isAnswered answered = true /\
                    activeScreen answered = activeScreen app /\
                    currentQuestionIndex answered = List.length (roundQuestions app)).
  { unfold answered, selectOption. rewrite Hun.
    unfold nextQuestion. cbv zeta. cbn [currentQuestionIndex].
    rewrite Nat.add_1_r, Hlast.
    destruct (Nat.leb_spec QUESTIONS_PER_ROUND (List.length (roundQuestions app)));
      [lia|].
    unfold showQuestion. cbn [roundQuestions currentQuestionIndex].
    rewrite (lookup_ge_None_2 (roundQuestions app) (List.length (roundQuestions app)))
      by reflexivity.
    repeat split; reflexivity. }
  split; [|exact Hfields]. destruct Hfields as (Hans & _).
  clear - Hans Hclicks. induction clicks as [|e clicks IH]; [reflexivity|].
  cbn in Hclicks. apply andb_true_iff in Hclicks. destruct Hclicks as [He Hes].
  cbn [run fold_left]. fold (run (step answered e) clicks).
  assert (Hstep : step answered e = answered).
  { destruct e; try discriminate; cbn [step]; unfold selectOption, skipQuestion;
      rewrite Hans; reflexivity. }
  rewrite Hstep. apply IH. exact Hes.
Qed.

Lemma short_round_never_ends_witness :
  let app := run (startQuiz sample_random (fresh_app (numbered_pool 3)))
                 [SkipQuestion; SkipQuestion] in
  let answered := nextQuestion (selectOption (js "B") (sample_record 1) app) in
  run answered [SkipQuestion; SelectOption (js "A") (sample_record 1)] = answered /\
  isAnswered answered = true /\
  activeScreen answered = activeScreen app /\
  currentQuestionIndex answered = List.length (roundQuestions app).
Proof.
  apply (short_round_never_ends
           (run (startQuiz sample_random (fresh_app (numbered_pool 3)))
                [SkipQuestion; SkipQuestion])
           (js "B") (sample_record 1)
           [SkipQuestion; SelectOption (js "A") (sample_record 1)]).
  - vm_compute. reflexivity.
  - vm_compute. reflexivity.
  - vm_compute. lia.
  - reflexivity.
Defined.

Lemma correct_nil (round : list Question) : correct round [] = 0%N.
Proof. destruct round; reflexivity. Qed.

Lemma run_app (app : App) (events more : list event) :
  run app (events ++ more) = run (run app events) more.
Proof. unfold run. apply fold_left_app. Qed.

Lemma round_events_nil (round : list Question) : round_events round [] = [].
Proof. destruct round; reflexivity. Qed.

Lemma play_round (turns : list turn) :
  forall (app : App) (s : N),
  List.length (roundQuestions app) = QUESTIONS_PER_ROUND ->
  currentQuestionIndex app + List.length turns = QUESTIONS_PER_ROUND ->
  (turns <> [] -> isAnswered app = false) ->
  roundScores app !! (Pos.to_nat (currentRound app) - 1) = Some (Some (Count s)) ->
  let played := run app (round_events (skipn (currentQuestionIndex app) (roundQuestions app))
                                      turns) in
  roundScores played
    = <[Pos.to_nat (currentRound app) - 1 :=
          Some (Count (s + correct (skipn (currentQuestionIndex app) (roundQuestions app))
                                   turns))]> (roundScores app) /\
  currentQuestionIndex played = QUESTIONS_PER_ROUND /\
  roundQuestions played = roundQuestions app /\
  currentRound played = currentRound app /\
  (turns <> [] -> activeScreen played = "roundComplete"%string).
Proof.
  induction turns as [|t turns IH]; intros app s Hlen Hidx Hun Hscore played.
  - unfold played. rewrite round_events_nil. cbn [run fold_left].
    rewrite correct_nil, N.add_0_r.
    rewrite list_insert_id by exact Hscore.
    cbn [List.length] in Hidx. repeat split; try reflexivity; [lia | congruence].
  - specialize (Hun ltac:(discriminate)).
    cbn [List.length] in Hidx.
    assert (Hi : currentQuestionIndex app < List.length (roundQuestions app)) by lia.
    destruct (lookup_lt_is_Some_2 _ _ Hi) as [q Hq].
    assert (Hdrop : skipn (currentQuestionIndex app) (roundQuestions app)
                    = q :: skipn (Datatypes.S (currentQuestionIndex app)) (roundQuestions app)).
    { apply drop_S. exact Hq. }
    (* the state after this turn *)
    set (gain := match t with
                 | Answer letter => if jsstring_eqb letter (answer q) then 1%N else 0%N
                 | Skip => 0%N
                 end).
    assert (Hturn : exists next,
      run app (turn_events q t) = next /\
      roundScores next = <[Pos.to_nat (currentRound app) - 1 := Some (Count (s + gain))]>
                           (roundScores app) /\
      currentQuestionIndex next = Datatypes.S (currentQuestionIndex app) /\
      roundQuestions next = roundQuestions app /\
      currentRound next = currentRound app /\
      (turns <> [] -> isAnswered next = false) /\
      (turns = [] -> activeScreen next = "roundComplete"%string)).
    { eexists. split; [reflexivity|].
      assert (Hnext : forall mid : App,
        roundQuestions mid = roundQuestions app ->
        currentQuestionIndex mid = currentQuestionIndex app ->
        currentRound mid = currentRound app ->
        roundScores (nextQuestion mid) = roundScores mid /\
        currentQuestionIndex (nextQuestion mid) = Datatypes.S (currentQuestionIndex app) /\
        roundQuestions (nextQuestion mid) = roundQuestions app /\
        currentRound (nextQuestion mid) = currentRound app /\
        (turns <> [] -> isAnswered (nextQuestion mid) = false) /\
        (turns = [] -> activeScreen (nextQuestion mid) = "roundComplete"%string)).
      { intros mid Hr Hi' Hc. unfold nextQuestion. cbv zeta. cbn [currentQuestionIndex].
        rewrite Hi', Nat.add_1_r.
        destruct (Nat.leb_spec QUESTIONS_PER_ROUND (Datatypes.S (currentQuestionIndex app)))
          as [Hend|Hmore].
        - assert (turns = []) by (destruct turns; [reflexivity | cbn in Hidx; lia]).
          subst turns. cbn. repeat split; auto. intros H; contradiction.
        - unfold showQuestion. cbn [roundQuestions currentQuestionIndex]. rewrite Hr.
          destruct (lookup_lt_is_Some_2 (roundQuestions app)
                      (Datatypes.S (currentQuestionIndex app)) ltac:(lia)) as [q' ->].
          cbn. repeat split; auto.
          intros ->. cbn in Hidx. lia. }
      destruct t as [letter|]; cbn [turn_events run fold_left step].
      - unfold selectOption at 1 2 3 4 5 6. rewrite Hun.
        match goal with |- context [nextQuestion ?m] =>
          destruct (Hnext m eq_refl eq_refl eq_refl) as (N1 & N2 & N3 & N4 & N5 & N6) end.
        rewrite N1. cbn [roundScores]. split; [|auto].
        unfold gain. destruct (jsstring_eqb letter (answer q)).
        + unfold increment. rewrite Hscore. reflexivity.
        + rewrite N.add_0_r. symmetry. apply list_insert_id. exact Hscore.
      - unfold skipQuestion. rewrite Hun.
        destruct (Hnext app eq_refl eq_refl eq_refl) as (N1 & N2 & N3 & N4 & N5 & N6).
        rewrite N1. split; [|auto].
        unfold gain. rewrite N.add_0_r. symmetry. apply list_insert_id. exact Hscore. }
    destruct Hturn as (next & Hplay & Hs & Hi' & Hr & Hc & Hun' & Hend).
    unfold played. rewrite Hdrop. cbn [round_events]. rewrite run_app, Hplay.
    assert (Hk : Pos.to_nat (currentRound app) - 1 < List.length (roundScores app)).
    { apply lookup_lt_is_Some. eauto. }
    destruct (IH next (s + gain)%N) as (R1 & R2 & R3 & R4 & R5).
    + rewrite Hr. exact Hlen.
    + rewrite Hi'. lia.
    + exact Hun'.
    + rewrite Hs, Hc. apply list_lookup_insert_eq || apply list_lookup_insert. exact Hk.
    + rewrite ?Hr, ?Hi' in R1, R2, R3, R4, R5. rewrite R1, R2, R3, R4, Hs, ?Hr, Hc.
      rewrite list_insert_insert_eq || rewrite list_insert_insert.
      repeat split; auto.
      * f_equal. f_equal. f_equal. unfold gain. destruct t as [letter|]; cbn [correct]; lia.
      * intros _. destruct turns as [|t' turns'].
        -- rewrite round_events_nil. cbn [run fold_left]. apply Hend. reflexivity.
        -- apply R5. discriminate.
Qed.

(** X15. A round of 20 questions played to its end, every question answered
    or skipped: the round-complete screen is shown, and the score of the
    round has grown by the number of questions answered with the letter
    recorded as their answer; the other scores are as they were. *)
Theorem full_round_score (app : App) (turns : list turn) (s : N) :
  currentQuestionIndex app = 0 ->
  isAnswered app = false ->
  List.length (roundQuestions app) = QUESTIONS_PER_ROUND ->
  List.length turns = QUESTIONS_PER_ROUND ->
  roundScores app !! (Pos.to_nat (currentRound app) - 1) = Some (Some (Count s)) ->
  let played := run app (round_events (roundQuestions app) turns) in
  activeScreen played = "roundComplete"%string /\
  roundScores played
    = <[Pos.to_nat (currentRound app) - 1 :=
          Some (Count (s + correct (roundQuestions app) turns))]> (roundScores app) /\
  currentQuestionIndex played = QUESTIONS_PER_ROUND.
Proof.
  intros Hidx Hun Hlen Hturns Hscore played.
  destruct (play_round turns app s Hlen) as (R1 & R2 & _ & _ & R5); try assumption.
  - rewrite Hidx, Hturns. reflexivity.
  - intros _. exact Hun.
  - rewrite Hidx in R1, R2, R5. rewrite drop_0 in R1, R2, R5. fold played in R1, R2, R5.
    split; [|split; assumption].
    apply R5. destruct turns; [discriminate|discriminate].
Qed.

Lemma full_round_score_witness :
  let app := startQuiz sample_random (fresh_app (numbered_pool 20)) in
  let turns := repeat (Answer (js "B")) 10 ++ repeat Skip 5 ++ repeat (Answer (js "A")) 5 in
  let played := run app (round_events (roundQuestions app) turns) in
  activeScreen played = "roundComplete"%string /\
  roundScores played
    = <[Pos.to_nat (currentRound app) - 1 :=
          Some (Count (0 + correct (roundQuestions app) turns))]> (roundScores app) /\
  currentQuestionIndex played = QUESTIONS_PER_ROUND.
Proof.
  apply (full_round_score (startQuiz sample_random (fresh_app (numbered_pool 20)))
           (repeat (Answer (js "B")) 10 ++ repeat Skip 5 ++ repeat (Answer (js "A")) 5) 0%N).
  - vm_compute. reflexivity.
  - vm_compute. reflexivity.
  - vm_compute. reflexivity.
  - vm_compute. reflexivity.
  - vm_compute. reflexivity.
Defined.

Lemma total_counts (ns : list N) :
  forall a,
  fold_left (fun a slot => match slot with Some b => add a b | None => a end)
            (map (fun n => Some (Count n)) ns) (Count a)
  = Count (a + fold_right N.add 0%N ns).
Proof.
  induction ns as [|n ns IH]; intros a; cbn [map fold_left fold_right add].
  - rewrite N.add_0_r. reflexivity.
  - rewrite IH. f_equal. lia.
Qed.

Lemma insert_counts (ns : list N) :
  forall k n,
  <[k := Some (Count n)]> (map (fun n => Some (Count n)) ns)
  = map (fun n => Some (Count n)) (<[k := n]> ns).
Proof.
  induction ns as [|x ns IH]; intros k n; [reflexivity|].
  destruct k as [|k]; cbn; [reflexivity|]. f_equal. apply IH.
Qed.

Lemma sum_insert (ns : list N) :
  forall k s d, ns !! k = Some s ->
  fold_right N.add 0%N (<[k := (s + d)%N]> ns) = (fold_right N.add 0%N ns + d)%N.
Proof.
  induction ns as [|x ns IH]; intros k s d H; [discriminate|].
  destruct k as [|k]; cbn in *.
  - injection H as ->. lia.
  - rewrite (IH _ _ _ H). lia.
Qed.

(** X16. When the scores are counts, the total score after a round of 20
    questions played to its end is the total before it and the number of
    questions answered with the letter recorded as their answer. *)
Theorem total_score_counts_correct_answers (app : App) (turns : list turn) (scores : list N) :
  roundScores app = map (fun n => Some (Count n)) scores ->
  Pos.to_nat (currentRound app) <= List.length scores ->
  currentQuestionIndex app = 0 ->
  isAnswered app = false ->
  List.length (roundQuestions app) = QUESTIONS_PER_ROUND ->
  List.length turns = QUESTIONS_PER_ROUND ->
  getTotalScore app = Count (fold_right N.add 0%N scores) /\
  getTotalScore (run app (round_events (roundQuestions app) turns))
    = Count (fold_right N.add 0%N scores + correct (roundQuestions app) turns).
Proof.
  intros Hscores Hround Hidx Hun Hlen Hturns.
  split.
  - unfold getTotalScore. rewrite Hscores, total_counts. reflexivity.
  - assert (Hk : Pos.to_nat (currentRound app) - 1 < List.length scores) by lia.
    destruct (lookup_lt_is_Some_2 _ _ Hk) as [s Hs].
    assert (Hscore : roundScores app !! (Pos.to_nat (currentRound app) - 1)
                     = Some (Some (Count s))).
    { rewrite Hscores. clear - Hs. revert Hs.
      generalize (Pos.to_nat (currentRound app) - 1). intros k. revert k.
      induction scores as [|x xs IH]; intros [|k] H; try discriminate.
      - injection H as ->. reflexivity.
      - apply IH. exact H. }
    destruct (play_round turns app s Hlen) as (R1 & _); try assumption.
    + rewrite Hidx, Hturns. reflexivity.
    + intros _. exact Hun.
    + rewrite Hidx, drop_0 in R1. unfold getTotalScore. rewrite R1.
      rewrite Hscores, insert_counts, total_counts, (sum_insert _ _ _ _ Hs). reflexivity.
Qed.

Lemma total_score_counts_correct_answers_witness :
  let app := startQuiz sample_random (fresh_app (numbered_pool 20)) in
  let turns := repeat (Answer (js "B")) 10 ++ repeat Skip 5 ++ repeat (Answer (js "A")) 5 in
  getTotalScore app = Count (fold_right N.add 0%N [0; 0; 0]%N) /\
  getTotalScore (run app (round_events (roundQuestions app) turns))
    = Count (fold_right N.add 0%N [0; 0; 0]%N + correct (roundQuestions app) turns).
Proof.
  apply (total_score_counts_correct_answers
           (startQuiz sample_random (fresh_app (numbered_pool 20)))
           (repeat (Answer (js "B")) 10 ++ repeat Skip 5 ++ repeat (Answer (js "A")) 5)
           [0; 0; 0]%N).
  - vm_compute. reflexivity.
  - vm_compute. lia.
  - vm_compute. reflexivity.
  - vm_compute. reflexivity.
  - vm_compute. reflexivity.
  - vm_compute. reflexivity.
Defined.
